(** * Librarian facets engine: path ancestry, node materializer, archive

    A shallow embedding of [librarian/data/facets/archive.py] and a
    verification of the properties stated about it.

    - [PosixPath]: the functions of Python's [os.path] (POSIX flavour) that
      the module calls: [normpath], [dirname], [basename], and the string
      methods [split] / [join].
    - [ancestors_of]: the generator of the ancestor chain, as the list it
      produces.
    - [FSWriter]: the node materializer, over an explicit world holding the
      store and the cache, in a state-and-exception monad.
    - [Archive]: metadata reconstruction, [analyze], [scan], [get], [save],
      [clear], [for_parent], [parent], [remove] and the handler of the
      entry point event, over the same world extended with the task
      executor and the event bus. *)

From Stdlib Require Import ZArith Ascii String List Lia.
From stdpp Require Import base tactics option list sorting gmap strings.

Local Open Scope string_scope.
Local Open Scope Z_scope.
Local Open Scope list_scope.

Set Warnings "-clear-no-such-hyp".

(** ** Python's [os.path] on POSIX *)

Module PosixPath.

(** [os.path.sep] *)
Definition sep : string := "/".
Definition sep_char : ascii := "/"%char.

(** [s.split('/')]: the components between separators; the empty string
    has the single component [''] and [n] separators give [n + 1]
    components. *)
Fixpoint split (s : string) : list string :=
  match s with
  | EmptyString => [""]
  | String c rest =>
      if Ascii.eqb c sep_char then "" :: split rest
      else match split rest with
           | [] => [String c ""]
           | w :: ws => String c w :: ws
           end
  end.

(** ['/'.join(parts)] *)
Definition join (parts : list string) : string := String.concat sep parts.

(** [s.startswith(p)] *)
Definition startswith (p s : string) : bool := String.prefix p s.

(** The body of the loop of [normpath] over the components: [new_comps]
    is the stack built so far, [initial_slashes] the count of leading
    slashes kept (0, 1 or 2). *)
Definition normpath_step (initial_slashes : nat)
    (new_comps : list string) (comp : string) : list string :=
  if bool_decide (comp = "") || bool_decide (comp = ".") then new_comps
  else if negb (bool_decide (comp = ".."))
          || (bool_decide (initial_slashes = 0%nat)
              && bool_decide (new_comps = []))
          || (negb (bool_decide (new_comps = []))
              && bool_decide (last new_comps = Some ".."))
       then new_comps ++ [comp]
       else removelast new_comps.

(** POSIX allows one or two initial slashes, and treats three or more as
    a single one. *)
Definition initial_slashes (path : string) : nat :=
  if startswith "/" path then
    if startswith "//" path && negb (startswith "///" path)
    then 2%nat else 1%nat
  else 0%nat.

Fixpoint slashes (n : nat) : string :=
  match n with
  | O => ""
  | S n' => String sep_char (slashes n')
  end.

(** [os.path.normpath] *)
Definition normpath (path : string) : string :=
  if bool_decide (path = "") then "."
  else
    let n := initial_slashes path in
    let comps := fold_left (normpath_step n) (split path) [] in
    let path' := slashes n +:+ join comps in
    if bool_decide (path' = "") then "." else path'.

(** Characters of a string and back, for the right-to-left scans of
    [dirname]. *)
Definition chars : string → list ascii := list_ascii_of_string.
Definition of_chars : list ascii → string := string_of_list_ascii.

Fixpoint drop_while (f : ascii → bool) (l : list ascii) : list ascii :=
  match l with
  | [] => []
  | c :: l' => if f c then drop_while f l' else l
  end.

Definition is_sep (c : ascii) : bool := Ascii.eqb c sep_char.

(** [p[:p.rfind('/') + 1]], reversed: what is left of the reversed path
    once the characters after the last separator are dropped. *)
Definition rev_head (p : string) : list ascii :=
  drop_while (λ c, negb (is_sep c)) (rev (chars p)).

(** [os.path.dirname]: the head up to the last separator, with trailing
    separators stripped unless the head is made of separators only. *)
Definition dirname (p : string) : string :=
  let head := rev_head p in
  if negb (bool_decide (head = [])) && negb (forallb is_sep head)
  then of_chars (rev (drop_while is_sep head))
  else of_chars (rev head).

Fixpoint take_while (f : ascii → bool) (l : list ascii) : list ascii :=
  match l with
  | [] => []
  | c :: l' => if f c then c :: take_while f l' else []
  end.

(** [os.path.basename]: [p[p.rfind('/') + 1:]], what follows the last
    separator. *)
Definition basename (p : string) : string :=
  of_chars (rev (take_while (λ c, negb (is_sep c)) (rev (chars p)))).

End PosixPath.

(** ** Path ancestry *)

(** [ancestors_of(path)]: the generator yields, and this list holds, all
    of [path]'s ancestors including [path] itself. *)
Definition ancestors_of (path : string) : list string :=
  let normalized := PosixPath.normpath path in
  if bool_decide (normalized = PosixPath.sep) then [normalized]
  else if bool_decide (normalized = ".") then [""]
  else
    let parts := PosixPath.split normalized in
    (if bool_decide (head parts = Some "") then [] else [""])
    ++ map (λ i,
            let joined := PosixPath.join (take (S i) parts) in
            if bool_decide (joined = "") then PosixPath.sep else joined)
           (seq 0 (length parts)).

(** ** Content types and node types *)

Module ContentTypes.

(** Modelled from the spec: the bitmask model of [contenttypes.py], which
    is not among the sources. Each content-type tag maps to a single bit;
    [to_bitmask] unions the bits of one or more tags. The tag set is the
    default "generic" tag and the classifications the spec names. *)
Inductive tag : Type := GENERIC | TEXT | IMAGE.

Definition bit_index (t : tag) : Z :=
  match t with GENERIC => 0 | TEXT => 1 | IMAGE => 2 end.

Definition bit (t : tag) : Z := Z.shiftl 1 (bit_index t).

Definition to_bitmask (tags : list tag) : Z :=
  fold_right (λ t acc, Z.lor (bit t) acc) 0 tags.

(** The containment test [(stored & wanted) == wanted]. *)
Definition contains (stored wanted : Z) : bool :=
  bool_decide (Z.land stored wanted = wanted).

End ContentTypes.

(** Modelled from the spec: the constants [FILE_TYPE] and [DIRECTORY_TYPE]
    of [processors.py], which is not among the sources; the [type] of a
    node is one of the two. *)
Inductive fs_type : Type := FILE_TYPE | DIRECTORY_TYPE.

Global Instance fs_type_eq_dec : EqDecision fs_type.
Proof. solve_decision. Defined.

(** A file system object as the program holds it: a row of the [fs] table
    read into a dict, which is also what the cache keeps. *)
Module Fs.
Record entry : Type := Entry {
  id : Z;
  parent_id : Z;
  path : string;
  type : fs_type;
  content_types : Z
}.

(** [entry['content_types'] |= bits] *)
Definition or_content_types (bits : Z) (e : entry) : entry :=
  {| id := id e; parent_id := parent_id e; path := path e;
     type := type e; content_types := Z.lor (content_types e) bits |}.
End Fs.

Global Instance fs_entry_eq_dec : EqDecision Fs.entry.
Proof. solve_decision. Defined.

(** ** The store *)

(** Modelled from the spec: the relational store collaborator. The [fs]
    table has [path] as its natural, unique key, so it is a finite map from
    the path to the remaining columns; [id] is assigned on creation from a
    counter. The [meta] table has [(fs_id, language, key)] as its natural
    key. [executed] is the sequence of write statements handed to the
    store, in order. *)
Record fs_cols : Type := FsCols {
  c_id : Z;
  c_parent_id : Z;
  c_type : fs_type;
  c_content_types : Z
}.

Inductive statement : Type :=
| ReplaceFs (path : string) (parent_id : Z) (ty : fs_type) (content_types : Z)
| UpdateFs (path : string) (content_types : Z)
| ReplaceMeta (fs_id : Z) (language key value : string)
| DeleteMeta
| DeleteFs.

Record database : Type := Database {
  fs : gmap string fs_cols;
  meta : gmap (Z * string * string) string;
  next_id : Z;
  executed : list statement
}.

Definition row_of (path : string) (c : fs_cols) : Fs.entry :=
  {| Fs.id := c_id c; Fs.parent_id := c_parent_id c; Fs.path := path;
     Fs.type := c_type c; Fs.content_types := c_content_types c |}.

Module Db.

(** [SELECT * FROM fs WHERE path = %s], one row or none. *)
Definition fetchone_by_path (path : string) (d : database)
  : option Fs.entry :=
  row_of path <$> fs d !! path.

Definition shorter_path (a b : Fs.entry) : Prop :=
  (String.length (Fs.path a) ≤ String.length (Fs.path b))%nat.

Global Instance shorter_path_dec : RelDecision shorter_path.
Proof. intros a b. unfold shorter_path. apply _. Defined.

(** [SELECT * FROM fs WHERE path IN (...) ORDER BY length(path)]: each
    matching row once, shortest path first. *)
Definition select_in_order_by_length (paths : list string) (d : database)
  : list Fs.entry :=
  merge_sort shorter_path
    (omap (λ p, fetchone_by_path p d) (remove_dups paths)).

(** The upsert [REPLACE INTO fs (parent_id, path, type, content_types)]
    constrained on [path]: an existing row keeps its [id] and takes the
    new columns, a new row takes the next [id]. *)
Definition replace_fs (path : string) (parent_id : Z) (ty : fs_type)
    (content_types : Z) (d : database) : database :=
  let stmt := ReplaceFs path parent_id ty content_types in
  match fs d !! path with
  | Some old =>
      {| fs := <[path := FsCols (c_id old) parent_id ty content_types]>
                 (fs d);
         meta := meta d; next_id := next_id d;
         executed := executed d ++ [stmt] |}
  | None =>
      {| fs := <[path := FsCols (next_id d) parent_id ty content_types]>
                 (fs d);
         meta := meta d; next_id := next_id d + 1;
         executed := executed d ++ [stmt] |}
  end.

Definition or_cols (bits : Z) (c : fs_cols) : fs_cols :=
  FsCols (c_id c) (c_parent_id c) (c_type c)
         (Z.lor (c_content_types c) bits).

(** [UPDATE fs SET content_types = content_types | %s WHERE path = %s];
    no row matches, nothing changes. *)
Definition update_fs (path : string) (content_types : Z) (d : database)
  : database :=
  {| fs := alter (or_cols content_types) path (fs d);
     meta := meta d; next_id := next_id d;
     executed := executed d ++ [UpdateFs path content_types] |}.

End Db.

(** ** Dictionaries handed around by the archive *)

(** The values found in the dicts behind [MetaWrapper]: columns of the
    [fs] table, a language section [{key: value}] built by
    [_reconstruct_meta], or the [{language: {key: value}}] mapping stored
    under ['metadata']. Keys are strings, or [None] for a [NULL] language. *)
Inductive pyval : Type :=
| VInt (z : Z)
| VStr (s : string)
| VType (t : fs_type)
| VSection (d : gmap string (option string))
| VMetadata (d : gmap string (gmap string string)).

Abbreviation pydict := (gmap (option string) pyval).

(** [MetaWrapper(data)] only wraps the dict. *)
Definition MetaWrapper (data : pydict) : pydict := data.

(** ** The world: store, cache, task executor, event bus *)

(** A callback is either the archive's own [save] or a function of the
    caller, known by name. *)
Inductive callback : Type := SaveCallback | UserCallback (name : string).

Record scan_kwargs : Type := ScanKwargs {
  kw_path : option string;
  kw_partial : bool;
  kw_callback : option callback;
  kw_maxdepth : option nat;
  kw_depth : nat;
  kw_delay : Z
}.

(** What [tasks.schedule] was given. *)
Inductive task : Type :=
| AnalyzeTask (paths : list string) (partial : bool) (cb : callback)
| ScanTask (kwargs : scan_kwargs) (delay : Z).

Record world : Type := World {
  db : database;
  cache : gmap string Fs.entry;
  tasks : list task;
  events : list (string * Z);
  called : list (callback * gmap string pydict)
}.

Definition set_db (d : database) (w : world) : world :=
  World d (cache w) (tasks w) (events w) (called w).
Definition set_cache (c : gmap string Fs.entry) (w : world) : world :=
  World (db w) c (tasks w) (events w) (called w).

(** ** State and exceptions *)

Inductive exn : Type := TypeError | ValueError | KeyError.

Inductive result (A : Type) : Type :=
| Ok (a : A) (w : world)
| Raise (e : exn).
Arguments Ok {A} a w.
Arguments Raise {A} e.

Definition M (A : Type) : Type := world → result A.

Global Instance M_mret : MRet M := λ A a w, Ok a w.
Global Instance M_bind : MBind M := λ A B k m w,
  match m w with
  | Ok a w' => k a w'
  | Raise e => Raise e
  end.
Definition raise {A} (e : exn) : M A := λ _, Raise e.

(** [for x in xs: body(x)] *)
Fixpoint for_each {A} (xs : list A) (body : A → M unit) : M unit :=
  match xs with
  | [] => mret tt
  | x :: xs' => body x ;; for_each xs' body
  end.

(** The store and the cache as the program reaches them. The expiry of
    cache entries ([CACHE_TIMEOUT]) is not part of a single call: an
    entry set is there until the call ends, and what has expired between
    calls is a matter of the world a call starts in. *)
Definition db_execute (f : database → database) : M unit :=
  λ w, Ok tt (set_db (f (db w)) w).
Definition db_fetchone (path : string) : M (option Fs.entry) :=
  λ w, Ok (Db.fetchone_by_path path (db w)) w.
Definition db_fetchiter_in (paths : list string) : M (list Fs.entry) :=
  λ w, Ok (Db.select_in_order_by_length paths (db w)) w.
Definition cache_get (key : string) : M (option Fs.entry) :=
  λ w, Ok (cache w !! key) w.
Definition cache_set (key : string) (e : Fs.entry) : M unit :=
  λ w, Ok tt (set_cache (<[key := e]> (cache w)) w).

(** [l.remove(x)]: drops the first occurrence, [ValueError] when there is
    none. *)
Fixpoint list_remove (x : string) (l : list string) : option (list string) :=
  match l with
  | [] => None
  | y :: l' => if bool_decide (x = y) then Some l'
               else cons y <$> list_remove x l'
  end.

(** ** The node materializer *)

Module FSWriter.

(** Default content type (applies for all fs entries) *)
Definition DEFAULT_CONTENT_TYPE : Z :=
  ContentTypes.to_bitmask [ContentTypes.GENERIC].
(** Prefix to be used when the whole range needs to be invalidated *)
Definition CACHE_PREFIX : string := "fs_".

(** What [last] holds in [write]: a file system object, or
    [DEFAULT_ROOT = dict(id=0)] in case not even the root ancestor is
    found. *)
Inductive node : Type :=
| Found (e : Fs.entry)
| DEFAULT_ROOT.

Definition node_id (n : node) : Z :=
  match n with Found e => Fs.id e | DEFAULT_ROOT => 0 end.

(** The fields unpacked by [__init__]. *)
Record t : Type := Make {
  _path : string;
  _parent_path : string;
  _type : fs_type;
  _content_types : Z
}.

Definition init (path : string) (ty : fs_type) (content_types : Z) : t :=
  {| _path := path; _parent_path := PosixPath.dirname path;
     _type := ty; _content_types := content_types |}.

Definition _key (path : string) : string := CACHE_PREFIX +:+ path.

(** The first loop of [_get_chain]: entries found in cache up to the
    first miss, and the rest of the chain from that miss on. *)
Fixpoint cached_prefix (c : gmap string Fs.entry) (path_chain : list string)
  : list Fs.entry * list string :=
  match path_chain with
  | [] => ([], [])
  | path :: rest =>
      match c !! _key path with
      | None => ([], path_chain)
      | Some entry =>
          let '(ancestors, missing) := cached_prefix c rest in
          (entry :: ancestors, missing)
      end
  end.

(** The second loop of [_get_chain], over the rows fetched from the
    store. *)
Fixpoint absorb_fetched (rows : list Fs.entry)
    (ancestors : list Fs.entry) (missing : list string)
  : M (list Fs.entry * list string) :=
  match rows with
  | [] => mret (ancestors, missing)
  | entry :: rows' =>
      let path := Fs.path entry in
      cache_set (_key path) entry ;;
      match list_remove path missing with
      | None => raise ValueError
      | Some missing' =>
          absorb_fetched rows' (ancestors ++ [entry]) missing'
      end
  end.

Definition _get_chain (self : t) : M (list Fs.entry * list string) :=
  let path_chain := ancestors_of (_path self) in
  λ w,
    let '(ancestors, missing) := cached_prefix (cache w) path_chain in
    if bool_decide (missing = []) then Ok (ancestors, missing) w
    else (rows ← db_fetchiter_in missing;
          absorb_fetched rows ancestors missing) w.

(** [dict(fetchone(...))]: [dict(None)] is a [TypeError]. *)
Definition _fetch (path : string) : M Fs.entry :=
  row ← db_fetchone path;
  match row with
  | Some entry => mret entry
  | None => raise TypeError
  end.

Definition _create (path : string) (parent_id : Z) (fs_type : fs_type)
    (content_types : Z) : M Fs.entry :=
  db_execute (Db.replace_fs path parent_id fs_type content_types) ;;
  entry ← _fetch path;
  cache_set (_key path) entry ;;
  mret entry.

Definition _update (path : string) (content_types : Z) : M Fs.entry :=
  let cache_key := _key path in
  cached ← cache_get cache_key;
  match cached with
  | Some entry =>
      if ContentTypes.contains (Fs.content_types entry) content_types
      then mret entry
      else
        db_execute (Db.update_fs path content_types) ;;
        let entry := Fs.or_content_types content_types entry in
        cache_set cache_key entry ;;
        mret entry
  | None =>
      db_execute (Db.update_fs path content_types) ;;
      entry ← _fetch path;
      cache_set cache_key entry ;;
      mret entry
  end.

(** The content types a missing chain entry is created with. *)
Definition created_content_types (self : t) (missing : string) : Z :=
  let content_types := DEFAULT_CONTENT_TYPE in
  if bool_decide (missing = _path self)
     || (bool_decide (missing = _parent_path self)
         && bool_decide (_type self = FILE_TYPE))
  then Z.lor content_types (_content_types self)
  else content_types.

(** The loop of [write] over [missing_paths]. *)
Fixpoint create_missing (self : t) (missing_paths : list string)
    (last : node) : M node :=
  match missing_paths with
  | [] => mret last
  | missing :: rest =>
      created ← _create missing (node_id last) (_type self)
                   (created_content_types self missing);
      create_missing self rest (Found created)
  end.

Definition write (self : t) : M node :=
  '(found, missing_paths) ← _get_chain self;
  let last := match last found with
              | Some e => Found e
              | None => DEFAULT_ROOT
              end in
  last ← create_missing self missing_paths last;
  (if bool_decide (_parent_path self ∉ missing_paths)
      && bool_decide (_type self = FILE_TYPE)
   then _update (_parent_path self) (_content_types self) ;; mret tt
   else mret tt) ;;
  if bool_decide (_path self ∉ missing_paths)
  then updated ← _update (_path self) (_content_types self);
       mret (Found updated)
  else mret last.

Definition update (self : t) : M Fs.entry :=
  _update (_path self) (_content_types self).

End FSWriter.

Definition empty_db : database := Database ∅ ∅ 1 [].
Definition empty_world : world := World empty_db ∅ [] [] [].

(** ** The archive *)

(** A row of the join of [fs] and [meta] as [_reconstruct_meta] reads it;
    the [meta] columns are [NULL] for a node without meta entries. *)
Record joined_row : Type := JoinedRow {
  r_path : string;
  r_id : Z;
  r_parent_id : Z;
  r_type : fs_type;
  r_content_types : Z;
  r_language : option string;
  r_key : option string;
  r_value : option string
}.

(** A file system object of the lister, exposing its relative path. *)
Record fso : Type := Fso { rel_path : string }.

(** A processor class: its content type [name] and its capabilities. *)
Record processor : Type := Processor {
  name : ContentTypes.tag;
  can_process : string → bool;
  is_entry_point : string → bool;
  process_file : string → pydict → bool → pydict
}.

Module Db_join.

Definition joined (p : string) (c : fs_cols)
    (m : option (string * string * string)) : joined_row :=
  {| r_path := p; r_id := c_id c; r_parent_id := c_parent_id c;
     r_type := c_type c; r_content_types := c_content_types c;
     r_language := (λ x, x.1.1) <$> m;
     r_key := (λ x, x.1.2) <$> m;
     r_value := (λ x, x.2) <$> m |}.

(** The [meta] rows of one node, as (language, key, value). *)
Definition meta_of (fs_id : Z) (d : database)
  : list (string * string * string) :=
  omap (λ '((i, language, key), value),
        if bool_decide (i = fs_id) then Some (language, key, value)
        else None)
       (map_to_list (meta d)).

(** The right outer join for one [fs] row: one joined row per meta
    entry, or a single row of [NULL]s when there is none. *)
Definition join_fs_row (d : database) (pc : string * fs_cols)
  : list joined_row :=
  match meta_of (c_id pc.2) d with
  | [] => [joined pc.1 pc.2 None]
  | ms => map (λ m, joined pc.1 pc.2 (Some m)) ms
  end.

Definition path_le (a b : string * fs_cols) : Prop := String.le a.1 b.1.

Global Instance path_le_dec : RelDecision path_le.
Proof. intros a b. unfold path_le. apply _. Defined.

(** [SELECT * FROM meta RIGHT OUTER JOIN fs ON fs.id = meta.fs_id
     WHERE fs.path IN (...) [AND (fs.content_types & %s) = %s]
     ORDER BY fs.path] *)
Definition select_meta_in_order_by_path (paths : list string)
    (bitmask : option Z) (d : database) : list joined_row :=
  let matching :=
    omap (λ p,
          c ← fs d !! p;
          match bitmask with
          | Some b =>
              if ContentTypes.contains (c_content_types c) b
              then Some (p, c) else None
          | None => Some (p, c)
          end)
         (remove_dups paths) in
  concat (map (join_fs_row d) (merge_sort path_le matching)).

(** The upsert into [meta] constrained on [(fs_id, language, key)]. *)
Definition replace_meta (fs_id : Z) (language key value : string)
    (d : database) : database :=
  {| fs := fs d;
     meta := <[(fs_id, language, key) := value]> (meta d);
     next_id := next_id d;
     executed := executed d ++ [ReplaceMeta fs_id language key value] |}.

Definition delete_meta (d : database) : database :=
  {| fs := fs d; meta := ∅; next_id := next_id d;
     executed := executed d ++ [DeleteMeta] |}.

Definition delete_fs (d : database) : database :=
  {| fs := ∅; meta := meta d; next_id := next_id d;
     executed := executed d ++ [DeleteFs] |}.

End Db_join.

(** Modelled from the spec: the decorator [batched] of [core.utils], which
    is not among the sources. The argument is chunked into batches of at
    most [batch_size] items, the function runs once per batch, and the
    [updater] aggregator merges the dicts returned, later batches
    overriding earlier ones. *)
Module Batched.

Fixpoint chunks_go {A} (room : nat) (batch_size : nat) (cur : list A)
    (l : list A) : list (list A) :=
  match l with
  | [] => match cur with [] => [] | _ => [rev cur] end
  | x :: l' =>
      match room with
      | O => rev cur :: chunks_go (pred batch_size) batch_size [x] l'
      | S room' => chunks_go room' batch_size (x :: cur) l'
      end
  end.

Definition chunks {A} (batch_size : nat) (l : list A) : list (list A) :=
  chunks_go batch_size batch_size [] l.

Fixpoint run_batches {A V} `{Countable K}
    (f : list A → M (gmap K V)) (batches : list (list A))
    (acc : gmap K V) : M (gmap K V) :=
  match batches with
  | [] => mret acc
  | b :: rest => r ← f b; run_batches f rest (r ∪ acc)
  end.

Definition batched {A V} `{Countable K} (batch_size : nat)
    (f : list A → M (gmap K V)) (arg : list A) : M (gmap K V) :=
  run_batches f (chunks batch_size arg) ∅.

End Batched.

Definition db_fetchiter_join (paths : list string) (bitmask : option Z)
  : M (list joined_row) :=
  λ w, Ok (Db_join.select_meta_in_order_by_path paths bitmask (db w)) w.

(** The deletes of [remove]. The log of executed statements keeps the
    kind of a delete, not its [WHERE] clause. *)
Module Db_delete.

(** The ids of the rows the paths have in [fs]. *)
Definition ids_of (paths : list string) (d : database) : list Z :=
  omap (λ p, c_id <$> fs d !! p) paths.

(** [DELETE FROM meta USING fs
     WHERE meta.fs_id = fs.id AND fs.path IN (...)] *)
Definition delete_meta_using_fs (paths : list string) (d : database)
  : database :=
  {| fs := fs d;
     meta := filter (λ kv : Z * string * string * string,
                       kv.1.1.1 ∉ ids_of paths d) (meta d);
     next_id := next_id d;
     executed := executed d ++ [DeleteMeta] |}.

(** [DELETE FROM fs WHERE path IN (...)] *)
Definition delete_fs_in (paths : list string) (d : database) : database :=
  {| fs := filter (λ kv : string * fs_cols, kv.1 ∉ paths) (fs d);
     meta := meta d;
     next_id := next_id d;
     executed := executed d ++ [DeleteFs] |}.

End Db_delete.

(** The query of [for_parent]. *)
Module Db_children.

(** The paths of the rows whose [parent_id] is the [id] of the row of
    [path]: the join [fs fsr ON fsr.parent_id = fs.id] under
    [WHERE fs.path = %(path)s]. *)
Definition children (path : string) (d : database) : list string :=
  match fs d !! path with
  | Some parent =>
      (filter (λ pc : string * fs_cols, c_parent_id pc.2 = c_id parent)
              (map_to_list (fs d))).*1
  | None => []
  end.

(** [SELECT fsr.*, meta.* FROM fs
     JOIN fs fsr ON fsr.parent_id = fs.id
     LEFT OUTER JOIN meta ON meta.fs_id = fsr.id
     WHERE fs.path = %(path)s
       [AND (fsr.content_types & %(content_type)s) = %(content_type)s]
     ORDER BY fsr.path]: the rows of the children of [path], each joined
    with its meta entries as in the query of [get]. *)
Definition select_children_in_order_by_path (path : string)
    (bitmask : option Z) (d : database) : list joined_row :=
  Db_join.select_meta_in_order_by_path (children path d) bitmask d.

End Db_children.

Definition db_fetchiter_children (path : string) (bitmask : option Z)
  : M (list joined_row) :=
  λ w, Ok (Db_children.select_children_in_order_by_path path bitmask (db w)) w.

Module Archive.

(** The collaborators an archive holds besides the store, the cache, the
    task executor and the event bus, which live in the world: the file
    system lister, the processor registry and the key sets of
    [ContentTypes]. *)
Record t : Type := Make {
  list_dir : string → bool * list fso * list fso;
  for_path : string → list processor;
  for_type : ContentTypes.tag → processor;
  keys : option ContentTypes.tag → list string
}.

(** Default root path, relative to FSAL's base directory *)
Definition ROOT_PATH : string := "".

(** What publishing an event, scheduling a task and calling a callback
    leave in the world. *)
Definition published (path : string) (content_type : Z) (w : world)
  : world :=
  World (db w) (cache w) (tasks w) (events w ++ [(path, content_type)])
        (called w).
Definition scheduled (tk : task) (w : world) : world :=
  World (db w) (cache w) (tasks w ++ [tk]) (events w) (called w).
Definition called_with (cb : callback) (arg : gmap string pydict)
    (w : world) : world :=
  World (db w) (cache w) (tasks w) (events w) (called w ++ [(cb, arg)]).

Definition events_publish (path : string) (content_type : Z) : M unit :=
  λ w, Ok tt (published path content_type w).
Definition tasks_schedule (tk : task) : M unit :=
  λ w, Ok tt (scheduled tk w).

(** The loop of [_analyze] over the processors of a path. *)
Fixpoint run_processors (procs : list processor) (path : string)
    (partial : bool) (data : pydict) : M pydict :=
  match procs with
  | [] => mret data
  | proc_cls :: rest =>
      (if is_entry_point proc_cls path
       then events_publish path
              (ContentTypes.to_bitmask [name proc_cls])
       else mret tt) ;;
      run_processors rest path partial
        (process_file proc_cls path data partial)
  end.

(** [_analyze], on the blocking path where [callback] is not set. *)
Definition _analyze (self : t) (path : string) (partial : bool)
  : M pydict :=
  data ← run_processors (for_path self path) path partial ∅;
  mret (MetaWrapper data).

(** [dict((path, self._analyze(path, ...)) for path in paths)] *)
Fixpoint analyze_each (self : t) (paths : list string) (partial : bool)
  : M (gmap string pydict) :=
  match paths with
  | [] => mret ∅
  | path :: rest =>
      wrapped ← _analyze self path partial;
      d ← analyze_each self rest partial;
      mret (d ∪ {[path := wrapped]})
  end.

Definition analyze_batch (self : t) (partial : bool)
    (callback : option callback) (paths : list string)
  : M (gmap string pydict) :=
  match callback with
  | None => analyze_each self paths partial
  | Some cb =>
      tasks_schedule (AnalyzeTask paths partial cb) ;;
      mret ∅
  end.

Definition analyze (self : t) (paths : list string) (partial : bool)
    (callback : option callback) : M (gmap string pydict) :=
  Batched.batched 10 (analyze_batch self partial callback) paths.

(** [path or self.ROOT_PATH] *)
Definition or_root (path : option string) : string :=
  match path with
  | Some p => if bool_decide (p = "") then ROOT_PATH else p
  | None => ROOT_PATH
  end.

(** [path or '.'] *)
Definition or_dot (path : string) : string :=
  if bool_decide (path = "") then "." else path.

(** The loop of [_scan] over the subfolders; [rec] is the recursive call
    of [_scan] on one of them. Without a callback the batches of each
    subfolder are yielded in turn, with one the scan of the subfolder is
    handed to the task executor. [None] stands for a traversal that does
    not end. *)
Fixpoint scan_dirs (rec : scan_kwargs → world
                          → option (result (list (gmap string pydict))))
    (dirs : list fso) (partial : bool) (callback : option callback)
    (maxdepth : option nat) (depth : nat) (delay : Z) (w : world)
  : option (result (list (gmap string pydict))) :=
  match dirs with
  | [] => Some (Ok [] w)
  | fso :: rest =>
      let kwargs := ScanKwargs (Some (rel_path fso)) partial callback
                               maxdepth (S depth) delay in
      match callback with
      | Some _ =>
          scan_dirs rec rest partial callback maxdepth depth delay
                    (scheduled (ScanTask kwargs delay) w)
      | None =>
          match rec kwargs w with
          | None => None
          | Some (Raise e) => Some (Raise e)
          | Some (Ok yielded w') =>
              match scan_dirs rec rest partial callback maxdepth depth
                              delay w' with
              | None => None
              | Some (Raise e) => Some (Raise e)
              | Some (Ok more w'') => Some (Ok (yielded ++ more) w'')
              end
          end
      end
  end.

(** [callback(metadata)] in [_scan], with the mapping from paths to
    views that [analyze] returned. A function of the caller is not part
    of the program: its call is recorded. The archive's own [save] takes
    the mapping for the data of a node: [FSWriter.__init__] reads
    [data['path']] from it, a [KeyError] unless a file named ['path'] was
    analysed; what it reads then is a view where [os.path.dirname] needs
    the path of a node, an error counted as a [TypeError], as [save]
    counts a path that is not a string. *)
Definition run_callback (cb : callback) (metadata : gmap string pydict)
  : M unit :=
  match cb with
  | SaveCallback =>
      match metadata !! "path" with
      | None => raise KeyError
      | Some _ => raise TypeError
      end
  | UserCallback _ => λ w, Ok tt (called_with cb metadata w)
  end.

(** [_scan]: the batches the generator yields when run to its end. The
    module is written for Python 2, where a [raise StopIteration()] in
    the body of a generator ends it, as does reaching the end of the
    body. [fuel] bounds the depth of the recursion. *)
Fixpoint _scan (fuel : nat) (self : t) (kw : scan_kwargs) (w : world)
  : option (result (list (gmap string pydict))) :=
  match fuel with
  | O => None
  | S fuel' =>
      let path := or_root (kw_path kw) in
      let '(success, dirs, files) := list_dir self (or_dot path) in
      if negb success then Some (Ok [] w)
      else
        let file_paths := map rel_path files in
        match analyze self file_paths (kw_partial kw) None w with
        | Raise e => Some (Raise e)
        | Ok metadata w1 =>
            match
              match kw_callback kw with
              | Some cb => (run_callback cb metadata ;; mret []) w1
              | None => Ok [metadata] w1
              end
            with
            | Raise e => Some (Raise e)
            | Ok yielded w2 =>
                if bool_decide (kw_maxdepth kw = Some (kw_depth kw))
                then Some (Ok yielded w2)
                else
                  match scan_dirs (_scan fuel' self) dirs (kw_partial kw)
                          (kw_callback kw) (kw_maxdepth kw) (kw_depth kw)
                          (kw_delay kw) w2 with
                  | None => None
                  | Some (Raise e) => Some (Raise e)
                  | Some (Ok more w3) => Some (Ok (yielded ++ more) w3)
                  end
            end
        end
  end.

(** [scan]: with a callback the generator is evaluated on the spot and
    the list of what it yielded returned, without one the generator is
    returned, which the caller then runs. *)
Definition scan (fuel : nat) (self : t) (kw : scan_kwargs) (w : world)
  : option (result (list (gmap string pydict))) :=
  _scan fuel self kw w.

Definition _keep_supported (self : t) (paths : list string)
    (content_type : ContentTypes.tag) : list string :=
  let processor_cls := for_type self content_type in
  filter (λ path, can_process processor_cls path = true) paths.

(** [_strip]: a copy of a section with the keys stripped out that do not
    belong to the content type. *)
Definition _strip (self : t) (metadata : gmap string string)
    (content_type : option ContentTypes.tag) : gmap string string :=
  filter (λ kv, kv.1 ∈ keys self content_type) metadata.

(** [itertools.groupby(rows, lambda r: r['path'])]: the maximal runs of
    consecutive rows with the same path, each with its key. A run is
    never empty: it is kept as its first row and the rows after it. *)
Fixpoint groupby (rows : list joined_row)
  : list (string * (joined_row * list joined_row)) :=
  match rows with
  | [] => []
  | row :: rest =>
      match groupby rest with
      | (key, (first, others)) :: groups =>
          if bool_decide (r_path row = key)
          then (key, (row, first :: others)) :: groups
          else (r_path row, (row, [])) :: (key, (first, others)) :: groups
      | [] => [(r_path row, (row, []))]
      end
  end.

(** The body of the inner loop of [_reconstruct_meta]: a row with a key
    sets [data[language][key]], a row without one leaves [data] as it
    is. *)
Definition add_row (data : gmap (option string) (gmap string (option string)))
    (row : joined_row) : gmap (option string) (gmap string (option string)) :=
  match r_key row with
  | Some key =>
      if bool_decide (key = "") then data
      else
        let language := r_language row in
        let section := default ∅ (data !! language) in
        <[language := <[key := r_value row]> section]> data
  | None => data
  end.

(** One pass of the outer loop: the sections gathered from the rows of
    the run, updated with the [fs] columns of the row the inner loop
    ended on. *)
Definition view_of (path : string) (run : joined_row * list joined_row)
  : pydict :=
  let data := fold_left add_row (run.1 :: run.2) ∅ in
  let row := default run.1 (last run.2) in
  <[Some "path" := VStr path]>
    (<[Some "id" := VInt (r_id row)]>
      (<[Some "parent_id" := VInt (r_parent_id row)]>
        (<[Some "type" := VType (r_type row)]>
          (<[Some "content_types" := VInt (r_content_types row)]>
            (VSection <$> data))))).

Definition _reconstruct_meta (rows : list joined_row) : list pydict :=
  map (λ '(path, run), MetaWrapper (view_of path run)) (groupby rows).

(** [meta.path] *)
Definition attr_path (meta : pydict) : option string :=
  match meta !! Some "path" with
  | Some (VStr p) => Some p
  | _ => None
  end.

(** [dict((meta.path, meta) for meta in metas)] *)
Fixpoint dict_by_path (metas : list pydict) : M (gmap string pydict) :=
  match metas with
  | [] => mret ∅
  | meta :: rest =>
      match attr_path meta with
      | Some p => d ← dict_by_path rest; mret (d ∪ {[p := meta]})
      | None => raise KeyError
      end
  end.

(** The dict of a file system object read from the store. *)
Definition dict_of_entry (e : Fs.entry) : pydict :=
  <[Some "id" := VInt (Fs.id e)]>
    (<[Some "parent_id" := VInt (Fs.parent_id e)]>
      (<[Some "path" := VStr (Fs.path e)]>
        (<[Some "type" := VType (Fs.type e)]>
          {[Some "content_types" := VInt (Fs.content_types e)]}))).

(** The loop of [_save_metadata] over the languages; [executemany] runs
    the upsert once per key-value pair of the cleaned section. *)
Definition _save_metadata (self : t) (fs_id : Z)
    (metadata : gmap string (gmap string string))
  : M (gmap string (gmap string string)) :=
  let cleaned := (λ section, _strip self section None) <$> metadata in
  for_each (map_to_list cleaned) (λ '(language, section),
    for_each (map_to_list section) (λ '(key, value),
      db_execute (Db_join.replace_meta fs_id language key value))) ;;
  mret cleaned.

Definition save (self : t) (data : pydict) : M pydict :=
  match data !! Some "path", data !! Some "type",
        data !! Some "content_types" with
  | Some (VStr path), Some (VType ty), Some (VInt content_types) =>
      let fs_writer := FSWriter.init path ty content_types in
      saved ← FSWriter.write fs_writer;
      let metadata := match data !! Some "metadata" with
                      | Some (VMetadata m) => m
                      | _ => ∅
                      end in
      cleaned ← _save_metadata self (FSWriter.node_id saved) metadata;
      match saved with
      | FSWriter.Found e =>
          mret (MetaWrapper (<[Some "metadata" := VMetadata cleaned]>
                               (dict_of_entry e)))
      | FSWriter.DEFAULT_ROOT => raise KeyError
      end
  | None, _, _ | _, None, _ | _, _, None => raise KeyError
  | _, _, _ => raise TypeError
  end.

Definition save_many (self : t) (metas : gmap string pydict) : M unit :=
  for_each (map_to_list metas).*2 (λ data, save self data ;; mret tt).

(** The body of [get], for one batch of paths. *)
Definition get_batch (self : t) (content_type : option ContentTypes.tag)
    (partial ignore_missing : bool) (paths : list string)
  : M (gmap string pydict) :=
  let paths := match content_type with
               | Some ct => _keep_supported self paths ct
               | None => paths
               end in
  if bool_decide (is_Some content_type) && bool_decide (paths = [])
  then mret ∅
  else
    let bitmask := (λ ct, ContentTypes.to_bitmask [ct]) <$> content_type in
    row_iter ← db_fetchiter_join paths bitmask;
    data ← dict_by_path (_reconstruct_meta row_iter);
    if ignore_missing then mret data
    else
      let missing := filter (λ p, data !! p = None) (remove_dups paths) in
      if bool_decide (missing = []) then mret data
      else if partial then
        analyze self missing false (Some SaveCallback) ;;
        partials ← analyze self missing true None;
        mret (partials ∪ data)
      else
        metas ← analyze self missing false None;
        save_many self metas ;;
        mret (metas ∪ data).

Definition get (self : t) (paths : list string)
    (content_type : option ContentTypes.tag)
    (partial ignore_missing : bool) : M (gmap string pydict) :=
  Batched.batched 999
    (get_batch self content_type partial ignore_missing) paths.

(** [clear]: empty the facets database. *)
Definition clear : M unit :=
  db_execute Db_join.delete_meta ;;
  db_execute Db_join.delete_fs.


(** [for_parent]: the views of all direct children of [path], keyed by
    path, optionally filtered for a content type. *)
Definition for_parent (self : t) (path : string)
    (content_type : option ContentTypes.tag) : M (gmap string pydict) :=
  let bitmask := (λ ct, ContentTypes.to_bitmask [ct]) <$> content_type in
  row_iter ← db_fetchiter_children path bitmask;
  dict_by_path (_reconstruct_meta row_iter).

(** [functools.reduce(lambda acc, x: acc | x, itypes, default)] over
    [itypes = (m.content_types for m in metas.values())]. The attribute
    read [m.content_types] belongs to the class [MetaWrapper] of
    [wrapper.py], which is not among the sources: it is the parameter
    [content_types_of]. *)
Fixpoint reduce_or (content_types_of : pydict → M Z) (ms : list pydict)
    (acc : Z) : M Z :=
  match ms with
  | [] => mret acc
  | m :: rest =>
      x ← content_types_of m;
      reduce_or content_types_of rest (Z.lor acc x)
  end.

(** [metadata[path]] *)
Definition item (metadata : gmap string pydict) (path : string) : M pydict :=
  match metadata !! path with
  | Some meta => mret meta
  | None => raise KeyError
  end.

(** [_refresh_parent]: a blocking partial scan of only the folder being
    queried. The unpacking [(metas,) = self.scan(...)] runs the generator
    to its end and is a [ValueError] unless exactly one batch was
    yielded; with [maxdepth=0] at depth 0 one level of recursion is all
    the scan takes. *)
Definition _refresh_parent (content_types_of : pydict → M Z) (self : t)
    (path : string) (w : world) : option (result pydict) :=
  match scan 1 self (ScanKwargs (Some path) true None (Some 0%nat) 0 0) w with
  | None => None
  | Some (Raise e) => Some (Raise e)
  | Some (Ok [metas] w1) =>
      Some ((let default := ContentTypes.to_bitmask [ContentTypes.GENERIC] in
             bitmask ← reduce_or content_types_of (map_to_list metas).*2
                         default;
             let raw_data : pydict :=
               <[Some "path" := VStr path]>
                 (<[Some "type" := VType DIRECTORY_TYPE]>
                    {[Some "content_types" := VInt bitmask]}) in
             save self raw_data ;;
             metadata ← get self [path] None true false;
             item metadata path) w1)
  | Some (Ok _ _) => Some (Raise ValueError)
  end.

(** [parent]: the stored folder entry of a directory, refreshed when
    asked to or when there is none. *)
Definition parent (content_types_of : pydict → M Z) (self : t)
    (path : string) (force_refresh : bool) (w : world)
  : option (result pydict) :=
  if force_refresh then _refresh_parent content_types_of self path w
  else
    match get self [path] None true true w with
    | Raise e => Some (Raise e)
    | Ok metadata w1 =>
        if bool_decide (metadata = ∅)
        then _refresh_parent content_types_of self path w1
        else Some (item metadata path w1)
    end.

(** [_entry_point_found]: the handler of the entry point event. The
    constant [NO_LANGUAGE] belongs to [processors.py], which is not among
    the sources: it is a parameter. *)
Definition _entry_point_found (NO_LANGUAGE : string) (self : t)
    (path : string) (content_type : Z) : M unit :=
  let metadata : gmap string (gmap string string) :=
    {[ NO_LANGUAGE := {[ "main" := PosixPath.basename path ]} ]} in
  let data : pydict :=
    <[Some "path" := VStr (PosixPath.dirname path)]>
      (<[Some "metadata" := VMetadata metadata]>
         (<[Some "type" := VType DIRECTORY_TYPE]>
            {[Some "content_types" := VInt content_type]})) in
  save self data ;; mret tt.

(** The body of [remove], for one batch of paths. The cleanup hook
    [proc_cls().deprocess_file(path)] belongs to the processors, which
    are not among the sources: it is the parameter [deprocess_file]. *)
Definition remove_batch (deprocess_file : processor → string → M unit)
    (self : t) (paths : list string) : M unit :=
  for_each paths (λ path,
    for_each (for_path self path) (λ proc_cls,
      deprocess_file proc_cls path)) ;;
  db_execute (Db_delete.delete_meta_using_fs paths) ;;
  db_execute (Db_delete.delete_fs_in paths).

(** [remove], run batch by batch ([batch_size=999, lazy=False]). *)
Definition remove (deprocess_file : processor → string → M unit)
    (self : t) (paths : list string) : M unit :=
  for_each (Batched.chunks 999 paths) (remove_batch deprocess_file self).

End Archive.

(** ** Predicates of the specification *)

(** The columns [Db.replace_fs] leaves in the row of [path]. *)
Definition created_cols (path : string) (parent_id : Z) (ty : fs_type)
    (content_types : Z) (d : database) : fs_cols :=
  FsCols (match fs d !! path with
          | Some old => c_id old
          | None => next_id d
          end) parent_id ty content_types.

(** The store has a row for the path. *)
Definition has_row (p : string) (w : world) : Prop :=
  is_Some (fs (db w) !! p).

(** The cache holds an entry for the path. *)
Definition is_cached (p : string) (w : world) : Prop :=
  is_Some (cache w !! FSWriter._key p).

(** The cache entry of a path, if there is one, is backed by a row of the
    store that stands in relation [R] to it. *)
Definition agrees (R : Fs.entry → fs_cols → Prop) (p : string) (w : world)
  : Prop :=
  ∀ e, cache w !! FSWriter._key p = Some e →
       ∃ c, fs (db w) !! p = Some c ∧ R e c.

(** The cache entry of a path is backed by a row of the store. *)
Definition cache_backed : string → world → Prop := agrees (λ _ _, True).

(** The cache entry of a path is backed by a row of the store that has at
    least the content-type bits of the entry. *)
Definition cache_within : string → world → Prop :=
  agrees (λ e c, Z.land (c_content_types c) (Fs.content_types e)
                 = Fs.content_types e).

(** The cache entry kept under the key of a path is an entry of that
    path. *)
Definition cache_keyed (p : string) (w : world) : Prop :=
  ∀ e, cache w !! FSWriter._key p = Some e → Fs.path e = p.

(** The store has a row for the path whose content types contain the
    bits: [(content_types & bits) == bits]. *)
Definition row_contains (p : string) (bits : Z) (w : world) : Prop :=
  ∃ c, fs (db w) !! p = Some c ∧ Z.land (c_content_types c) bits = bits.

(** The length of the joined components, separators included, plus one;
    and the same over the components that are not empty. *)
Definition weight (l : list string) : nat :=
  list_sum (map (λ x, S (String.length x)) l).
Definition weight_kept (l : list string) : nat :=
  list_sum (map (λ x, if bool_decide (x = "") then O
                      else S (String.length x)) l).

(** The path is known to the writer: held in cache or stored. *)
Definition known (p : string) (w : world) : Prop :=
  is_cached p w ∨ has_row p w.

(** A row with a key, neither [NULL] nor empty: the rows [_reconstruct_meta]
    takes a meta entry from. *)
Definition keyed (r : joined_row) : bool :=
  match r_key r with
  | Some key => negb (bool_decide (key = ""))
  | None => false
  end.

(** The keys under which a view carries the columns of its node. *)
Definition fs_keys : list (option string) :=
  [Some "path"; Some "id"; Some "parent_id"; Some "type";
   Some "content_types"].

(** The rows of a run of [groupby], in order. *)
Definition run_rows (run : joined_row * list joined_row) : list joined_row :=
  run.1 :: run.2.

(** Sample rows of the join, sorted by path: a node without meta entries
    and a node with two. *)
Definition sample_rows : list joined_row :=
  [JoinedRow "a" 1 0 DIRECTORY_TYPE 1 None None None;
   JoinedRow "a/b" 2 1 FILE_TYPE 3 (Some "en") (Some "title") (Some "B");
   JoinedRow "a/b" 2 1 FILE_TYPE 3 (Some "en") (Some "author") (Some "X")].

(** An archive over a small tree: the root holds a file and the
    subfolders [x], [bad] and [y], of which [bad] cannot be listed; no
    processor is registered. *)
Definition sample_lister (path : string) : bool * list fso * list fso :=
  if bool_decide (path = ".")
  then (true, [Fso "x"; Fso "bad"; Fso "y"], [Fso "f.txt"])
  else if bool_decide (path = "x") then (true, [], [Fso "x/g.txt"])
  else if bool_decide (path = "y") then (true, [], [])
  else (false, [], []).

Definition no_processor : processor :=
  Processor ContentTypes.GENERIC (λ _, false) (λ _, false) (λ _ data _, data).

Definition sample_archive : Archive.t :=
  Archive.Make sample_lister (λ _, []) (λ _, no_processor) (λ _, []).

(** The path [_scan] hands to the lister for a given [path] argument. *)
Definition scan_target (path : option string) : string :=
  Archive.or_dot (Archive.or_root path).

(** The arguments of a blocking scan of a path. *)
Definition blocking_scan (path : option string) (depth : nat) : scan_kwargs :=
  ScanKwargs path false None None depth 0.

(** The keys of the mapping a computation returns. *)
Definition result_keys {V} (r : result (gmap string V))
  : option (gset string) :=
  match r with
  | Ok d _ => Some (dom d)
  | Raise _ => None
  end.

(** The world a computation leaves. *)
Definition world_after {A} (m : M A) (w : world) : world :=
  match m w with
  | Ok _ w' => w'
  | Raise _ => w
  end.

(** A text file three levels down, and the world reached from the empty
    one by writing it and then clearing the archive: the store is empty
    again, the cache still holds the four entries of the chain. *)
Definition text_bits : Z := ContentTypes.to_bitmask [ContentTypes.TEXT].
Definition text_file : FSWriter.t :=
  FSWriter.init "a/b/c.txt" FILE_TYPE text_bits.
Definition cleared_world : world :=
  world_after Archive.clear
    (world_after (FSWriter.write text_file) empty_world).

(** The world in which only the folder ["a/b"] and its ancestors were
    written, and the world left by the write of the text file once every
    cache entry has expired. *)
Definition world_with_parent : world :=
  world_after (FSWriter.write (FSWriter.init "a/b" DIRECTORY_TYPE 0))
    empty_world.
Definition expired_world : world :=
  set_cache ∅ (world_after (FSWriter.write text_file) empty_world).

(** The world with a single stored node ["a"], written as a file. *)
Definition world_with_a : world :=
  world_after (FSWriter.write (FSWriter.init "a" FILE_TYPE 0)) empty_world.

(** The paths a write may touch: the chain of ancestors, the parent and
    the target. *)
Definition footprint (self : FSWriter.t) : list string :=
  ancestors_of (FSWriter._path self)
  ++ [FSWriter._parent_path self; FSWriter._path self].

(** Between two worlds only the rows and the cache entries of the given
    paths may differ; the [meta] table, the tasks, the events and the
    calls made are the same. *)
Definition only_touches (paths : list string) (w w' : world) : Prop :=
  (∀ p, p ∉ paths → fs (db w') !! p = fs (db w) !! p)
  ∧ (∀ k, (∀ q, q ∈ paths → k ≠ FSWriter._key q) →
          cache w' !! k = cache w !! k)
  ∧ meta (db w') = meta (db w)
  ∧ tasks w' = tasks w ∧ events w' = events w ∧ called w' = called w.

(** A world in which the folder ["a/b"] is stored and cached, but not the
    path ["a/b/"] with a trailing separator, which is not its own last
    ancestor. *)
Definition unnormalized_dir : FSWriter.t :=
  FSWriter.init "a/b/" DIRECTORY_TYPE text_bits.
(** The cache holds, under the key of the path, an entry whose content
    types contain the bits. *)
Definition cached_with (p : string) (bits : Z) (w : world) : Prop :=
  ∃ e, cache w !! FSWriter._key p = Some e
       ∧ Z.land (Fs.content_types e) bits = bits.

(** The cache entry of a path, if there is one, is what a fetch of the
    path from the store returns. *)
Definition coherent (p : string) (w : world) : Prop :=
  ∀ e, cache w !! FSWriter._key p = Some e →
       Db.fetchone_by_path p (db w) = Some e.
(** The row a path had is still there, under the same [id]. *)
Definition row_id_kept (p : string) (c : fs_cols) (w : world) : Prop :=
  ∃ c', fs (db w) !! p = Some c' ∧ c_id c' = c_id c.

(** The row a path had is still there, with the same [id], [parent_id]
    and [type], and with at least the content types it had. *)
Definition row_kept (p : string) (c : fs_cols) (w : world) : Prop :=
  ∃ c', fs (db w) !! p = Some c'
        ∧ c_id c' = c_id c ∧ c_parent_id c' = c_parent_id c
        ∧ c_type c' = c_type c
        ∧ Z.land (c_content_types c') (c_content_types c)
          = c_content_types c.

(** Whether a computation returned. *)
Definition returns {A} (r : result A) : bool :=
  match r with
  | Ok _ _ => true
  | Raise _ => false
  end.

(** What a world keeps besides the [meta] table when metadata is stored:
    the [fs] table, the cache, the tasks, the events and the calls. *)
Definition same_but_meta (w w' : world) : Prop :=
  fs (db w') = fs (db w) ∧ cache w' = cache w ∧ tasks w' = tasks w
  ∧ events w' = events w ∧ called w' = called w.

(** The meta entries a mapping [{language: {key: value}}] holds. *)
Definition holds (metadata : gmap string (gmap string string))
    (language key value : string) : Prop :=
  ∃ section, metadata !! language = Some section
             ∧ section !! key = Some value.

(** An archive whose only valid metadata key is ['title'], and metadata
    with a valid and an invalid key. *)
Definition titled_archive : Archive.t :=
  Archive.Make sample_lister (λ _, []) (λ _, no_processor) (λ _, ["title"]).
Definition sample_metadata : gmap string (gmap string string) :=
  {[ "en" := {[ "title" := "T"; "bogus" := "B" ]} ]}.

(** The data of a folder with that metadata. *)
Definition sample_data : pydict :=
  <[Some "metadata" := VMetadata sample_metadata]>
    (Archive.dict_of_entry (Fs.Entry 0 0 "a/b" DIRECTORY_TYPE 1)).
(** The world after a sequence of events was published, and after a
    sequence of tasks was scheduled. *)
Definition published_all (evs : list (string * Z)) (w : world) : world :=
  World (db w) (cache w) (tasks w) (events w ++ evs) (called w).
Definition scheduled_all (tks : list task) (w : world) : world :=
  World (db w) (cache w) (tasks w ++ tks) (events w) (called w).

(** What the processors of a path gather into the data of the path, and
    the events published for it: one for each processor the path is an
    entry point of, in the order of the processors. *)
Definition analysis (self : Archive.t) (partial : bool) (path : string)
  : pydict :=
  fold_left (λ data proc_cls, process_file proc_cls path data partial)
            (Archive.for_path self path) ∅.
Definition entry_points (self : Archive.t) (path : string)
  : list (string * Z) :=
  map (λ proc_cls, (path, ContentTypes.to_bitmask [name proc_cls]))
      (filter (λ proc_cls, is_entry_point proc_cls path = true)
              (Archive.for_path self path)).
(** The scans [_scan] hands to the task executor in callback mode: one
    for each subfolder, one level deeper. *)
Definition subfolder_scans (dirs : list fso) (partial : bool)
    (callback : option callback) (maxdepth : option nat) (depth : nat)
    (delay : Z) : list task :=
  map (λ fso, ScanTask (ScanKwargs (Some (rel_path fso)) partial callback
                                   maxdepth (S depth) delay) delay) dirs.
(** What [get] asks of a path and of its row when a content type is
    given: the processor of the type can process the path, and the
    content types of the row contain the bit of the type. *)
Definition supported (self : Archive.t)
    (content_type : option ContentTypes.tag) (p : string) : Prop :=
  match content_type with
  | Some ct => can_process (Archive.for_type self ct) p = true
  | None => True
  end.
Definition selected (content_type : option ContentTypes.tag) (c : fs_cols)
  : Prop :=
  match content_type with
  | Some ct => ContentTypes.contains (c_content_types c)
                 (ContentTypes.to_bitmask [ct]) = true
  | None => True
  end.

(** A view shows the columns of a row of the [fs] table. *)
Definition shows (view : pydict) (p : string) (c : fs_cols) : Prop :=
  view !! Some "path" = Some (VStr p)
  ∧ view !! Some "id" = Some (VInt (c_id c))
  ∧ view !! Some "parent_id" = Some (VInt (c_parent_id c))
  ∧ view !! Some "type" = Some (VType (c_type c))
  ∧ view !! Some "content_types" = Some (VInt (c_content_types c)).

(** Between two worlds the store, the cache and the calls made are the
    same: only tasks were scheduled and events published. *)
Definition same_store (w w' : world) : Prop :=
  db w' = db w ∧ cache w' = cache w ∧ called w' = called w.

(** A cleanup hook that returns and leaves the store and the cache as
    they are. *)
Definition hook_keeps_store (deprocess_file : processor → string → M unit)
  : Prop :=
  ∀ proc_cls path w,
    ∃ w', deprocess_file proc_cls path w = Ok () w'
          ∧ db w' = db w ∧ cache w' = cache w.

(** The hook that does nothing, and the world left by saving the sample
    folder with its metadata. *)
Definition no_cleanup : processor → string → M unit := λ _ _, mret ().
Definition world_with_metadata : world :=
  world_after (Archive.save titled_archive sample_data) empty_world.
(** The attribute read [m.content_types] as a lookup in the dict that
    never fails: the content types found, or none. *)
Definition content_types_or_zero (m : pydict) : M Z :=
  mret (match m !! Some "content_types" with
        | Some (VInt z) => z
        | _ => 0
        end).
(** An attribute read that returns leaves the world as it is. *)
Definition reads_only (content_types_of : pydict → M Z) : Prop :=
  ∀ m w z w', content_types_of m w = Ok z w' → w' = w.

(** Where the entry [e] that is in cache for [p] after a write comes
    from: it is the row the store holds for [p] in [w'], or the entry the
    cache held for [p] in [w], as it was or with [bits] added to its
    content types. *)
Definition stored_or_cached (p : string) (bits : Z) (w w' : world)
    (e : Fs.entry) : Prop :=
  (∃ c, fs (db w') !! p = Some c ∧ e = row_of p c)
  ∨ (∃ e0, cache w !! FSWriter._key p = Some e0
           ∧ (e = e0 ∨ e = Fs.or_content_types bits e0)).

Definition cache_from (p : string) (bits : Z) (w w' : world) : Prop :=
  ∀ e, cache w' !! FSWriter._key p = Some e → stored_or_cached p bits w w' e.

(** [data.get('metadata', {})] *)
Definition metadata_of (data : pydict) : gmap string (gmap string string) :=
  match data !! Some "metadata" with
  | Some (VMetadata m) => m
  | _ => ∅
  end.

(** * Verification *)

(** ** The monad *)

(** Settle a decidable statement on concrete data by evaluation. *)
Ltac by_evaluation := apply (bool_decide_unpack _); vm_compute; exact I.

Ltac unfold_M :=
  unfold mbind, M_bind, mret, M_mret, raise, db_execute, db_fetchone,
    db_fetchiter_in, cache_get, cache_set in *.

Lemma bind_Ok {A B} (m : M A) (k : A → M B) w b w' :
  (m ≫= k) w = Ok b w' ↔ ∃ a w1, m w = Ok a w1 ∧ k a w1 = Ok b w'.
Proof.
  unfold mbind, M_bind. destruct (m w) as [a w1|e]; split.
  - intros H. by exists a, w1.
  - by intros (a' & w1' & [= -> ->] & H).
  - done.
  - by intros (a' & w1' & [=] & _).
Qed.

Lemma bind_Ok_eq {A B} (m : M A) (k : A → M B) w a w1 :
  m w = Ok a w1 → (m ≫= k) w = k a w1.
Proof. unfold mbind, M_bind. by intros ->. Qed.

(** ** Lists *)

Lemma list_remove_Some x l l' :
  list_remove x l = Some l' →
  x ∈ l ∧ (∀ a, a ∈ l → a = x ∨ a ∈ l') ∧ (∀ a, a ∈ l' → a ∈ l).
Proof.
  revert l'. induction l as [|y l IH]; intros l' H; simpl in H; [done|].
  case_bool_decide as Hxy.
  - injection H as <-. subst y. split_and!.
    + left.
    + intros a [->|Ha]%elem_of_cons; auto.
    + intros a Ha. by right.
  - destruct (list_remove x l) as [l0|] eqn:E; simplify_eq/=.
    destruct (IH _ eq_refl) as (Hx & Hin & Hsub). split_and!.
    + by right.
    + intros a [->|Ha]%elem_of_cons; [right; left|].
      destruct (Hin a Ha) as [->|?]; [by left|right; by right].
    + intros a [->|Ha]%elem_of_cons; [left|right; auto].
Qed.

Lemma list_remove_elem_of x l :
  x ∈ l → ∃ l', list_remove x l = Some l'.
Proof.
  induction l as [|y l IH]; intros Hx; [by apply elem_of_nil in Hx|].
  simpl. case_bool_decide; [eauto|].
  apply elem_of_cons in Hx as [->|Hx]; [done|].
  destruct (IH Hx) as [l' ->]. eauto.
Qed.

(** Removing the first occurrence of an item leaves the last item of the
    list in place, unless that was its only occurrence. *)
Lemma list_remove_last x l l' z :
  list_remove x l = Some l' →
  last l = Some z → last l' = Some z ∨ z ∉ l'.
Proof.
  revert l'. induction l as [|y l IH]; intros l' H Hl; simpl in H; [done|].
  case_bool_decide as Hxy.
  - injection H as <-. subst y. destruct l as [|y' l].
    + right. apply not_elem_of_nil.
    + left. by rewrite last_cons_cons in Hl.
  - destruct (list_remove x l) as [l0|] eqn:E; simplify_eq/=.
    destruct l as [|y' l]; [done|]. rewrite last_cons_cons in Hl.
    destruct (list_remove_Some _ _ _ E) as (_ & Hin & _).
    destruct (IH _ eq_refl Hl) as [Hz|Hz].
    + left. destruct l0; [done|]. by rewrite last_cons_cons.
    + right. apply last_Some_elem_of in Hl.
      destruct (Hin _ Hl) as [->|?]; [|done].
      intros [->|?]%elem_of_cons; done.
Qed.

(** ** The store *)

Lemma elem_of_select paths d r :
  r ∈ Db.select_in_order_by_length paths d ↔
  Fs.path r ∈ paths ∧ ∃ c, fs d !! Fs.path r = Some c ∧ r = row_of (Fs.path r) c.
Proof.
  unfold Db.select_in_order_by_length.
  rewrite merge_sort_Permutation, list_elem_of_omap. split.
  - intros (p & Hp & Hf). apply (proj1 (elem_of_remove_dups _ _)) in Hp.
    unfold Db.fetchone_by_path in Hf.
    destruct (fs d !! p) as [c|] eqn:E; simplify_eq/=. eauto.
  - intros (Hp & c & Hc & Hr). exists (Fs.path r). split.
    + by apply elem_of_remove_dups.
    + unfold Db.fetchone_by_path. rewrite Hc. simpl. by rewrite <- Hr.
Qed.

Lemma NoDup_omap_fetchone d l :
  NoDup l → NoDup (Fs.path <$> omap (λ p, Db.fetchone_by_path p d) l).
Proof.
  induction 1 as [|p l Hp Hl IH]; simpl; [constructor|].
  unfold Db.fetchone_by_path at 1.
  destruct (fs d !! p) as [c|]; simpl; [|done].
  constructor; [|done].
  intros (r & Hr & Hin)%list_elem_of_fmap.
  apply list_elem_of_omap in Hin as (q & Hq & Hf).
  unfold Db.fetchone_by_path in Hf.
  destruct (fs d !! q); simplify_eq/=. done.
Qed.

Lemma NoDup_select paths d :
  NoDup (Fs.path <$> Db.select_in_order_by_length paths d).
Proof.
  unfold Db.select_in_order_by_length. rewrite merge_sort_Permutation.
  apply NoDup_omap_fetchone, NoDup_remove_dups.
Qed.

Lemma fs_replace_fs path pid ty ct d :
  fs (Db.replace_fs path pid ty ct d)
  = <[path := created_cols path pid ty ct d]> (fs d).
Proof.
  unfold Db.replace_fs, created_cols. by destruct (fs d !! path).
Qed.

Lemma fs_update_fs path ct d :
  fs (Db.update_fs path ct d) = alter (Db.or_cols ct) path (fs d).
Proof. done. Qed.

(** ** The primitives of the writer *)

Lemma _key_inj p q : FSWriter._key p = FSWriter._key q → p = q.
Proof. unfold FSWriter._key. apply (inj (String.app _)). Qed.

Lemma _key_ne p q : p ≠ q → FSWriter._key p ≠ FSWriter._key q.
Proof. intros Hne Heq. by apply Hne, _key_inj. Qed.

Lemma _create_Ok path pid ty ct w :
  let c := created_cols path pid ty ct (db w) in
  FSWriter._create path pid ty ct w
  = Ok (row_of path c)
       (set_cache (<[FSWriter._key path := row_of path c]> (cache w))
          (set_db (Db.replace_fs path pid ty ct (db w)) w)).
Proof.
  intros c. unfold FSWriter._create, FSWriter._fetch. unfold_M. simpl.
  unfold Db.fetchone_by_path. rewrite fs_replace_fs, lookup_insert_eq.
  done.
Qed.

Lemma _update_hit path ct w e :
  cache w !! FSWriter._key path = Some e →
  ContentTypes.contains (Fs.content_types e) ct = true →
  FSWriter._update path ct w = Ok e w.
Proof.
  intros Hc Hct. unfold FSWriter._update. unfold_M. by rewrite Hc, Hct.
Qed.

Lemma _update_widen path ct w e :
  cache w !! FSWriter._key path = Some e →
  ContentTypes.contains (Fs.content_types e) ct = false →
  FSWriter._update path ct w
  = Ok (Fs.or_content_types ct e)
       (set_cache (<[FSWriter._key path := Fs.or_content_types ct e]>
                     (cache w))
          (set_db (Db.update_fs path ct (db w)) w)).
Proof.
  intros Hc Hct. unfold FSWriter._update. unfold_M. by rewrite Hc, Hct.
Qed.

Lemma _update_uncached path ct w :
  cache w !! FSWriter._key path = None →
  FSWriter._update path ct w
  = match fs (db w) !! path with
    | Some c =>
        let e := row_of path (Db.or_cols ct c) in
        Ok e (set_cache (<[FSWriter._key path := e]> (cache w))
                (set_db (Db.update_fs path ct (db w)) w))
    | None => Raise TypeError
    end.
Proof.
  intros Hc. unfold FSWriter._update, FSWriter._fetch. unfold_M.
  rewrite Hc. simpl. unfold Db.fetchone_by_path. simpl.
  rewrite lookup_alter_eq. by destruct (fs (db w) !! path).
Qed.

(** What [_update] leaves behind, whichever branch it takes. *)
Lemma _update_Ok_inv path ct w e w' :
  FSWriter._update path ct w = Ok e w' →
  (w' = w ∧ cache w !! FSWriter._key path = Some e
   ∧ Z.land (Fs.content_types e) ct = ct)
  ∨ (∃ e0, cache w !! FSWriter._key path = Some e0
      ∧ e = Fs.or_content_types ct e0
      ∧ w' = set_cache (<[FSWriter._key path := e]> (cache w))
               (set_db (Db.update_fs path ct (db w)) w))
  ∨ (∃ c, cache w !! FSWriter._key path = None
      ∧ fs (db w) !! path = Some c
      ∧ e = row_of path (Db.or_cols ct c)
      ∧ w' = set_cache (<[FSWriter._key path := e]> (cache w))
               (set_db (Db.update_fs path ct (db w)) w)).
Proof.
  intros H. destruct (cache w !! FSWriter._key path) as [e0|] eqn:Hc.
  - destruct (ContentTypes.contains (Fs.content_types e0) ct) eqn:Hct.
    + rewrite (_update_hit _ _ _ _ Hc Hct) in H. simplify_eq.
      left. split_and!; [done..|].
      unfold ContentTypes.contains in Hct. by apply bool_decide_eq_true in Hct.
    + rewrite (_update_widen _ _ _ _ Hc Hct) in H. simplify_eq.
      right; left. eauto.
  - rewrite (_update_uncached _ _ _ Hc) in H.
    destruct (fs (db w) !! path) as [c|] eqn:Hf; [|done].
    simpl in H. simplify_eq. right; right. eauto.
Qed.

(** ** Invariants of the writer *)

(** A property of the world kept by the three ways the writer touches it
    (caching a row of the store, creating an entry, updating the content
    types of one) is kept by its methods. *)
Section invariant.
Variable I : world → Prop.
Hypothesis I_cache_row : ∀ w p c,
  I w → fs (db w) !! p = Some c →
  I (set_cache (<[FSWriter._key p := row_of p c]> (cache w)) w).
Hypothesis I_create : ∀ w p pid ty ct e w',
  I w → FSWriter._create p pid ty ct w = Ok e w' → I w'.
Hypothesis I_update : ∀ w p ct e w',
  I w → FSWriter._update p ct w = Ok e w' → I w'.

Lemma absorb_fetched_inv rows : ∀ anc miss w res w',
  (∀ r, r ∈ rows →
     ∃ c, fs (db w) !! Fs.path r = Some c ∧ r = row_of (Fs.path r) c) →
  I w → FSWriter.absorb_fetched rows anc miss w = Ok res w' → I w'.
Proof.
  induction rows as [|r rows IH]; intros anc miss w res w' Hrows HI H.
  - simpl in H. unfold_M. by simplify_eq.
  - simpl in H. apply bind_Ok in H as (? & w1 & H1 & H).
    unfold_M. simplify_eq.
    destruct (list_remove (Fs.path r) miss) as [miss1|]; [|done].
    destruct (Hrows r) as (c & Hc & Hr); [left|].
    eapply IH; [| |exact H].
    + intros r' Hr'. apply Hrows. by right.
    + rewrite Hr at 2. by apply I_cache_row.
Qed.

Lemma _get_chain_inv self w res w' :
  I w → FSWriter._get_chain self w = Ok res w' → I w'.
Proof.
  intros HI H. unfold FSWriter._get_chain in H.
  destruct (FSWriter.cached_prefix _ _) as [anc miss].
  case_bool_decide; [by simplify_eq|].
  apply bind_Ok in H as (rows & w1 & H1 & H). unfold_M. simplify_eq.
  eapply absorb_fetched_inv; [|done|exact H].
  intros r Hr. by apply elem_of_select in Hr as (_ & ?).
Qed.

Lemma create_missing_inv self ms : ∀ last w res w',
  I w → FSWriter.create_missing self ms last w = Ok res w' → I w'.
Proof.
  induction ms as [|m ms IH]; intros last w res w' HI H; simpl in H.
  - unfold_M. by simplify_eq.
  - apply bind_Ok in H as (e & w1 & H1 & H).
    eapply IH; [|exact H]. by eapply I_create.
Qed.

Lemma write_inv self w res w' :
  I w → FSWriter.write self w = Ok res w' → I w'.
Proof.
  intros HI H. unfold FSWriter.write in H.
  apply bind_Ok in H as ([found ms] & w1 & H1 & H).
  apply bind_Ok in H as (l & w2 & H2 & H).
  apply bind_Ok in H as ([] & w3 & H3 & H).
  assert (I w1) as HI1 by by eapply _get_chain_inv.
  assert (I w2) as HI2 by by eapply create_missing_inv.
  assert (I w3) as HI3.
  { destruct (_ && _).
    - apply bind_Ok in H3 as (e & w3' & H3 & H3'). unfold_M.
      simplify_eq. by eapply I_update.
    - unfold_M. by simplify_eq. }
  case_bool_decide.
  - apply bind_Ok in H as (e & w4 & H4 & H). unfold_M. simplify_eq.
    by eapply I_update.
  - unfold_M. by simplify_eq.
Qed.
End invariant.

Ltac update_cases H :=
  apply _update_Ok_inv in H
    as [(-> & ? & ?)|[(? & ? & -> & ->)|(? & ? & ? & -> & ->)]].

Lemma write_has_row p self w res w' :
  has_row p w → FSWriter.write self w = Ok res w' → has_row p w'.
Proof.
  apply (write_inv (has_row p)); unfold has_row.
  - done.
  - intros w0 q pid ty ct e w1 Hp H. rewrite _create_Ok in H.
    simplify_eq. simpl. rewrite fs_replace_fs.
    apply lookup_insert_is_Some'. by right.
  - intros w0 q ct e w1 Hp H. update_cases H; simpl; [done|..];
      by apply lookup_alter_is_Some.
Qed.

Lemma write_is_cached p self w res w' :
  is_cached p w → FSWriter.write self w = Ok res w' → is_cached p w'.
Proof.
  apply (write_inv (is_cached p)); unfold is_cached.
  - intros w0 q c Hp _. simpl. apply lookup_insert_is_Some'. by right.
  - intros w0 q pid ty ct e w1 Hp H. rewrite _create_Ok in H.
    simplify_eq. simpl. apply lookup_insert_is_Some'. by right.
  - intros w0 q ct e w1 Hp H. update_cases H; simpl; [done|..];
      apply lookup_insert_is_Some'; by right.
Qed.

(** Agreement of the cache with the store is an invariant, for any
    relation that holds between a row and the entry read from it and that
    is kept when the same bits are set on both sides. *)
Section agreement.
Variable R : Fs.entry → fs_cols → Prop.
Hypothesis R_row : ∀ p c, R (row_of p c) c.
Hypothesis R_or : ∀ e c bits,
  R e c → R (Fs.or_content_types bits e) (Db.or_cols bits c).

Lemma agrees_cache_row p w q c :
  agrees R p w → fs (db w) !! q = Some c →
  agrees R p (set_cache (<[FSWriter._key q := row_of q c]> (cache w)) w).
Proof.
  intros Hp Hq e. simpl. destruct (decide (q = p)) as [->|Hne].
  - rewrite lookup_insert_eq. intros [= <-]. eauto.
  - rewrite lookup_insert_ne by by apply _key_ne. apply Hp.
Qed.

Lemma agrees_create p w q pid ty ct e w' :
  agrees R p w → FSWriter._create q pid ty ct w = Ok e w' → agrees R p w'.
Proof.
  intros Hp H. rewrite _create_Ok in H. simplify_eq.
  intros e. simpl. rewrite fs_replace_fs.
  destruct (decide (q = p)) as [->|Hne].
  - rewrite !lookup_insert_eq. intros [= <-]. eauto.
  - rewrite !lookup_insert_ne by (done || by apply _key_ne). apply Hp.
Qed.

Lemma agrees_update p w q ct e w' :
  agrees R p w → FSWriter._update q ct w = Ok e w' → agrees R p w'.
Proof.
  intros Hp H. update_cases H; [done|..]; intros e'; simpl;
    (destruct (decide (q = p)) as [->|Hne];
     [rewrite lookup_insert_eq, lookup_alter_eq; intros [= <-]
     |rewrite lookup_insert_ne, lookup_alter_ne
        by (done || by apply _key_ne); apply Hp]).
  - destruct (Hp _ H) as (c & -> & HR). simpl. eauto.
  - rewrite H0. simpl. eauto.
Qed.

Lemma write_agrees p self w res w' :
  agrees R p w → FSWriter.write self w = Ok res w' → agrees R p w'.
Proof.
  apply (write_inv (agrees R p)).
  - intros. by apply agrees_cache_row.
  - intros. by eapply agrees_create.
  - intros. by eapply agrees_update.
Qed.
End agreement.

Lemma land_lor_same a b : Z.land (Z.lor a b) b = b.
Proof.
  apply Z.bits_inj'. intros n Hn.
  rewrite Z.land_spec, Z.lor_spec. destruct (Z.testbit a n), (Z.testbit b n); done.
Qed.

Lemma land_lor_mono c e b :
  Z.land c e = e → Z.land (Z.lor c b) (Z.lor e b) = Z.lor e b.
Proof.
  intros H. apply Z.bits_inj'. intros n Hn.
  apply (f_equal (λ z, Z.testbit z n)) in H.
  rewrite Z.land_spec in H. rewrite Z.land_spec, !Z.lor_spec.
  destruct (Z.testbit c n), (Z.testbit e n), (Z.testbit b n); done.
Qed.

Lemma land_lor_keep c b bits : Z.land c b = b → Z.land (Z.lor c bits) b = b.
Proof.
  intros H. apply Z.bits_inj'. intros n Hn.
  apply (f_equal (λ z, Z.testbit z n)) in H.
  rewrite Z.land_spec in H. rewrite Z.land_spec, !Z.lor_spec.
  destruct (Z.testbit c n), (Z.testbit b n), (Z.testbit bits n); done.
Qed.

Lemma land_trans c e b : Z.land c e = e → Z.land e b = b → Z.land c b = b.
Proof.
  intros H1 H2. apply Z.bits_inj'. intros n Hn.
  apply (f_equal (λ z, Z.testbit z n)) in H1, H2.
  rewrite Z.land_spec in H1, H2. rewrite Z.land_spec.
  destruct (Z.testbit c n), (Z.testbit e n), (Z.testbit b n); done.
Qed.

Lemma write_cache_backed p self w res w' :
  cache_backed p w → FSWriter.write self w = Ok res w' → cache_backed p w'.
Proof. by apply write_agrees. Qed.

Lemma write_cache_within p self w res w' :
  cache_within p w → FSWriter.write self w = Ok res w' → cache_within p w'.
Proof.
  apply write_agrees.
  - intros q c. simpl. apply Z.land_diag.
  - intros e c bits. simpl. apply land_lor_mono.
Qed.

Lemma has_row_create p w q pid ty ct e w' :
  has_row p w → FSWriter._create q pid ty ct w = Ok e w' → has_row p w'.
Proof.
  unfold has_row. intros Hp H. rewrite _create_Ok in H.
  simplify_eq. simpl. rewrite fs_replace_fs.
  apply lookup_insert_is_Some'. by right.
Qed.

Lemma has_row_update p w q ct e w' :
  has_row p w → FSWriter._update q ct w = Ok e w' → has_row p w'.
Proof.
  unfold has_row. intros Hp H.
  update_cases H; simpl; [done|..]; by apply lookup_alter_is_Some.
Qed.

Lemma is_cached_create p w q pid ty ct e w' :
  is_cached p w → FSWriter._create q pid ty ct w = Ok e w' → is_cached p w'.
Proof.
  unfold is_cached. intros Hp H. rewrite _create_Ok in H.
  simplify_eq. simpl. apply lookup_insert_is_Some'. by right.
Qed.

Lemma is_cached_update p w q ct e w' :
  is_cached p w → FSWriter._update q ct w = Ok e w' → is_cached p w'.
Proof.
  unfold is_cached. intros Hp H.
  update_cases H; simpl; [done|..]; apply lookup_insert_is_Some'; by right.
Qed.

(** ** The chain of the writer *)

Lemma cached_prefix_spec c chain : ∀ anc miss,
  FSWriter.cached_prefix c chain = (anc, miss) →
  ∃ pre, chain = pre ++ miss
         ∧ ∀ a, a ∈ pre → is_Some (c !! FSWriter._key a).
Proof.
  induction chain as [|p chain IH]; intros anc miss H; simpl in H.
  - simplify_eq. exists []. split; [done|]. by intros a ?%elem_of_nil.
  - destruct (c !! FSWriter._key p) as [e|] eqn:Hc.
    + destruct (FSWriter.cached_prefix c chain) as [anc0 miss0].
      simplify_eq. destruct (IH _ _ eq_refl) as (pre & -> & Hpre).
      exists (p :: pre). split; [done|].
      intros a [->|Ha]%elem_of_cons; [by rewrite Hc|auto].
    + simplify_eq. exists []. split; [done|]. by intros a ?%elem_of_nil.
Qed.

Lemma absorb_fetched_spec rows : ∀ anc miss w anc' miss' w',
  FSWriter.absorb_fetched rows anc miss w = Ok (anc', miss') w' →
  db w' = db w
  ∧ anc' = anc ++ rows
  ∧ (∀ a, a ∈ miss → a ∈ miss' ∨ a ∈ Fs.path <$> rows)
  ∧ (∀ a, a ∈ miss' → a ∈ miss)
  ∧ (∀ z, last miss = Some z → last miss' = Some z ∨ z ∉ miss')
  ∧ (∀ p, is_cached p w → is_cached p w')
  ∧ (∀ r, r ∈ rows → is_cached (Fs.path r) w').
Proof.
  induction rows as [|r rows IH]; intros anc miss w anc' miss' w' H.
  - simpl in H. unfold_M. simplify_eq. rewrite app_nil_r.
    split_and!; auto. by intros r ?%elem_of_nil.
  - simpl in H. apply bind_Ok in H as (? & w1 & H1 & H).
    unfold_M. simplify_eq.
    destruct (list_remove (Fs.path r) miss) as [miss1|] eqn:Hrm; [|done].
    destruct (list_remove_Some _ _ _ Hrm) as (_ & Hin & Hsub).
    apply IH in H as (Hdb & -> & Hcov & Hsub' & Hlast & Hmono & Hrows).
    assert (∀ p, is_cached p w →
              is_cached p (set_cache (<[FSWriter._key (Fs.path r) := r]>
                                        (cache w)) w)) as Hstep.
    { intros p Hp. unfold is_cached. simpl.
      apply lookup_insert_is_Some'. by right. }
    split_and!.
    + done.
    + by rewrite <- app_assoc.
    + intros a Ha. destruct (Hin a Ha) as [->|Ha1].
      * right. rewrite fmap_cons. left.
      * destruct (Hcov a Ha1) as [?|?]; [by left|right].
        rewrite fmap_cons. by right.
    + auto.
    + intros z Hz.
      destruct (list_remove_last _ _ _ _ Hrm Hz) as [Hz1|Hz1]; [auto|].
      right. intros Hz'. apply Hz1. auto.
    + auto.
    + intros r' [->|Hr']%elem_of_cons; [|auto].
      apply Hmono. unfold is_cached. simpl. by rewrite lookup_insert_eq.
Qed.

Lemma absorb_fetched_total rows : ∀ anc miss w,
  NoDup (Fs.path <$> rows) →
  (∀ r, r ∈ rows → Fs.path r ∈ miss) →
  ∃ res w', FSWriter.absorb_fetched rows anc miss w = Ok res w'.
Proof.
  induction rows as [|r rows IH]; intros anc miss w Hnd Hin; simpl.
  - unfold_M. eauto.
  - unfold_M.
    destruct (list_remove_elem_of (Fs.path r) miss) as [miss1 Hrm].
    { apply Hin. left. }
    rewrite Hrm. rewrite fmap_cons in Hnd. apply NoDup_cons in Hnd as [Hr Hnd].
    apply IH; [done|]. intros r' Hr'.
    destruct (list_remove_Some _ _ _ Hrm) as (_ & Hin1 & _).
    destruct (Hin1 (Fs.path r')) as [Heq|?]; [apply Hin; by right| |done].
    exfalso. apply Hr. rewrite <- Heq. by apply list_elem_of_fmap_2.
Qed.

(** What [_get_chain] returns: the store is only read, every path of the
    chain is either left missing or was found, in cache or in the store,
    and the last path of the chain is the last one missing unless it was
    found. *)
Lemma _get_chain_spec self w found missing w' :
  FSWriter._get_chain self w = Ok (found, missing) w' →
  db w' = db w
  ∧ (∀ a, a ∈ ancestors_of (FSWriter._path self) →
          a ∈ missing ∨ is_cached a w ∨ (has_row a w ∧ is_cached a w'))
  ∧ (∀ a, a ∈ missing → a ∈ ancestors_of (FSWriter._path self))
  ∧ (∀ z, last (ancestors_of (FSWriter._path self)) = Some z →
          last missing = Some z ∨ z ∉ missing)
  ∧ (∀ p, is_cached p w → is_cached p w').
Proof.
  intros H. unfold FSWriter._get_chain in H.
  destruct (FSWriter.cached_prefix _ _) as [anc miss] eqn:Hcp.
  destruct (cached_prefix_spec _ _ _ _ Hcp) as (pre & Hchain & Hpre).
  case_bool_decide as Hm.
  - simplify_eq. rewrite Hchain, app_nil_r. split_and!; auto.
    + intros a Ha. right; left. by apply Hpre.
    + by intros a ?%elem_of_nil.
    + intros z _. right. apply not_elem_of_nil.
  - apply bind_Ok in H as (rows & w1 & H1 & H). unfold_M. simplify_eq.
    apply absorb_fetched_spec in H
      as (Hdb & _ & Hcov & Hsub & Hlast & Hmono & Hrows).
    rewrite Hchain. split_and!; auto.
    + intros a [Ha|Ha]%elem_of_app; [right; left; by apply Hpre|].
      destruct (Hcov a Ha) as [?|(r & -> & Hr)%list_elem_of_fmap]; [by left|].
      right; right. split; [|auto].
      apply elem_of_select in Hr as (_ & c & Hc & _). by exists c.
    + intros a Ha. apply elem_of_app. right. auto.
    + intros z Hz. apply Hlast. rewrite last_app in Hz.
      destruct (last miss) eqn:Hl; [done|].
      by apply last_None in Hl.
Qed.

Lemma _get_chain_total self w :
  ∃ res w', FSWriter._get_chain self w = Ok res w'.
Proof.
  unfold FSWriter._get_chain.
  destruct (FSWriter.cached_prefix _ _) as [anc miss].
  case_bool_decide; [eauto|]. unfold_M.
  apply absorb_fetched_total; [apply NoDup_select|].
  intros r Hr. by apply elem_of_select in Hr as (? & _).
Qed.

(** What the loop of [write] leaves: a row for each path it was given,
    and as [last] the entry of the last of them. *)
Lemma create_missing_spec self ms : ∀ lst w res w',
  FSWriter.create_missing self ms lst w = Ok res w' →
  (∀ m, m ∈ ms → has_row m w')
  ∧ match last ms with
    | Some m => ∃ e, res = FSWriter.Found e ∧ Fs.path e = m
    | None => res = lst
    end.
Proof.
  induction ms as [|m ms IH]; intros lst w res w' H; simpl in H.
  - unfold_M. simplify_eq. split; [by intros m ?%elem_of_nil|done].
  - apply bind_Ok in H as (e & w1 & H1 & H).
    pose proof H as H'. apply IH in H as [Hrows Hlast]. split.
    + intros m' [->|Hm']%elem_of_cons; [|auto].
      eapply (create_missing_inv (has_row m)); [..|exact H'].
      * intros. by eapply has_row_create.
      * rewrite _create_Ok in H1. simplify_eq. unfold has_row. simpl.
        rewrite fs_replace_fs, lookup_insert_eq. done.
    + destruct ms as [|m' ms].
      * simpl in *. subst res. rewrite _create_Ok in H1. simplify_eq.
        eauto.
      * rewrite last_cons_cons.
        destruct (last (m' :: ms)) eqn:E; [done|]. by apply last_None in E.
Qed.

Lemma create_missing_total self ms : ∀ lst w,
  ∃ res w', FSWriter.create_missing self ms lst w = Ok res w'.
Proof.
  induction ms as [|m ms IH]; intros lst w; simpl.
  - unfold_M. eauto.
  - unfold mbind, M_bind. rewrite _create_Ok. apply IH.
Qed.

(** ** Saving *)

Lemma for_each_inv {A} (I : world → Prop) (body : A → M unit) xs : ∀ w u w',
  (∀ x w u w', body x w = Ok u w' → I w → I w') →
  for_each xs body w = Ok u w' → I w → I w'.
Proof.
  induction xs as [|x xs IH]; intros w u w' Hbody H HI; simpl in H.
  - unfold_M. by simplify_eq.
  - apply bind_Ok in H as (? & w1 & H1 & H). eapply IH; [done|exact H|].
    by eapply Hbody.
Qed.

(** Storing the metadata of a node touches neither the [fs] table nor the
    cache. *)
Lemma _save_metadata_keeps self fs_id metadata w cleaned w' :
  Archive._save_metadata self fs_id metadata w = Ok cleaned w' →
  fs (db w') = fs (db w) ∧ cache w' = cache w.
Proof.
  unfold Archive._save_metadata. intros H.
  apply bind_Ok in H as ([] & w1 & H1 & H). unfold_M. simplify_eq.
  eapply (for_each_inv (λ w0, fs (db w0) = fs (db w) ∧ cache w0 = cache w));
    [|exact H1|done].
  intros [language section] w0 [] w0' Hsection HI.
  eapply (for_each_inv (λ w0, fs (db w0) = fs (db w) ∧ cache w0 = cache w));
    [|exact Hsection|done].
  intros [key value] w2 [] w2' Hrow HI2. by simplify_eq.
Qed.

(** [save] is the [write] of the node described by the data, followed by
    the storing of its metadata, which leaves the [fs] table alone. *)
Lemma save_writes self data w v w' :
  Archive.save self data w = Ok v w' →
  ∃ path ty ct saved w1,
    data !! Some "path" = Some (VStr path)
    ∧ data !! Some "type" = Some (VType ty)
    ∧ data !! Some "content_types" = Some (VInt ct)
    ∧ FSWriter.write (FSWriter.init path ty ct) w = Ok saved w1
    ∧ fs (db w') = fs (db w1).
Proof.
  unfold Archive.save. intros H.
  destruct (data !! Some "path") as [[| path | | |]|]; try done;
    destruct (data !! Some "type") as [[| | ty | |]|]; try done;
    destruct (data !! Some "content_types") as [[ct | | | |]|]; try done.
  apply bind_Ok in H as (saved & w1 & Hwrite & H).
  apply bind_Ok in H as (cleaned & w2 & Hmeta & H).
  apply _save_metadata_keeps in Hmeta as [Hfs _].
  destruct saved as [e|]; [|done]. unfold_M. simplify_eq.
  eauto 10.
Qed.

(** ** Ancestors after a write *)

Lemma write_ancestors_have_rows path ty ct w res w' :
  (∀ a, a ∈ ancestors_of path → cache_backed a w) →
  FSWriter.write (FSWriter.init path ty ct) w = Ok res w' →
  ∀ a, a ∈ ancestors_of path → has_row a w'.
Proof.
  intros Hbacked H a Ha. unfold FSWriter.write in H.
  apply bind_Ok in H as ([found ms] & w1 & H1 & H).
  apply bind_Ok in H as (l & w2 & H2 & H).
  assert (has_row a w2) as Ha2.
  { apply _get_chain_spec in H1 as (Hdb & Hcov & _).
    destruct (create_missing_spec _ _ _ _ _ _ H2) as [Hrows _].
    destruct (Hcov a Ha) as [Hm|Hfound]; [by apply Hrows|].
    eapply (create_missing_inv (has_row a)); [..|exact H2].
    { intros. by eapply has_row_create. }
    unfold has_row. rewrite Hdb.
    destruct Hfound as [[e He]|[? _]]; [|done].
    destruct (Hbacked a Ha e He) as (c & -> & _). done. }
  apply bind_Ok in H as ([] & w3 & H3 & H).
  assert (has_row a w3) as Ha3.
  { destruct (_ && _).
    - apply bind_Ok in H3 as (e & w3' & H3 & H3'). unfold_M.
      simplify_eq. by eapply has_row_update.
    - unfold_M. by simplify_eq. }
  case_bool_decide.
  - apply bind_Ok in H as (e & w4 & H4 & H). unfold_M. simplify_eq.
    by eapply has_row_update.
  - unfold_M. by simplify_eq.
Qed.

(** From a state in which every cache entry held for a path of the
    ancestor chain of [path] is backed by a row of the store, after
    [write], and so after [save], every ancestor of [path], the root
    included, has a row in the store. *)
Lemma write_materializes_ancestors path w :
  (∀ a, a ∈ ancestors_of path → cache_backed a w) →
  (∀ ty ct res w',
     FSWriter.write (FSWriter.init path ty ct) w = Ok res w' →
     ∀ a, a ∈ ancestors_of path → has_row a w')
  ∧ (∀ self data v w',
       data !! Some "path" = Some (VStr path) →
       Archive.save self data w = Ok v w' →
       ∀ a, a ∈ ancestors_of path → has_row a w').
Proof.
  intros Hbacked. split.
  - intros ty ct res w'. by apply write_ancestors_have_rows.
  - intros self data v w' Hpath Hsave a Ha.
    apply save_writes in Hsave
      as (path' & ty & ct & saved & w1 & Hp & _ & _ & Hwrite & Hfs).
    rewrite Hpath in Hp. injection Hp as <-.
    unfold has_row. rewrite Hfs.
    by eapply write_ancestors_have_rows.
Qed.

Lemma write_materializes_ancestors_witness :
  ∃ res w',
    FSWriter.write (FSWriter.init "a/b/c.txt" FILE_TYPE text_bits)
      empty_world = Ok res w'
    ∧ has_row "" w' ∧ has_row "a" w' ∧ has_row "a/b" w'
    ∧ has_row "a/b/c.txt" w'.
Proof.
  eexists _, _. split; [vm_compute; reflexivity|].
  split_and!;
    (eapply (proj1 (write_materializes_ancestors "a/b/c.txt" empty_world
                      ltac:(intros a _ e He; vm_compute in He;
                            discriminate)) FILE_TYPE text_bits);
     [vm_compute; reflexivity|by_evaluation]).
Defined.

(** In the world left by the write of ['a/b/c.txt'] followed by
    [clear], the cache still answers for the whole chain, so a second
    write completes without creating any row. *)
Lemma write_after_clear_leaves_no_ancestors :
  ∃ res w',
    FSWriter.write text_file cleared_world = Ok res w'
    ∧ "a/b" ∈ ancestors_of "a/b/c.txt"
    ∧ ¬ has_row "a/b" w' ∧ ¬ has_row "" w'.
Proof.
  eexists _, _. split; [vm_compute; reflexivity|].
  split_and!.
  - by_evaluation.
  - intros [c Hc]. vm_compute in Hc. discriminate.
  - intros [c Hc]. vm_compute in Hc. discriminate.
Qed.

(** ** The bits of the direct parent *)

Lemma row_contains_update p bits w q ct e w' :
  row_contains p bits w → FSWriter._update q ct w = Ok e w' →
  row_contains p bits w'.
Proof.
  intros (c & Hc & Hb) H. unfold row_contains.
  update_cases H; simpl; [by eauto|..];
    (destruct (decide (q = p)) as [->|Hne];
     [rewrite lookup_alter_eq, Hc; simpl; eexists; split; [done|];
      simpl; by apply land_lor_keep
     |rewrite lookup_alter_ne by done; eauto]).
Qed.

(** Creating a chain entry keeps the bits on the parent, and sets them
    when the entry is the parent of a file. *)
Lemma row_contains_create self w m pid e w' :
  FSWriter._type self = FILE_TYPE →
  row_contains (FSWriter._parent_path self) (FSWriter._content_types self) w
  ∨ m = FSWriter._parent_path self →
  FSWriter._create m pid (FSWriter._type self)
    (FSWriter.created_content_types self m) w = Ok e w' →
  row_contains (FSWriter._parent_path self) (FSWriter._content_types self) w'.
Proof.
  intros Hty Hor H. rewrite _create_Ok in H. simplify_eq.
  unfold row_contains. simpl. rewrite fs_replace_fs.
  destruct (decide (m = FSWriter._parent_path self)) as [->|Hne].
  - rewrite lookup_insert_eq. eexists. split; [done|]. simpl.
    unfold FSWriter.created_content_types.
    rewrite (bool_decide_eq_true_2 (_ = FSWriter._parent_path self)) by done.
    rewrite (bool_decide_eq_true_2 _ Hty), orb_true_r. simpl.
    apply land_lor_same.
  - rewrite lookup_insert_ne by done. by destruct Hor.
Qed.

Lemma row_contains_create_missing self ms : ∀ lst w res w',
  FSWriter._type self = FILE_TYPE →
  row_contains (FSWriter._parent_path self) (FSWriter._content_types self) w
  ∨ FSWriter._parent_path self ∈ ms →
  FSWriter.create_missing self ms lst w = Ok res w' →
  row_contains (FSWriter._parent_path self) (FSWriter._content_types self) w'.
Proof.
  induction ms as [|m ms IH]; intros lst w res w' Hty Hor H; simpl in H.
  - unfold_M. simplify_eq. destruct Hor as [?|?%elem_of_nil]; done.
  - apply bind_Ok in H as (e & w1 & H1 & H).
    eapply IH; [done| |exact H].
    destruct (decide (m = FSWriter._parent_path self)) as [Heq|Hne].
    + left. eapply row_contains_create; [done| |exact H1]. by right.
    + destruct Hor as [Hw|[?|Hin]%elem_of_cons]; [|done|by right].
      left. eapply row_contains_create; [done| |exact H1]. by left.
Qed.

Lemma write_file_parent_contains path ct w res w' :
  cache_within (PosixPath.dirname path) w →
  FSWriter.write (FSWriter.init path FILE_TYPE ct) w = Ok res w' →
  row_contains (PosixPath.dirname path) ct w'.
Proof.
  intros Hwithin H. unfold FSWriter.write in H.
  apply bind_Ok in H as ([found ms] & w1 & H1 & H).
  apply bind_Ok in H as (l & w2 & H2 & H).
  apply bind_Ok in H as ([] & w3 & H3 & H).
  assert (R_row : ∀ (p : string) c, Z.land (c_content_types c)
            (Fs.content_types (row_of p c)) = Fs.content_types (row_of p c)).
  { intros. simpl. apply Z.land_diag. }
  assert (R_or : ∀ e c bits,
            Z.land (c_content_types c) (Fs.content_types e)
            = Fs.content_types e →
            Z.land (c_content_types (Db.or_cols bits c))
              (Fs.content_types (Fs.or_content_types bits e))
            = Fs.content_types (Fs.or_content_types bits e)).
  { intros e c bits. simpl. apply land_lor_mono. }
  assert (cache_within (PosixPath.dirname path) w2) as Hwithin2.
  { eapply (create_missing_inv (cache_within (PosixPath.dirname path)));
      [| |exact H2].
    - intros. by eapply (agrees_create _ R_row).
    - eapply (_get_chain_inv (cache_within (PosixPath.dirname path)));
        [| |exact H1].
      + intros. by apply (agrees_cache_row _ R_row).
      + done. }
  assert (row_contains (PosixPath.dirname path) ct w3) as Hp3.
  { cbn [FSWriter._type FSWriter.init FSWriter._parent_path
         FSWriter._content_types] in H3.
    rewrite (bool_decide_eq_true_2 (FILE_TYPE = _)) in H3 by done.
    rewrite andb_true_r in H3.
    destruct (decide (PosixPath.dirname path ∉ ms)) as [Hin|Hin];
      [rewrite bool_decide_eq_true_2 in H3 by done
      |rewrite bool_decide_eq_false_2 in H3 by done].
    - apply bind_Ok in H3 as (e & w3' & H3 & H3'). unfold_M. simplify_eq.
      clear H. update_cases H3.
      + destruct (Hwithin2 _ H) as (c & Hc & Hce). exists c. split; [done|].
        by eapply land_trans.
      + destruct (Hwithin2 _ H) as (c & Hc & Hce). unfold row_contains.
        simpl. rewrite lookup_alter_eq, Hc. simpl. eexists. split; [done|].
        simpl. apply land_lor_same.
      + unfold row_contains. simpl. rewrite lookup_alter_eq, H0. simpl.
        eexists. split; [done|]. simpl. apply land_lor_same.
    - unfold_M. simplify_eq.
      eapply (row_contains_create_missing
                (FSWriter.init path FILE_TYPE ct)); [done| |exact H2].
      right. by apply dec_stable. }
  case_bool_decide.
  - apply bind_Ok in H as (e & w4 & H4 & H). unfold_M. simplify_eq.
    by eapply row_contains_update.
  - unfold_M. by simplify_eq.
Qed.

(** From a state in which the cache entry of the direct parent, if
    there is one, is backed by a row of the store holding at least its
    bits, after the [write] of a file with bits [ct], and so after its
    [save], the parent's stored content types contain [ct], whether the
    parent was there before or was created by this write. *)
Lemma write_file_widens_parent path ct w :
  cache_within (PosixPath.dirname path) w →
  (∀ res w',
     FSWriter.write (FSWriter.init path FILE_TYPE ct) w = Ok res w' →
     row_contains (PosixPath.dirname path) ct w')
  ∧ (∀ self data v w',
       data !! Some "path" = Some (VStr path) →
       data !! Some "type" = Some (VType FILE_TYPE) →
       data !! Some "content_types" = Some (VInt ct) →
       Archive.save self data w = Ok v w' →
       row_contains (PosixPath.dirname path) ct w').
Proof.
  intros Hwithin. split.
  - intros res w'. by apply write_file_parent_contains.
  - intros self data v w' Hpath Hty Hct Hsave.
    apply save_writes in Hsave
      as (path' & ty' & ct' & saved & w1 & Hp & Ht & Hc & Hwrite & Hfs).
    rewrite Hpath in Hp. rewrite Hty in Ht. rewrite Hct in Hc.
    simplify_eq. unfold row_contains. rewrite Hfs.
    by eapply write_file_parent_contains.
Qed.

Lemma write_file_widens_parent_witness :
  (∃ res w',
     FSWriter.write (FSWriter.init "a/b/c.txt" FILE_TYPE text_bits)
       empty_world = Ok res w'
     ∧ row_contains (PosixPath.dirname "a/b/c.txt") text_bits w')
  ∧ (has_row "a/b" world_with_parent
     ∧ ¬ row_contains "a/b" text_bits world_with_parent
     ∧ ∃ res w',
         FSWriter.write (FSWriter.init "a/b/c.txt" FILE_TYPE text_bits)
           world_with_parent = Ok res w'
         ∧ row_contains (PosixPath.dirname "a/b/c.txt") text_bits w').
Proof.
  split; [|split_and!].
  - eexists _, _. split; [vm_compute; reflexivity|].
    eapply (proj1 (write_file_widens_parent "a/b/c.txt" text_bits
                     empty_world
                     ltac:(intros e He; vm_compute in He; discriminate))).
    vm_compute. reflexivity.
  - by_evaluation.
  - intros (c & Hc & Hb). vm_compute in Hc. injection Hc as <-.
    vm_compute in Hb. discriminate.
  - eexists _, _. split; [vm_compute; reflexivity|].
    eapply (proj1 (write_file_widens_parent "a/b/c.txt" text_bits
                     world_with_parent _)).
    vm_compute. reflexivity.
    Unshelve.
    intros e He. vm_compute in He. injection He as <-.
    eexists. split; vm_compute; reflexivity.
Defined.

(** In the world left by the write of ['a/b/c.txt'] followed by
    [clear] the cache entry of the parent already holds the bits, the
    update is skipped, and the store has no row for the parent at all. *)
Lemma write_after_clear_leaves_parent_without_bits :
  ∃ res w',
    FSWriter.write text_file cleared_world = Ok res w'
    ∧ PosixPath.dirname "a/b/c.txt" = "a/b"
    ∧ ¬ row_contains "a/b" text_bits w'.
Proof.
  eexists _, _. split; [vm_compute; reflexivity|].
  split; [vm_compute; reflexivity|].
  intros (c & Hc & _). vm_compute in Hc. discriminate.
Qed.

(** ** The entries a write creates *)

(** The statements the loop of [write] hands to the store: one upsert per
    missing path, in the order of the chain, the first with the [id] of
    [last] as [parent_id], and every one of them with the type of the
    target. *)
Lemma create_missing_statements self ms : ∀ lst w res w',
  FSWriter.create_missing self ms lst w = Ok res w' →
  ∃ stmts,
    executed (db w') = executed (db w) ++ stmts
    ∧ Forall2 (λ m s, ∃ pid,
                 s = ReplaceFs m pid (FSWriter._type self)
                       (FSWriter.created_content_types self m))
              ms stmts
    ∧ (∀ m pid ty ct, head stmts = Some (ReplaceFs m pid ty ct) →
                      pid = FSWriter.node_id lst).
Proof.
  induction ms as [|m ms IH]; intros lst w res w' H; simpl in H.
  - unfold_M. simplify_eq. exists []. rewrite app_nil_r.
    split_and!; [done|constructor|done].
  - apply bind_Ok in H as (e & w1 & H1 & H).
    apply IH in H as (stmts & Hex & Hall & _).
    rewrite _create_Ok in H1. simplify_eq.
    eexists (_ :: stmts). split_and!.
    + rewrite Hex. simpl. unfold Db.replace_fs.
      destruct (fs (db w) !! m); simpl; by rewrite <- app_assoc.
    + constructor; [eauto|done].
    + by intros m' pid ty ct [= _ <- _ _].
Qed.

(** C2: on the empty world the write of the file ["/a/b/c.txt"] creates
    the four entries of the chain in ancestor-to-descendant order, each
    with the [id] of the one before as [parent_id], and every one of them,
    the three ancestors included, with the type of the target:
    [FILE_TYPE], where a directory is expected. *)
Theorem write_types_ancestors_as_target :
  ∃ res w',
    FSWriter.write (FSWriter.init "/a/b/c.txt" FILE_TYPE text_bits)
      empty_world = Ok res w'
    ∧ executed (db w')
      = [ReplaceFs "/" 0 FILE_TYPE 1; ReplaceFs "/a" 1 FILE_TYPE 1;
         ReplaceFs "/a/b" 2 FILE_TYPE 3; ReplaceFs "/a/b/c.txt" 3 FILE_TYPE 3]
    ∧ fs (db w') !! "/" = Some (FsCols 1 0 FILE_TYPE 1)
    ∧ fs (db w') !! "/a" = Some (FsCols 2 1 FILE_TYPE 1)
    ∧ fs (db w') !! "/a/b" = Some (FsCols 3 2 FILE_TYPE 3)
    ∧ fs (db w') !! "/a/b/c.txt" = Some (FsCols 4 3 FILE_TYPE 3).
Proof.
  eexists _, _. split; [vm_compute; reflexivity|].
  split_and!; vm_compute; reflexivity.
Qed.

(** C3, as amended: saving ["/a/b/c.txt"] as a file with the bit of TEXT
    on the empty world creates exactly four rows, the root with path
    ["/"], ["/a"], ["/a/b"] and ["/a/b/c.txt"]; the content types of
    ["/a/b"] contain the bits of TEXT and GENERIC, those of ["/a"] do not
    contain the bit of TEXT. *)
Theorem write_text_file_scenario :
  ∃ res w',
    FSWriter.write (FSWriter.init "/a/b/c.txt" FILE_TYPE text_bits)
      empty_world = Ok res w'
    ∧ dom (fs (db w')) = list_to_set ["/"; "/a"; "/a/b"; "/a/b/c.txt"]
    ∧ size (fs (db w')) = 4%nat
    ∧ row_contains "/a/b"
        (ContentTypes.to_bitmask [ContentTypes.TEXT; ContentTypes.GENERIC]) w'
    ∧ ¬ row_contains "/a" text_bits w'.
Proof.
  eexists _, _. split; [vm_compute; reflexivity|].
  split_and!.
  - vm_compute. reflexivity.
  - vm_compute. reflexivity.
  - eexists. split; vm_compute; reflexivity.
  - intros (c & Hc & Hb). vm_compute in Hc. injection Hc as <-.
    vm_compute in Hb. discriminate.
Qed.

(** C3, as stated, fails: the root row created for an absolute path has
    the path ["/"], and no row has the empty path. *)
Lemma write_text_file_root_is_slash :
  ∃ res w',
    FSWriter.write (FSWriter.init "/a/b/c.txt" FILE_TYPE text_bits)
      empty_world = Ok res w'
    ∧ ¬ has_row "" w' ∧ has_row "/" w'.
Proof.
  eexists _, _. split; [vm_compute; reflexivity|]. split.
  - intros [c Hc]. vm_compute in Hc. discriminate.
  - eexists. vm_compute. reflexivity.
Qed.

(** ** Updating twice *)

(** C5: a second [update] with the same path and bits right after a first
    one returns the same entry and leaves the world as it is, the store
    and the statements it was handed included: the cached entry already
    contains the bits. In any world, when the cached entry contains the
    requested bits, [update] returns it unchanged and writes nothing. *)
Theorem update_twice path ty ct w :
  (∀ e1 w1,
     FSWriter.update (FSWriter.init path ty ct) w = Ok e1 w1 →
     FSWriter.update (FSWriter.init path ty ct) w1 = Ok e1 w1)
  ∧ (∀ e,
       cache w !! FSWriter._key path = Some e →
       Z.land (Fs.content_types e) ct = ct →
       FSWriter.update (FSWriter.init path ty ct) w = Ok e w).
Proof.
  unfold FSWriter.update.
  cbn [FSWriter._path FSWriter._content_types FSWriter.init].
  assert (Hhit : ∀ w0 e, cache w0 !! FSWriter._key path = Some e →
            Z.land (Fs.content_types e) ct = ct →
            FSWriter._update path ct w0 = Ok e w0).
  { intros w0 e Hc Hb. apply _update_hit; [done|].
    unfold ContentTypes.contains. by apply bool_decide_eq_true. }
  split; [|by apply Hhit].
  intros e1 w1 H. update_cases H.
  - by apply Hhit.
  - apply Hhit; simpl; [by rewrite lookup_insert_eq|apply land_lor_same].
  - apply Hhit; simpl; [by rewrite lookup_insert_eq|apply land_lor_same].
Qed.

Lemma update_twice_witness :
  ∃ e1 w1,
    FSWriter.update (FSWriter.init "a" FILE_TYPE text_bits) world_with_a
    = Ok e1 w1
    ∧ FSWriter.update (FSWriter.init "a" FILE_TYPE text_bits) w1 = Ok e1 w1
    ∧ executed (db w1) = executed (db world_with_a) ++ [UpdateFs "a" 2].
Proof.
  eexists _, _. split; [vm_compute; reflexivity|]. split.
  - refine (proj1 (update_twice "a" FILE_TYPE text_bits world_with_a) _ _ _).
    vm_compute. reflexivity.
  - vm_compute. reflexivity.
Defined.

(** ** Paths *)

Lemma string_app_cons c a b : String c a +:+ b = String c (a +:+ b).
Proof. reflexivity. Qed.

Lemma string_app_nil_l b : "" +:+ b = b.
Proof. reflexivity. Qed.

Lemma string_length_app a b :
  String.length (a +:+ b) = (String.length a + String.length b)%nat.
Proof.
  induction a as [|c a IH]; [done|].
  rewrite string_app_cons. simpl. by rewrite IH.
Qed.

Lemma string_app_assoc a b c : (a +:+ b) +:+ c = a +:+ (b +:+ c).
Proof.
  induction a as [|x a IH]; [done|]. rewrite !string_app_cons. by rewrite IH.
Qed.

Lemma string_app_nil_r a : a +:+ "" = a.
Proof.
  induction a as [|x a IH]; [done|]. rewrite string_app_cons. by rewrite IH.
Qed.

Lemma split_not_nil s : PosixPath.split s ≠ [].
Proof.
  destruct s as [|c s]; simpl; [done|].
  destruct (Ascii.eqb c PosixPath.sep_char); [done|].
  by destruct (PosixPath.split s).
Qed.

Lemma join_cons_cons x y l :
  PosixPath.join (x :: y :: l) = x +:+ "/" +:+ PosixPath.join (y :: l).
Proof. done. Qed.

Lemma join_split s : PosixPath.join (PosixPath.split s) = s.
Proof.
  induction s as [|c s IH]; simpl; [done|].
  destruct (Ascii.eqb c PosixPath.sep_char) eqn:Hc.
  - apply Ascii.eqb_eq in Hc as ->.
    pose proof (split_not_nil s) as Hne.
    destruct (PosixPath.split s) as [|w ws]; [done|].
    rewrite join_cons_cons, IH. done.
  - pose proof (split_not_nil s) as Hne.
    destruct (PosixPath.split s) as [|w ws]; [done|].
    destruct ws as [|w' ws].
    + change (PosixPath.join [w]) with w in IH. by subst.
    + rewrite join_cons_cons in *. by rewrite string_app_cons, IH.
Qed.

Lemma join_app l1 l2 :
  l1 ≠ [] → l2 ≠ [] →
  PosixPath.join (l1 ++ l2)
  = PosixPath.join l1 +:+ "/" +:+ PosixPath.join l2.
Proof.
  intros H1 H2. induction l1 as [|x l1 IH]; [done|].
  destruct l1 as [|y l1].
  - destruct l2 as [|z l2]; [done|]. done.
  - change ((x :: y :: l1) ++ l2) with (x :: y :: (l1 ++ l2)).
    rewrite !join_cons_cons.
    change (y :: l1 ++ l2) with ((y :: l1) ++ l2). rewrite IH by done.
    by rewrite !string_app_assoc.
Qed.

Lemma join_head_not_empty x xs : x ≠ "" → PosixPath.join (x :: xs) ≠ "".
Proof. destruct xs; [done|]. rewrite join_cons_cons. by destruct x. Qed.

(** The first component of a path is empty exactly when the path is
    empty or starts with a separator. *)
Lemma split_head_relative n :
  n ≠ "" → PosixPath.startswith "/" n = false →
  ∃ x xs, PosixPath.split n = x :: xs ∧ x ≠ "".
Proof.
  destruct n as [|c n]; [done|]. intros _ Hrel. simpl.
  destruct (Ascii.eqb c PosixPath.sep_char) eqn:Hc.
  - apply Ascii.eqb_eq in Hc. subst c.
    unfold PosixPath.startswith in Hrel. simpl in Hrel. by destruct n.
  - destruct (PosixPath.split n) as [|w ws]; eauto.
Qed.

Lemma normpath_not_empty p : PosixPath.normpath p ≠ "".
Proof.
  unfold PosixPath.normpath. repeat case_bool_decide; done.
Qed.

(** The paths yielded by the loop of [ancestors_of] over the parts. *)
Lemma lookup_prefixes (f : nat → string) n i :
  (i < n)%nat → map f (seq 0 n) !! i = Some (f i).
Proof.
  intros Hi. change (map f (seq 0 n)) with (f <$> seq 0 n).
  rewrite list_lookup_fmap, lookup_seq_lt by done. done.
Qed.

Lemma last_prefixes (f : nat → string) n :
  last (map f (seq 0 (S n))) = Some (f n).
Proof.
  rewrite seq_S, map_app. change (map f [(0 + n)%nat]) with [f n].
  apply last_snoc.
Qed.

Lemma take_S_snoc {A} (l : list A) i x :
  l !! i = Some x → take (S i) l = take i l ++ [x].
Proof. intros H. by rewrite (take_S_r _ _ _ H). Qed.

Lemma last_ancestors_loop parts :
  parts ≠ [] → PosixPath.join parts ≠ "" →
  last (map (λ i,
             let joined := PosixPath.join (take (S i) parts) in
             if bool_decide (joined = "") then PosixPath.sep else joined)
            (seq 0 (length parts)))
  = Some (PosixPath.join parts).
Proof.
  intros Hne Hj. destruct (length parts) as [|k] eqn:Hlen.
  { by destruct parts. }
  rewrite last_prefixes. simpl. rewrite take_ge by lia.
  by rewrite bool_decide_eq_false_2.
Qed.

(** The last path yielded is the normalized path, or the empty root
    marker for the current directory. *)
Lemma ancestors_of_last p :
  last (ancestors_of p)
  = Some (if bool_decide (PosixPath.normpath p = ".") then ""
          else PosixPath.normpath p).
Proof.
  unfold ancestors_of. pose proof (normpath_not_empty p) as Hn.
  case_bool_decide as Hroot.
  { rewrite Hroot. by rewrite bool_decide_eq_false_2. }
  case_bool_decide as Hdot; [done|].
  rewrite last_app, last_ancestors_loop.
  - by rewrite join_split.
  - apply split_not_nil.
  - by rewrite join_split.
Qed.

Lemma split_head_absolute n :
  PosixPath.startswith "/" n = true →
  ∃ y ys, PosixPath.split n = "" :: y :: ys.
Proof.
  destruct n as [|c n]; [done|]. intros Habs. simpl.
  destruct (Ascii.eqb c PosixPath.sep_char) eqn:Hc.
  - pose proof (split_not_nil n) as Hne.
    destruct (PosixPath.split n) as [|y ys]; [done|]. eauto.
  - unfold PosixPath.startswith in Habs. cbn [String.prefix] in Habs.
    destruct (ascii_dec "/" c) as [<-|]; [|done].
    done.
Qed.

Lemma join_take_prefix parts k :
  (0 < k)%nat → parts ≠ [] →
  ∃ rest, PosixPath.join parts = PosixPath.join (take k parts) +:+ rest.
Proof.
  intros Hk Hne.
  replace (PosixPath.join parts)
    with (PosixPath.join (take k parts ++ drop k parts))
    by (by rewrite take_drop).
  destruct (drop k parts) as [|z zs] eqn:Hd.
  - exists "". by rewrite app_nil_r, string_app_nil_r.
  - exists ("/" +:+ PosixPath.join (z :: zs)).
    apply join_app; [|done].
    destruct parts; [done|]. destruct k; [lia|done].
Qed.

Lemma join_take_S parts k c :
  (0 < k)%nat → parts !! k = Some c →
  PosixPath.join (take (S k) parts)
  = PosixPath.join (take k parts) +:+ "/" +:+ c.
Proof.
  intros Hk Hc. rewrite (take_S_snoc _ _ _ Hc).
  rewrite join_app; [done| |done].
  destruct parts; [done|]. destruct k; [lia|done].
Qed.

(** C8, as amended: the sequence runs from the tree root to the
    normalized path inclusive, and it is given here in full. With [parts]
    the components of the normalized path between separators and
    [prefix k] the first [k] of them joined by separators: a path whose
    normal form is the absolute root yields only that; one whose normal
    form is ['.'] yields a single empty-string root marker; every other
    relative path yields the empty-string root marker first, followed by
    [prefix 1], [prefix 2] and so on to the prefix of all the parts, none
    of them empty; every other absolute path yields the root ['/'] first,
    followed by [prefix 2], [prefix 3] and so on to the prefix of all the
    parts. The prefix of all the parts is the normalized path, every
    prefix is an initial segment of the normalized path, and each prefix
    is the one before it followed by a separator and the next component,
    so each is strictly longer than the one before. The sequence ends
    with the normalized path itself (with the root marker for ['.']). *)
Theorem ancestors_of_shape p :
  let n := PosixPath.normpath p in
  let parts := PosixPath.split n in
  let prefix := λ k, PosixPath.join (take k parts) in
  (n = "/" → ancestors_of p = ["/"])
  ∧ (n = "." → ancestors_of p = [""])
  ∧ (n ≠ "/" → n ≠ "." → PosixPath.startswith "/" n = false →
     ancestors_of p
     = "" :: map (λ i, prefix (S i)) (seq 0 (length parts))
     ∧ ∀ k, (0 < k)%nat → prefix k ≠ "")
  ∧ (n ≠ "/" → PosixPath.startswith "/" n = true →
     ancestors_of p
     = "/" :: map (λ i, prefix (S (S i))) (seq 0 (length parts - 1))
     ∧ (1 < length parts)%nat)
  ∧ prefix (length parts) = n
  ∧ (∀ k, (0 < k)%nat → ∃ rest, n = prefix k +:+ rest)
  ∧ (∀ k c, (0 < k)%nat → parts !! k = Some c →
            prefix (S k) = prefix k +:+ "/" +:+ c
            ∧ (String.length (prefix k) < String.length (prefix (S k)))%nat)
  ∧ last (ancestors_of p) = Some (if bool_decide (n = ".") then "" else n).
Proof.
  intros n parts prefix. split_and!.
  - intros Hn. unfold ancestors_of. fold n. rewrite Hn. done.
  - intros Hn. unfold ancestors_of. fold n. rewrite Hn. done.
  - intros Hroot Hdot Hrel.
    destruct (split_head_relative n) as (x & xs & Hsplit & Hx);
      [apply normpath_not_empty|done|].
    assert (∀ k, (0 < k)%nat → prefix k ≠ "") as Hne.
    { intros k Hk. unfold prefix, parts. rewrite Hsplit.
      destruct k; [lia|]. simpl. by apply join_head_not_empty. }
    split; [|done].
    unfold ancestors_of. fold n. fold parts.
    rewrite !bool_decide_eq_false_2 by done.
    rewrite bool_decide_eq_false_2
      by (unfold parts; rewrite Hsplit; simpl; congruence).
    simpl. f_equal. apply map_ext. intros i.
    fold (prefix (S i)). rewrite bool_decide_eq_false_2; [done|].
    apply Hne. lia.
  - intros Hroot Habs.
    destruct (split_head_absolute n Habs) as (y & ys & Hsplit).
    split; [|unfold parts; rewrite Hsplit; simpl; lia].
    unfold ancestors_of. fold n. fold parts.
    rewrite bool_decide_eq_false_2 by done.
    rewrite bool_decide_eq_false_2
      by (intros Hdot; rewrite Hdot in Habs; done).
    rewrite bool_decide_eq_true_2
      by (unfold parts; by rewrite Hsplit).
    unfold prefix, parts. rewrite Hsplit.
    change (length ("" :: y :: ys)) with (S (length (y :: ys))).
    replace (S (length (y :: ys)) - 1)%nat with (length (y :: ys)) by lia.
    change (seq 0 (S (length (y :: ys))))
      with (0%nat :: seq 1 (length (y :: ys))).
    rewrite <- seq_shift. cbn [app map]. rewrite map_map. f_equal.
  - unfold prefix. rewrite firstn_all. apply join_split.
  - intros k Hk. unfold prefix. rewrite <- (join_split n). fold parts.
    apply join_take_prefix; [done|apply split_not_nil].
  - intros k c Hk Hc. unfold prefix.
    rewrite (join_take_S _ _ _ Hk Hc). split; [done|].
    rewrite !string_length_app. simpl. lia.
  - apply ancestors_of_last.
Qed.

Lemma ancestors_of_shape_witness :
  ancestors_of "/.." = ["/"]
  ∧ ancestors_of "a/.." = [""]
  ∧ ancestors_of "a/b/" = [""; "a"; "a/b"]
  ∧ ancestors_of "/a//b" = ["/"; "/a"; "/a/b"]
  ∧ ancestors_of "//a" = ["/"; "/"; "//a"].
Proof.
  pose proof (ancestors_of_shape "/..") as (H1 & _).
  pose proof (ancestors_of_shape "a/..") as (_ & H2 & _).
  pose proof (ancestors_of_shape "a/b/") as (_ & _ & H3 & _).
  pose proof (ancestors_of_shape "/a//b") as (_ & _ & _ & H4 & _).
  pose proof (ancestors_of_shape "//a") as (_ & _ & _ & H5 & _).
  split_and!.
  - apply H1. vm_compute. reflexivity.
  - apply H2. vm_compute. reflexivity.
  - destruct H3 as [H3 _].
    + vm_compute. discriminate.
    + vm_compute. discriminate.
    + vm_compute. reflexivity.
    + rewrite H3. vm_compute. reflexivity.
  - destruct H4 as [H4 _].
    + vm_compute. discriminate.
    + vm_compute. reflexivity.
    + rewrite H4. vm_compute. reflexivity.
  - destruct H5 as [H5 _].
    + vm_compute. discriminate.
    + vm_compute. reflexivity.
    + rewrite H5. vm_compute. reflexivity.
Defined.

(** C8, as stated, fails on a path that is not in normal form: the
    sequence of ["a/b/"] ends with ["a/b"], and the path itself is not in
    it. *)
Lemma ancestors_of_trailing_separator :
  ancestors_of "a/b/" = [""; "a"; "a/b"]
  ∧ PosixPath.startswith "/" "a/b/" = false
  ∧ last (ancestors_of "a/b/") ≠ Some "a/b/"
  ∧ "a/b/" ∉ ancestors_of "a/b/".
Proof.
  split_and!.
  - vm_compute. reflexivity.
  - vm_compute. reflexivity.
  - vm_compute. discriminate.
  - by_evaluation.
Qed.

(** ** The length of a normalized path *)

Lemma weight_app l1 l2 : weight (l1 ++ l2) = (weight l1 + weight l2)%nat.
Proof. unfold weight. by rewrite map_app, list_sum_app. Qed.

Lemma length_join l :
  l ≠ [] → S (String.length (PosixPath.join l)) = weight l.
Proof.
  induction l as [|x l IH]; [done|]. intros _. destruct l as [|y l].
  - change (PosixPath.join [x]) with x. unfold weight. simpl. lia.
  - rewrite join_cons_cons, !string_length_app.
    change (weight (x :: y :: l))
      with (S (String.length x) + weight (y :: l))%nat.
    rewrite <- IH by done. simpl. lia.
Qed.

Lemma weight_split p : weight (PosixPath.split p) = S (String.length p).
Proof.
  rewrite <- length_join by apply split_not_nil. by rewrite join_split.
Qed.

Lemma weight_removelast l : (weight (removelast l) ≤ weight l)%nat.
Proof.
  induction l as [|x l IH]; [done|]. destruct l as [|y l].
  - unfold weight. simpl. lia.
  - change (removelast (x :: y :: l)) with (x :: removelast (y :: l)).
    change (weight (x :: removelast (y :: l)))
      with (S (String.length x) + weight (removelast (y :: l)))%nat.
    change (weight (x :: y :: l))
      with (S (String.length x) + weight (y :: l))%nat.
    lia.
Qed.

Lemma weight_normpath_step k acc comp :
  (weight (PosixPath.normpath_step k acc comp)
   ≤ weight acc + weight_kept [comp])%nat.
Proof.
  unfold PosixPath.normpath_step, weight_kept. simpl.
  case_bool_decide as Hempty; simpl; [lia|].
  destruct (bool_decide (comp = ".")); simpl; [lia|].
  destruct (_ || _).
  - rewrite weight_app. unfold weight. simpl. lia.
  - pose proof (weight_removelast acc). lia.
Qed.

Lemma weight_normpath_fold k parts : ∀ acc,
  (weight (fold_left (PosixPath.normpath_step k) parts acc)
   ≤ weight acc + weight_kept parts)%nat.
Proof.
  induction parts as [|comp parts IH]; intros acc; simpl.
  - unfold weight_kept. simpl. lia.
  - etrans; [apply IH|].
    pose proof (weight_normpath_step k acc comp) as Hstep.
    unfold weight_kept in *. simpl in *. lia.
Qed.

(** Every kept leading separator of a path stands for an empty component,
    which [normpath] drops. *)
Lemma initial_slashes_bound p :
  (PosixPath.initial_slashes p + weight_kept (PosixPath.split p)
   ≤ weight (PosixPath.split p))%nat
  ∧ (PosixPath.initial_slashes p ≤ String.length p)%nat.
Proof.
  assert (Hle : ∀ l, (weight_kept l ≤ weight l)%nat).
  { induction l as [|x l IH]; [done|]. unfold weight_kept, weight in *.
    simpl. case_bool_decide; lia. }
  assert (Hsplit : ∀ s, PosixPath.split (String PosixPath.sep_char s)
                        = "" :: PosixPath.split s).
  { intros s. done. }
  assert (Hnil : ∀ s, String.prefix "" s = true) by (by intros []).
  assert (Hone : ∀ l, (1 + weight_kept ("" :: l) ≤ weight ("" :: l))%nat).
  { intros l. specialize (Hle l). unfold weight_kept, weight in *.
    simpl. lia. }
  assert (Htwo : ∀ n l, (n ≤ 2 → n + weight_kept ("" :: "" :: l)
                                   ≤ weight ("" :: "" :: l))%nat).
  { intros n l Hn. specialize (Hle l). unfold weight_kept, weight in *.
    simpl. lia. }
  unfold PosixPath.initial_slashes, PosixPath.startswith.
  destruct p as [|c p]; [simpl; split; [apply Hle|lia]|].
  cbn [String.prefix].
  destruct (ascii_dec "/" c) as [<-|Hc]; [|split; [apply Hle|lia]].
  rewrite Hsplit, Hnil.
  destruct p as [|c' p]; [split; [apply Hone|simpl; lia]|].
  cbn [String.prefix].
  destruct (ascii_dec "/" c') as [<-|Hc']; [|split; [apply Hone|simpl; lia]].
  rewrite Hsplit, Hnil. simpl andb.
  split; [apply Htwo|simpl]; destruct (negb _); lia.
Qed.

Lemma length_slashes k : String.length (PosixPath.slashes k) = k.
Proof. induction k as [|k IH]; simpl; [done|by rewrite IH]. Qed.

Lemma normpath_length p :
  p ≠ "" → (String.length (PosixPath.normpath p) ≤ String.length p)%nat.
Proof.
  intros Hp. unfold PosixPath.normpath.
  rewrite bool_decide_eq_false_2 by done.
  case_bool_decide as Hr.
  { destruct p; [done|]. simpl. lia. }
  rewrite string_length_app, length_slashes.
  destruct (initial_slashes_bound p) as [Hk Hk'].
  pose proof (weight_normpath_fold (PosixPath.initial_slashes p)
                (PosixPath.split p) []) as Hfold.
  rewrite weight_split in Hk.
  destruct (fold_left _ _ _) as [|x l] eqn:Hcomps.
  - simpl. lia.
  - pose proof (length_join (x :: l) ltac:(done)) as Hj.
    change (weight []) with 0%nat in Hfold. lia.
Qed.

(** A path that is in its own chain of ancestors is the last of it:
    normalizing never lengthens a path, so no proper prefix of the
    normalized path can be the path itself. *)
Lemma ancestors_of_self_last p :
  p ∈ ancestors_of p → last (ancestors_of p) = Some p.
Proof.
  rewrite ancestors_of_last. unfold ancestors_of.
  pose proof (normpath_length p) as Hlen.
  remember (PosixPath.normpath p) as n eqn:Hnp.
  case_bool_decide as Hroot.
  { intros Hp%list_elem_of_singleton. subst p.
    rewrite bool_decide_eq_false_2; [done|]. by rewrite Hroot. }
  case_bool_decide as Hdot.
  { by intros ->%list_elem_of_singleton. }
  assert (p ≠ "") as Hp.
  { intros ->. by apply Hdot. }
  intros [Hin|Hin]%elem_of_app.
  { case_bool_decide; [by apply elem_of_nil in Hin|].
    by apply list_elem_of_singleton in Hin. }
  apply (list_elem_of_fmap
           (λ i, let joined := PosixPath.join (take (S i) (PosixPath.split n))
                 in if bool_decide (joined = "") then PosixPath.sep
                    else joined)) in Hin as (i & Hpi & Hi).
  simpl in Hpi. case_bool_decide as Hj.
  { exfalso. subst p. by apply Hroot. }
  f_equal. pose proof (join_split n) as Hn.
  rewrite <- (take_drop (S i) (PosixPath.split n)) in Hn.
  destruct (drop (S i) (PosixPath.split n)) as [|z zs].
  { rewrite app_nil_r in Hn. congruence. }
  exfalso. rewrite join_app in Hn.
  - apply (f_equal String.length) in Hn.
    rewrite !string_length_app, <- Hpi in Hn.
    specialize (Hlen Hp). simpl in Hn. lia.
  - intros Ht. pose proof (split_not_nil n) as Hne.
    destruct (PosixPath.split n); [done|]. done.
  - done.
Qed.

(** ** The record a write returns *)

Lemma known_cache_row p w q c :
  known p w →
  known p (set_cache (<[FSWriter._key q := row_of q c]> (cache w)) w).
Proof.
  intros [Hc|Hr]; [left|by right]. unfold is_cached. simpl.
  apply lookup_insert_is_Some'. by right.
Qed.

Lemma known_create p w q pid ty ct e w' :
  known p w → FSWriter._create q pid ty ct w = Ok e w' → known p w'.
Proof.
  intros [Hc|Hr] H; [left; by eapply is_cached_create
                    |right; by eapply has_row_create].
Qed.

Lemma known_update p w q ct e w' :
  known p w → FSWriter._update q ct w = Ok e w' → known p w'.
Proof.
  intros [Hc|Hr] H; [left; by eapply is_cached_update
                    |right; by eapply has_row_update].
Qed.

Lemma _update_total p ct w :
  known p w → ∃ e w', FSWriter._update p ct w = Ok e w'.
Proof.
  intros Hk. destruct (cache w !! FSWriter._key p) as [e|] eqn:Hc.
  - destruct (ContentTypes.contains (Fs.content_types e) ct) eqn:Hct.
    + rewrite (_update_hit _ _ _ _ Hc Hct). eauto.
    + rewrite (_update_widen _ _ _ _ Hc Hct). eauto.
  - rewrite (_update_uncached _ _ _ Hc).
    destruct Hk as [[e He]|[c Hr]]; [unfold is_cached in *; congruence|].
    rewrite Hr. eauto.
Qed.

Lemma cache_keyed_cache_row p w q c :
  cache_keyed p w →
  cache_keyed p (set_cache (<[FSWriter._key q := row_of q c]> (cache w)) w).
Proof.
  intros Hp e. simpl. destruct (decide (q = p)) as [->|Hne].
  - rewrite lookup_insert_eq. by intros [= <-].
  - rewrite lookup_insert_ne by by apply _key_ne. apply Hp.
Qed.

Lemma cache_keyed_create p w q pid ty ct e w' :
  cache_keyed p w → FSWriter._create q pid ty ct w = Ok e w' →
  cache_keyed p w'.
Proof.
  intros Hp H. rewrite _create_Ok in H. simplify_eq.
  intros e. simpl. destruct (decide (q = p)) as [->|Hne].
  - rewrite lookup_insert_eq. by intros [= <-].
  - rewrite lookup_insert_ne by by apply _key_ne. apply Hp.
Qed.

Lemma cache_keyed_update p w q ct e w' :
  cache_keyed p w → FSWriter._update q ct w = Ok e w' → cache_keyed p w'.
Proof.
  intros Hp H. update_cases H; [done|..]; intros e'; simpl;
    (destruct (decide (q = p)) as [->|Hne];
     [rewrite lookup_insert_eq; intros [= <-]
     |rewrite lookup_insert_ne by (by apply _key_ne); apply Hp]).
  - simpl. by apply Hp.
  - done.
Qed.

(** Every cache entry is keyed by its own path in the empty world, and
    [write] keeps it so. *)
Lemma cache_keyed_empty p : cache_keyed p empty_world.
Proof. intros e He. simpl in He. by rewrite lookup_empty in He. Qed.

Lemma write_cache_keyed p self w res w' :
  cache_keyed p w → FSWriter.write self w = Ok res w' → cache_keyed p w'.
Proof.
  apply (write_inv (cache_keyed p)).
  - intros. by apply cache_keyed_cache_row.
  - intros. by eapply cache_keyed_create.
  - intros. by eapply cache_keyed_update.
Qed.

(** The entry [_update] returns is the cached one, which is keyed by its
    path, or the row just read for the path. *)
Lemma _update_path p ct w e w' :
  cache_keyed p w → FSWriter._update p ct w = Ok e w' → Fs.path e = p.
Proof.
  intros Hp H. update_cases H; [by apply Hp|simpl; by apply Hp|done].
Qed.

(** [write] returns a record of the target path itself, one
    whose [path] is the path given to the constructor, never that of an
    ancestor nor the default root; and it does return, whether the target
    is created by this write (it is in its own ancestor chain), was in
    cache or was only in the store, provided the parent of a file can be
    updated: it is in the chain, in cache or in the store. Cache entries
    are entries of the path they are keyed by. *)
Lemma write_returns_path path ty ct w :
  cache_keyed path w →
  (∀ res w',
     FSWriter.write (FSWriter.init path ty ct) w = Ok res w' →
     ∃ e, res = FSWriter.Found e ∧ Fs.path e = path)
  ∧ (path ∈ ancestors_of path ∨ is_cached path w ∨ has_row path w →
     (ty = FILE_TYPE →
      PosixPath.dirname path ∈ ancestors_of path
      ∨ is_cached (PosixPath.dirname path) w
      ∨ has_row (PosixPath.dirname path) w) →
     ∃ res w', FSWriter.write (FSWriter.init path ty ct) w = Ok res w').
Proof.
  intros Hkeyed. split.
  - intros res w' H. unfold FSWriter.write in H.
    apply bind_Ok in H as ([found ms] & w1 & H1 & H).
    apply bind_Ok in H as (l & w2 & H2 & H).
    apply bind_Ok in H as ([] & w3 & H3 & H).
    cbn [FSWriter._type FSWriter.init FSWriter._parent_path
         FSWriter._content_types FSWriter._path] in *.
    destruct (decide (path ∉ ms)) as [Hin|Hin];
      [rewrite bool_decide_eq_true_2 in H by done
      |rewrite bool_decide_eq_false_2 in H by done].
    + apply bind_Ok in H as (e & w4 & H4 & H). unfold_M. simplify_eq.
      exists e. split; [done|]. eapply _update_path; [|exact H4].
      assert (cache_keyed path w2) as Hk2.
      { eapply (create_missing_inv (cache_keyed path)); [| |exact H2].
        - intros. by eapply cache_keyed_create.
        - eapply (_get_chain_inv (cache_keyed path)); [| |exact H1].
          + intros. by apply cache_keyed_cache_row.
          + done. }
      destruct (_ && _).
      * apply bind_Ok in H3 as (e3 & w3' & H3 & H3'). unfold_M.
        simplify_eq. by eapply cache_keyed_update.
      * unfold_M. by simplify_eq.
    + unfold_M. simplify_eq. apply dec_stable in Hin.
      apply _get_chain_spec in H1 as (_ & _ & Hsub & Hlast & _).
      cbn [FSWriter._path FSWriter.init] in *.
      assert (last ms = Some path) as Hl.
      { destruct (Hlast path) as [Hl|Hl]; [|done..].
        apply ancestors_of_self_last. by apply Hsub. }
      apply create_missing_spec in H2 as [_ H2]. by rewrite Hl in H2.
  - intros Htarget Hparent. unfold FSWriter.write.
    destruct (_get_chain_total (FSWriter.init path ty ct) w)
      as ([found ms] & w1 & H1).
    destruct (create_missing_total (FSWriter.init path ty ct) ms
                (match last found with
                 | Some e => FSWriter.Found e
                 | None => FSWriter.DEFAULT_ROOT
                 end) w1) as (l & w2 & H2).
    assert (Hknown : ∀ p,
              p ∈ ancestors_of path ∨ is_cached p w ∨ has_row p w →
              p ∉ ms → known p w2).
    { intros p Hp Hnot.
      eapply (create_missing_inv (known p)); [| |exact H2].
      { intros. by eapply known_create. }
      pose proof (_get_chain_spec _ _ _ _ _ H1)
        as (Hdb & Hcov & _ & _ & Hmono).
      cbn [FSWriter._path FSWriter.init] in *.
      assert (is_cached p w ∨ has_row p w → known p w1) as Hw.
      { intros [?|Hr]; [left; auto|right]. unfold has_row in *.
        by rewrite Hdb. }
      destruct Hp as [Hp|Hp]; [|by apply Hw].
      destruct (Hcov p Hp) as [?|[?|[_ ?]]]; [done|apply Hw; by left|].
      by left. }
    rewrite (bind_Ok_eq _ _ _ _ _ H1). cbn beta iota.
    rewrite (bind_Ok_eq _ _ _ _ _ H2).
    cbn [FSWriter._type FSWriter.init FSWriter._parent_path
         FSWriter._content_types FSWriter._path].
    assert (∃ w3,
              (if bool_decide (PosixPath.dirname path ∉ ms)
                  && bool_decide (ty = FILE_TYPE)
               then FSWriter._update (PosixPath.dirname path) ct
                      ≫= λ _, mret ()
               else mret ()) w2 = Ok () w3
              ∧ (path ∉ ms → known path w3)) as (w3 & H3 & Hk3).
    { destruct (decide (PosixPath.dirname path ∉ ms)) as [Hin|Hin];
        [rewrite bool_decide_eq_true_2 by done
        |rewrite bool_decide_eq_false_2 by done].
      - destruct (decide (ty = FILE_TYPE)) as [Hty|Hty];
          [rewrite bool_decide_eq_true_2 by done
          |rewrite bool_decide_eq_false_2 by done]; simpl.
        + destruct (_update_total (PosixPath.dirname path) ct w2)
            as (e & w3 & H3); [by apply Hknown; auto|].
          exists w3. rewrite (bind_Ok_eq _ _ _ _ _ H3). split; [done|].
          intros Hnot. eapply known_update; [|exact H3]. by apply Hknown.
        + exists w2. split; [done|]. intros. by apply Hknown.
      - exists w2. split; [done|]. intros. by apply Hknown. }
    rewrite (bind_Ok_eq _ _ _ _ _ H3).
    destruct (decide (path ∉ ms)) as [Hin|Hin];
      [rewrite bool_decide_eq_true_2 by done
      |rewrite bool_decide_eq_false_2 by done].
    + destruct (_update_total path ct w3) as (e & w4 & H4); [auto|].
      rewrite (bind_Ok_eq _ _ _ _ _ H4). eauto.
    + eauto.
Qed.

(** ** Reconstruction of metadata views *)

Lemma groupby_cons row rest :
  Archive.groupby (row :: rest)
  = match Archive.groupby rest with
    | (key, (first, others)) :: groups =>
        if bool_decide (r_path row = key)
        then (key, (row, first :: others)) :: groups
        else (r_path row, (row, [])) :: (key, (first, others)) :: groups
    | [] => [(r_path row, (row, []))]
    end.
Proof. done. Qed.

(** The runs, laid end to end, are the input. *)
Lemma groupby_concat rows :
  concat (map (λ g, g.2.1 :: g.2.2) (Archive.groupby rows)) = rows.
Proof.
  induction rows as [|row rest IH]; [done|]. rewrite groupby_cons.
  destruct (Archive.groupby rest) as [|[key [first others]] groups].
  - simpl in *. by rewrite <- IH.
  - case_bool_decide; simpl in *; by rewrite <- IH.
Qed.

(** Every row of a run has the path the run is keyed by. *)
Lemma groupby_keys rows :
  Forall (λ g, Forall (λ r, r_path r = g.1) (g.2.1 :: g.2.2))
         (Archive.groupby rows).
Proof.
  induction rows as [|row rest IH]; [constructor|]. rewrite groupby_cons.
  destruct (Archive.groupby rest) as [|[key [first others]] groups].
  - repeat constructor.
  - apply Forall_cons in IH as [Hg IH]. simpl in Hg.
    case_bool_decide as Hk.
    + constructor; [|done]. simpl. by constructor.
    + constructor; [simpl; by repeat constructor|].
      constructor; [done|done].
Qed.

(** The head of the grouping is keyed by the path of the first row. *)
Lemma groupby_head row rest :
  ∃ run groups,
    Archive.groupby (row :: rest) = (r_path row, run) :: groups.
Proof.
  rewrite groupby_cons.
  destruct (Archive.groupby rest) as [|[key [first others]] groups].
  - eauto.
  - case_bool_decide as Hk; [rewrite <- Hk|]; eauto.
Qed.

(** Two runs next to each other have different paths: the runs are
    maximal. *)
Lemma groupby_adjacent rows : ∀ i g1 g2,
  Archive.groupby rows !! i = Some g1 →
  Archive.groupby rows !! S i = Some g2 → g1.1 ≠ g2.1.
Proof.
  induction rows as [|row rest IH]; intros i g1 g2; [done|].
  rewrite groupby_cons.
  destruct (Archive.groupby rest) as [|[key [first others]] groups].
  - by destruct i.
  - case_bool_decide as Hk.
    + destruct i as [|i]; simpl.
      * intros [= <-] H2. simpl. apply (IH 0%nat (key, (first, others)) g2);
          done.
      * intros H1 H2. by apply (IH (S i)).
    + destruct i as [|i]; simpl.
      * by intros [= <-] [= <-].
      * intros H1 H2. by apply (IH i).
Qed.

Lemma groupby_paths rows p :
  p ∈ (Archive.groupby rows).*1 ↔ p ∈ r_path <$> rows.
Proof.
  pose proof (groupby_concat rows) as Hc.
  pose proof (groupby_keys rows) as Hk.
  revert Hc Hk. generalize (Archive.groupby rows). intros gs <- Hk.
  induction gs as [|[k [r rs]] gs IH]; [done|].
  apply Forall_cons in Hk as [Hg Hk]. simpl in *.
  apply Forall_cons in Hg as [Hr Hrs].
  rewrite fmap_app, elem_of_cons, elem_of_cons, elem_of_app, (IH Hk).
  split; [intros [->|?]; auto|].
  intros [->|[Hin|?]]; [auto| |auto]. left.
  apply list_elem_of_fmap in Hin as (r' & -> & Hr').
  by eapply Forall_forall in Hrs.
Qed.

Lemma StronglySorted_strict_NoDup (l : list string) :
  StronglySorted (λ a b, String.le a b ∧ a ≠ b) l → NoDup l.
Proof.
  induction 1 as [|x l Hl IH Hx]; constructor; [|done].
  intros Hin. eapply Forall_forall in Hx as [_ Hne]; [|exact Hin]. done.
Qed.

(** On rows sorted by path the runs have pairwise different paths. *)
Lemma groupby_sorted rows :
  StronglySorted String.le (r_path <$> rows) →
  StronglySorted (λ a b, String.le a b ∧ a ≠ b) (Archive.groupby rows).*1.
Proof.
  induction rows as [|row rest IH]; [constructor|].
  rewrite fmap_cons. intros Hs. apply StronglySorted_inv in Hs as [Hs Hrow].
  specialize (IH Hs). rewrite groupby_cons.
  pose proof (groupby_paths rest) as Hpaths.
  destruct (Archive.groupby rest) as [|[key [first others]] groups].
  - repeat constructor.
  - case_bool_decide as Hk; [done|].
    rewrite fmap_cons. constructor; [done|].
    apply Forall_forall. intros k Hin.
    assert (∀ k', k' ∈ ((key, (first, others)) :: groups).*1 →
                  String.le (r_path row) k') as Hle.
    { intros k' Hk'. apply Hpaths in Hk'.
      by eapply Forall_forall in Hrow. }
    split; [by apply Hle|]. simpl. intros Heq.
    rewrite fmap_cons in Hin. apply elem_of_cons in Hin as [->|Hin]; [done|].
    rewrite fmap_cons in IH. apply StronglySorted_inv in IH as [_ Hkey].
    eapply Forall_forall in Hkey as [Hle' Hne]; [|exact Hin]. simpl in *.
    apply Hk. apply (anti_symm String.le); [|by rewrite Heq].
    apply Hle. left.
Qed.

Lemma add_row_not_keyed data row :
  keyed row = false → Archive.add_row data row = data.
Proof.
  unfold keyed, Archive.add_row. destruct (r_key row) as [key|]; [|done].
  by destruct (bool_decide (key = "")).
Qed.

(** Only the rows with a key leave a trace in the sections. *)
Lemma fold_add_row_keyed rows : ∀ data,
  fold_left Archive.add_row rows data
  = fold_left Archive.add_row (filter (λ r, keyed r) rows) data.
Proof.
  induction rows as [|row rows IH]; intros data; [done|].
  destruct (keyed row) eqn:Hk.
  - rewrite filter_cons_True by (by rewrite Hk). cbn [fold_left]. apply IH.
  - rewrite filter_cons_False by (rewrite Hk; exact id). cbn [fold_left].
    rewrite add_row_not_keyed by done. apply IH.
Qed.

(** A view carries the path of its run and the [fs] columns of the last
    row of the run, and under every other key the section gathered from
    the rows of the run that have a key. *)
Lemma view_of_spec path run :
  let row := default run.1 (last run.2) in
  let view := Archive.view_of path run in
  last (run_rows run) = Some row
  ∧ view !! Some "path" = Some (VStr path)
  ∧ view !! Some "id" = Some (VInt (r_id row))
  ∧ view !! Some "parent_id" = Some (VInt (r_parent_id row))
  ∧ view !! Some "type" = Some (VType (r_type row))
  ∧ view !! Some "content_types" = Some (VInt (r_content_types row))
  ∧ (∀ language, language ∉ fs_keys →
       view !! language
       = VSection <$> (fold_left Archive.add_row
                         (filter (λ r, keyed r) (run_rows run)) ∅
                       !! language)).
Proof.
  intros row view. split_and!.
  - unfold run_rows, row. destruct run as [first others]. simpl.
    rewrite last_cons. by destruct (last others).
  - unfold view, Archive.view_of. by simplify_map_eq.
  - unfold view, Archive.view_of. by simplify_map_eq.
  - unfold view, Archive.view_of. by simplify_map_eq.
  - unfold view, Archive.view_of. by simplify_map_eq.
  - unfold view, Archive.view_of. by simplify_map_eq.
  - intros language Hl. unfold view, Archive.view_of, fs_keys in *.
    rewrite !lookup_insert_ne by set_solver.
    rewrite lookup_fmap. by rewrite <- fold_add_row_keyed.
Qed.

Lemma _reconstruct_meta_eq rows :
  Archive._reconstruct_meta rows
  = map (λ g, Archive.view_of g.1 g.2) (Archive.groupby rows).
Proof.
  unfold Archive._reconstruct_meta, MetaWrapper.
  apply map_ext. by intros [path run].
Qed.

Lemma _reconstruct_meta_paths rows :
  Archive.attr_path <$> Archive._reconstruct_meta rows
  = Some <$> (Archive.groupby rows).*1.
Proof.
  rewrite _reconstruct_meta_eq.
  induction (Archive.groupby rows) as [|[path run] gs IH]; [done|].
  cbn [map fmap list_fmap fst snd] in *. f_equal; [|exact IH].
  unfold Archive.attr_path.
  by destruct (view_of_spec path run) as (_ & -> & _).
Qed.

(** C7: the reconstructor yields one view per maximal run of consecutive
    rows with the same path, in the order of the input, which it never
    re-sorts: the runs laid end to end are the input, every row of a run
    has the path of the run, neighbouring runs differ in path. Each view
    carries the path of its run and the [id], [parent_id], [type] and
    [content_types] of the last row of the run, whether or not that row
    has a key, and its language sections are built from the rows with a
    key only. On input sorted by path there is exactly one view per
    distinct path. *)
Theorem reconstruct_meta_views rows :
  let runs := Archive.groupby rows in
  Archive._reconstruct_meta rows = map (λ g, Archive.view_of g.1 g.2) runs
  ∧ Archive.attr_path <$> Archive._reconstruct_meta rows = Some <$> runs.*1
  ∧ concat (map (λ g, run_rows g.2) runs) = rows
  ∧ Forall (λ g, Forall (λ r, r_path r = g.1) (run_rows g.2)) runs
  ∧ (∀ i g1 g2, runs !! i = Some g1 → runs !! S i = Some g2 → g1.1 ≠ g2.1)
  ∧ (∀ g, g ∈ runs →
       ∃ row, last (run_rows g.2) = Some row
         ∧ Archive.view_of g.1 g.2 !! Some "path" = Some (VStr g.1)
         ∧ Archive.view_of g.1 g.2 !! Some "id" = Some (VInt (r_id row))
         ∧ Archive.view_of g.1 g.2 !! Some "parent_id"
           = Some (VInt (r_parent_id row))
         ∧ Archive.view_of g.1 g.2 !! Some "type" = Some (VType (r_type row))
         ∧ Archive.view_of g.1 g.2 !! Some "content_types"
           = Some (VInt (r_content_types row))
         ∧ ∀ language, language ∉ fs_keys →
             Archive.view_of g.1 g.2 !! language
             = VSection <$> (fold_left Archive.add_row
                               (filter (λ r, keyed r) (run_rows g.2)) ∅
                             !! language))
  ∧ (StronglySorted String.le (r_path <$> rows) →
     NoDup runs.*1 ∧ ∀ r, r ∈ rows → r_path r ∈ runs.*1).
Proof.
  intros runs. split_and!.
  - apply _reconstruct_meta_eq.
  - apply _reconstruct_meta_paths.
  - apply groupby_concat.
  - apply groupby_keys.
  - apply groupby_adjacent.
  - intros [path run] _. simpl.
    exists (default run.1 (last run.2)). apply view_of_spec.
  - intros Hsorted. split.
    + by apply StronglySorted_strict_NoDup, groupby_sorted.
    + intros r Hr. apply groupby_paths. by apply list_elem_of_fmap_2.
Qed.

Lemma reconstruct_meta_views_witness :
  StronglySorted String.le (r_path <$> sample_rows)
  ∧ NoDup (Archive.groupby sample_rows).*1
  ∧ (∀ r, r ∈ sample_rows → r_path r ∈ (Archive.groupby sample_rows).*1)
  ∧ Archive.attr_path <$> Archive._reconstruct_meta sample_rows
    = [Some "a"; Some "a/b"].
Proof.
  assert (StronglySorted String.le (r_path <$> sample_rows)) as Hsorted
    by by_evaluation.
  pose proof (reconstruct_meta_views sample_rows)
    as (_ & Hpaths & _ & _ & _ & _ & Hdistinct).
  destruct (Hdistinct Hsorted) as [Hnodup Hall].
  split_and!; [exact Hsorted|exact Hnodup|exact Hall|].
  rewrite Hpaths. vm_compute. reflexivity.
Defined.

(** ** Scanning *)

Lemma _scan_invalid self fuel kw w :
  (Archive.list_dir self (scan_target (kw_path kw))).1.1 = false →
  Archive._scan (S fuel) self kw w = Some (Ok [] w).
Proof.
  intros H. simpl. unfold scan_target in H.
  destruct (Archive.list_dir self _) as [[success dirs] files].
  simpl in H. by subst.
Qed.

Lemma scan_dirs_skip rec fso before : ∀ after partial maxdepth depth delay w,
  (∀ w', rec (ScanKwargs (Some (rel_path fso)) partial None maxdepth
                (S depth) delay) w' = Some (Ok [] w')) →
  Archive.scan_dirs rec (before ++ fso :: after) partial None maxdepth depth
    delay w
  = Archive.scan_dirs rec (before ++ after) partial None maxdepth depth
      delay w.
Proof.
  induction before as [|d before IH];
    intros after partial maxdepth depth delay w Hrec.
  - simpl. rewrite Hrec.
    by destruct (Archive.scan_dirs rec after partial None maxdepth depth
                   delay w) as [[]|].
  - simpl. destruct (rec _ w) as [[yielded w'|]|]; [|done..].
    by rewrite IH.
Qed.

(** C9: when the lister reports failure for the target of a scan, the
    scan of that target yields no batch, leaves the world as it is (no
    analysis, no callback, no task, no deeper scan) and ends without an
    error, in [_scan] and in [scan] alike. In the blocking scan of a
    folder, a subfolder that cannot be listed changes nothing for the
    others: the batches yielded and the world left are those of the same
    folder without that subfolder. *)
Theorem scan_invalid_target self fuel path :
  (Archive.list_dir self (scan_target path)).1.1 = false →
  (∀ kw w, kw_path kw = path →
     Archive._scan (S fuel) self kw w = Some (Ok [] w)
     ∧ Archive.scan (S fuel) self kw w = Some (Ok [] w))
  ∧ (∀ fso before after partial maxdepth depth delay w,
       path = Some (rel_path fso) →
       Archive.scan_dirs (Archive._scan (S fuel) self)
         (before ++ fso :: after) partial None maxdepth depth delay w
       = Archive.scan_dirs (Archive._scan (S fuel) self)
           (before ++ after) partial None maxdepth depth delay w).
Proof.
  intros Hfail.
  assert (∀ kw w, kw_path kw = path →
            Archive._scan (S fuel) self kw w = Some (Ok [] w)) as Hscan.
  { intros kw w Hkw. apply _scan_invalid. by rewrite Hkw. }
  split.
  - intros kw w Hkw. split; [|unfold Archive.scan]; by apply Hscan.
  - intros fso before after partial maxdepth depth delay w ->.
    apply scan_dirs_skip. intros w'. by apply Hscan.
Qed.

Lemma scan_invalid_target_witness :
  Archive.scan 1 sample_archive (blocking_scan (Some "bad") 1) empty_world
  = Some (Ok [] empty_world)
  ∧ Archive.scan_dirs (Archive._scan 1 sample_archive)
      [Fso "x"; Fso "bad"; Fso "y"] false None None 0 0 empty_world
    = Archive.scan_dirs (Archive._scan 1 sample_archive)
        [Fso "x"; Fso "y"] false None None 0 0 empty_world.
Proof.
  destruct (scan_invalid_target sample_archive 0 (Some "bad"))
    as [Hscan Hdirs].
  - vm_compute. reflexivity.
  - split.
    + apply Hscan. reflexivity.
    + apply (Hdirs (Fso "bad") [Fso "x"] [Fso "y"]). reflexivity.
Defined.

(** ** Batches *)

Lemma chunks_go_concat {A} batch_size (l : list A) : ∀ room cur,
  concat (Batched.chunks_go room batch_size cur l) = rev cur ++ l.
Proof.
  induction l as [|x l IH]; intros room cur; simpl.
  - destruct cur; simpl; by rewrite ?app_nil_r.
  - destruct room as [|room]; simpl; rewrite IH; simpl.
    + done.
    + by rewrite <- app_assoc.
Qed.

Lemma chunks_concat {A} batch_size (l : list A) :
  concat (Batched.chunks batch_size l) = l.
Proof. unfold Batched.chunks. by rewrite chunks_go_concat. Qed.

(** What the aggregated result of the batches holds, from what each batch
    returns: an upper bound of the keys, the keys exactly, and that there
    is a result at all. *)
Section batches.
Context (f : list string → M (gmap string pydict)).

Lemma run_batches_subseteq batches : ∀ acc w d w',
  (∀ b w d w', f b w = Ok d w' → dom d ⊆ list_to_set b) →
  Batched.run_batches f batches acc w = Ok d w' →
  dom d ⊆ list_to_set (concat batches) ∪ dom acc.
Proof.
  induction batches as [|b batches IH]; intros acc w d w' Hf H; simpl in H.
  - unfold_M. simplify_eq. set_solver.
  - apply bind_Ok in H as (r & w1 & Hr & H).
    apply IH in H; [|done]. apply Hf in Hr.
    simpl. rewrite list_to_set_app_L. rewrite dom_union_L in H. set_solver.
Qed.

Lemma run_batches_dom batches : ∀ acc w d w',
  (∀ b w d w', f b w = Ok d w' → dom d = list_to_set b) →
  Batched.run_batches f batches acc w = Ok d w' →
  dom d = list_to_set (concat batches) ∪ dom acc.
Proof.
  induction batches as [|b batches IH]; intros acc w d w' Hf H; simpl in H.
  - unfold_M. simplify_eq. set_solver.
  - apply bind_Ok in H as (r & w1 & Hr & H).
    apply IH in H; [|done]. apply Hf in Hr.
    simpl. rewrite list_to_set_app_L. rewrite dom_union_L in H. set_solver.
Qed.

Lemma run_batches_total batches : ∀ acc w,
  (∀ b w, ∃ d w', f b w = Ok d w') →
  ∃ d w', Batched.run_batches f batches acc w = Ok d w'.
Proof.
  induction batches as [|b batches IH]; intros acc w Hf; simpl.
  - unfold_M. eauto.
  - destruct (Hf b w) as (r & w1 & Hr). rewrite (bind_Ok_eq _ _ _ _ _ Hr).
    by apply IH.
Qed.

Lemma batched_subseteq n arg w d w' :
  (∀ b w d w', f b w = Ok d w' → dom d ⊆ list_to_set b) →
  Batched.batched n f arg w = Ok d w' → dom d ⊆ list_to_set arg.
Proof.
  intros Hf H. apply run_batches_subseteq in H; [|done].
  rewrite chunks_concat, dom_empty_L in H. set_solver.
Qed.

Lemma batched_dom n arg w d w' :
  (∀ b w d w', f b w = Ok d w' → dom d = list_to_set b) →
  Batched.batched n f arg w = Ok d w' → dom d = list_to_set arg.
Proof.
  intros Hf H. apply run_batches_dom in H; [|done].
  rewrite chunks_concat, dom_empty_L in H. set_solver.
Qed.

Lemma batched_total n arg w :
  (∀ b w, ∃ d w', f b w = Ok d w') →
  ∃ d w', Batched.batched n f arg w = Ok d w'.
Proof. apply run_batches_total. Qed.
End batches.

(** ** Analysis *)

Lemma run_processors_total procs path partial : ∀ data w,
  ∃ d w', Archive.run_processors procs path partial data w = Ok d w'.
Proof.
  induction procs as [|proc procs IH]; intros data w; simpl.
  - unfold_M. eauto.
  - destruct (is_entry_point proc path);
      unfold mbind, M_bind, Archive.events_publish, mret, M_mret; apply IH.
Qed.

Lemma analyze_each_spec self partial paths : ∀ w,
  ∃ d w', Archive.analyze_each self paths partial w = Ok d w'
          ∧ dom d = list_to_set paths.
Proof.
  induction paths as [|path paths IH]; intros w; simpl.
  - unfold_M. eexists _, _. split; [done|]. set_solver.
  - unfold Archive._analyze.
    destruct (run_processors_total (Archive.for_path self path) path
                partial ∅ w) as (data & w1 & H1).
    destruct (IH w1) as (d & w2 & H2 & Hd).
    exists (d ∪ {[path := MetaWrapper data]}), w2. split.
    + unfold mbind, M_bind, mret, M_mret in *. by rewrite H1, H2.
    + rewrite dom_union_L, dom_singleton_L, Hd. set_solver.
Qed.

(** The blocking [analyze] returns a dict with exactly the paths it was
    given as keys; with a callback it returns after scheduling. *)
Lemma analyze_blocking self paths partial w :
  ∃ d w', Archive.analyze self paths partial None w = Ok d w'
          ∧ dom d = list_to_set paths.
Proof.
  unfold Archive.analyze.
  destruct (batched_total (Archive.analyze_batch self partial None) 10
              paths w) as (d & w' & H).
  { intros b w0. destruct (analyze_each_spec self partial b w0)
      as (d & w' & H & _). eauto. }
  exists d, w'. split; [done|].
  eapply batched_dom; [|exact H].
  intros b w0 d0 w0' H0.
  destruct (analyze_each_spec self partial b w0) as (d1 & w1 & H1 & Hd).
  simpl in H0. congruence.
Qed.

Lemma analyze_scheduled self paths partial cb w :
  ∃ d w', Archive.analyze self paths partial (Some cb) w = Ok d w'.
Proof.
  unfold Archive.analyze. apply batched_total. intros b w0. simpl.
  unfold mbind, M_bind, Archive.tasks_schedule, mret, M_mret. eauto.
Qed.

(** ** Reading metadata *)

Lemma elem_of_concat {A} (x : A) (ls : list (list A)) :
  x ∈ concat ls ↔ ∃ l, x ∈ l ∧ l ∈ ls.
Proof.
  rewrite list_elem_of_In, in_concat. split.
  - intros (l & Hl & Hx). exists l. by rewrite !list_elem_of_In.
  - intros (l & Hx & Hl). exists l. by rewrite <- !list_elem_of_In.
Qed.

(** The paths of the rows the joined query returns: the requested paths
    that have a row in [fs], and, when a bitmask is given, whose content
    types contain it. *)
Lemma select_meta_paths paths bitmask d p :
  p ∈ r_path <$> Db_join.select_meta_in_order_by_path paths bitmask d ↔
  p ∈ paths
  ∧ ∃ c, fs d !! p = Some c
         ∧ match bitmask with
           | Some b => ContentTypes.contains (c_content_types c) b = true
           | None => True
           end.
Proof.
  unfold Db_join.select_meta_in_order_by_path.
  set (matching := omap _ (remove_dups paths)).
  assert (Hmatch : ∀ pc, pc ∈ matching ↔
            pc.1 ∈ paths ∧ fs d !! pc.1 = Some pc.2
            ∧ match bitmask with
              | Some b =>
                  ContentTypes.contains (c_content_types pc.2) b = true
              | None => True
              end).
  { intros [q c]. unfold matching. rewrite list_elem_of_omap. simpl. split.
    - intros (q' & Hq' & Hf). apply (proj1 (elem_of_remove_dups _ _)) in Hq'.
      destruct (fs d !! q') as [c'|] eqn:Hc'; [|done]. simpl in Hf.
      destruct bitmask as [b|].
      + destruct (ContentTypes.contains _ _) eqn:Hb; simplify_eq. done.
      + by simplify_eq.
    - intros (Hq & Hc & Hb). exists q. split.
      + by apply elem_of_remove_dups.
      + rewrite Hc. simpl. destruct bitmask; [by rewrite Hb|done]. }
  assert (Hrows : ∀ pc r, r ∈ Db_join.join_fs_row d pc → r_path r = pc.1).
  { intros pc r. unfold Db_join.join_fs_row.
    destruct (Db_join.meta_of _ _) as [|m ms].
    - by intros ->%list_elem_of_singleton.
    - by intros (m' & -> & _)%list_elem_of_fmap. }
  assert (Hne : ∀ pc, ∃ r, r ∈ Db_join.join_fs_row d pc).
  { intros pc. unfold Db_join.join_fs_row.
    destruct (Db_join.meta_of _ _) as [|m ms]; eexists; left. }
  rewrite list_elem_of_fmap. split.
  - intros (r & -> & Hr). apply elem_of_concat in Hr as (rs & Hr & Hrs).
    apply list_elem_of_fmap in Hrs as (pc & -> & Hpc).
    rewrite merge_sort_Permutation in Hpc. apply Hmatch in Hpc.
    rewrite (Hrows _ _ Hr). destruct Hpc as (? & ? & ?). eauto.
  - intros (Hp & c & Hc & Hb). destruct (Hne (p, c)) as [r Hr].
    exists r. split; [by rewrite (Hrows _ _ Hr)|].
    apply elem_of_concat. exists (Db_join.join_fs_row d (p, c)).
    split; [done|]. apply list_elem_of_fmap_2.
    rewrite merge_sort_Permutation. by apply Hmatch.
Qed.

Lemma dict_by_path_spec metas : ∀ paths w,
  Archive.attr_path <$> metas = Some <$> paths →
  ∃ d, Archive.dict_by_path metas w = Ok d w ∧ dom d = list_to_set paths.
Proof.
  induction metas as [|meta metas IH]; intros paths w H.
  - destruct paths; [|done]. simpl. unfold_M. eexists. split; [done|].
    set_solver.
  - destruct paths as [|p paths]; [done|]. rewrite !fmap_cons in H.
    injection H as Hp H. destruct (IH _ w H) as (d & Hd & Hdom).
    exists (d ∪ {[p := meta]}). simpl. rewrite Hp. split.
    + unfold mbind, M_bind, mret, M_mret. by rewrite Hd.
    + rewrite dom_union_L, dom_singleton_L, Hdom. set_solver.
Qed.

(** The first half of [get]: the views found in the store, keyed by
    path. *)
Lemma found_views paths bitmask w :
  ∃ data,
    Archive.dict_by_path
      (Archive._reconstruct_meta
         (Db_join.select_meta_in_order_by_path paths bitmask (db w))) w
    = Ok data w
    ∧ ∀ p, p ∈ dom data ↔
           p ∈ r_path <$> Db_join.select_meta_in_order_by_path paths bitmask
                            (db w).
Proof.
  destruct (dict_by_path_spec _ _ w (_reconstruct_meta_paths
              (Db_join.select_meta_in_order_by_path paths bitmask (db w))))
    as (data & H & Hdom).
  exists data. split; [done|]. intros p.
  rewrite Hdom, elem_of_list_to_set. apply groupby_paths.
Qed.

Lemma get_batch_found self content_type partial paths w :
  ∃ d, Archive.get_batch self content_type partial true paths w = Ok d w
       ∧ dom d ⊆ list_to_set paths.
Proof.
  unfold Archive.get_batch.
  set (paths' := match content_type with
                 | Some ct => Archive._keep_supported self paths ct
                 | None => paths
                 end).
  assert (∀ p, p ∈ paths' → p ∈ paths) as Hsub.
  { intros p. unfold paths'. destruct content_type; [|done].
    unfold Archive._keep_supported. rewrite list_elem_of_filter. tauto. }
  destruct (_ && _).
  { exists ∅. split; [done|]. set_solver. }
  set (bitmask := (λ ct, ContentTypes.to_bitmask [ct]) <$> content_type).
  destruct (found_views paths' bitmask w) as (data & Hdata & Hdom).
  exists data. split.
  - rewrite (bind_Ok_eq _ _ w _ w (eq_refl : db_fetchiter_join _ _ w = _)).
    by rewrite (bind_Ok_eq _ _ _ _ _ Hdata).
  - intros p Hp. apply Hdom, select_meta_paths in Hp as [Hp _].
    apply elem_of_list_to_set. auto.
Qed.

Lemma get_batch_all self partial paths w :
  (∀ d w', Archive.get_batch self None partial false paths w = Ok d w' →
           dom d = list_to_set paths)
  ∧ (partial = true →
     ∃ d w', Archive.get_batch self None partial false paths w = Ok d w').
Proof.
  unfold Archive.get_batch.
  rewrite (bool_decide_eq_false_2 (is_Some None)) by (by intros [? ?]).
  cbn [andb fmap option_fmap option_map].
  destruct (found_views paths None w) as (data & Hdata & Hdom).
  rewrite (bind_Ok_eq _ _ w _ w (eq_refl : db_fetchiter_join _ _ w = _)).
  rewrite (bind_Ok_eq _ _ _ _ _ Hdata).
  set (missing := filter (λ p, data !! p = None) (remove_dups paths)).
  assert (Hkeys : list_to_set missing ∪ dom data
                  = (list_to_set paths : gset string)).
  { apply set_eq. intros p.
    rewrite elem_of_union, !elem_of_list_to_set. unfold missing.
    rewrite list_elem_of_filter, elem_of_remove_dups. split.
    - intros [[_ ?]|Hp]; [done|].
      by apply Hdom, select_meta_paths in Hp as [Hp _].
    - intros Hp. destruct (data !! p) as [v|] eqn:Hv; [right|by left].
      apply elem_of_dom. by rewrite Hv. }
  case_bool_decide as Hmissing.
  { split; [|by eauto]. intros d w' H. unfold_M. simplify_eq.
    rewrite <- Hkeys, Hmissing. set_solver. }
  destruct partial.
  - destruct (analyze_scheduled self missing false SaveCallback w)
      as (d0 & w0 & H0).
    destruct (analyze_blocking self missing true w0) as (d1 & w1 & H1 & Hd1).
    rewrite !(bind_Ok_eq _ _ _ _ _ H0), !(bind_Ok_eq _ _ _ _ _ H1).
    split; [|by eauto]. intros d w' H. unfold_M. simplify_eq.
    by rewrite dom_union_L, Hd1.
  - destruct (analyze_blocking self missing false w) as (d1 & w1 & H1 & Hd1).
    rewrite !(bind_Ok_eq _ _ _ _ _ H1).
    split; [|done]. intros d w' H.
    apply bind_Ok in H as ([] & w2 & _ & H). unfold_M. simplify_eq.
    by rewrite dom_union_L, Hd1.
Qed.

(** C6, as stated, fails: when every requested path is stored,
    [get(paths, ignore_missing=True)] returns all of them, a subset of
    the requested paths that is not strict; and when a content type is
    given whose processor does not support a requested path,
    [get(paths, content_type, ignore_missing=False)] leaves that path
    out. *)
Lemma get_ignore_missing_returns_all :
  result_keys
    (Archive.get sample_archive ["a"] None true true world_with_a)
  = Some (list_to_set ["a"])
  ∧ ¬ ((list_to_set ["a"] : gset string) ⊂ list_to_set ["a"])
  ∧ result_keys
      (Archive.get sample_archive ["a"] (Some ContentTypes.TEXT) true false
         world_with_a)
    = Some ∅.
Proof.
  split_and!; [vm_compute; reflexivity| |vm_compute; reflexivity].
  by intros [_ []].
Qed.

(** * Further properties *)

(** ** What a write touches *)

Lemma only_touches_refl paths w : only_touches paths w w.
Proof. by repeat split. Qed.

Lemma only_touches_trans paths w1 w2 w3 :
  only_touches paths w1 w2 → only_touches paths w2 w3 →
  only_touches paths w1 w3.
Proof.
  intros (Hf1 & Hc1 & Hm1 & Ht1 & He1 & Hk1) (Hf2 & Hc2 & Hm2 & Ht2 & He2 & Hk2).
  split_and!; try congruence.
  - intros p Hp. by rewrite Hf2, Hf1.
  - intros k Hk. by rewrite Hc2, Hc1.
Qed.

Lemma only_touches_mono paths paths' w w' :
  (∀ p, p ∈ paths → p ∈ paths') →
  only_touches paths w w' → only_touches paths' w w'.
Proof.
  intros Hsub (Hf & Hc & Hrest). split; [|split; [|exact Hrest]].
  - intros p Hp. apply Hf. intros ?. apply Hp. auto.
  - intros k Hk. apply Hc. intros q Hq. apply Hk. auto.
Qed.

Lemma replace_fs_keeps path pid ty ct d :
  meta (Db.replace_fs path pid ty ct d) = meta d.
Proof. unfold Db.replace_fs. by destruct (fs d !! path). Qed.

Lemma _create_touches q pid ty ct w e w' :
  FSWriter._create q pid ty ct w = Ok e w' → only_touches [q] w w'.
Proof.
  intros H. rewrite _create_Ok in H. simplify_eq.
  split_and!; simpl; try done.
  - intros p Hp. rewrite fs_replace_fs, lookup_insert_ne; [done|].
    intros ->. apply Hp. left.
  - intros k Hk. rewrite lookup_insert_ne; [done|]. intros <-.
    by apply (Hk q); [left|].
  - apply replace_fs_keeps.
Qed.

Lemma _update_touches q ct w e w' :
  FSWriter._update q ct w = Ok e w' → only_touches [q] w w'.
Proof.
  intros H. update_cases H; [apply only_touches_refl|..];
    (split_and!; simpl; try done;
     [intros p Hp; rewrite lookup_alter_ne; [done|];
      intros ->; apply Hp; left
     |intros k Hk; rewrite lookup_insert_ne; [done|]; intros <-;
      by apply (Hk q); [left|]]).
Qed.

Lemma absorb_fetched_touches rows : ∀ anc miss w res w',
  FSWriter.absorb_fetched rows anc miss w = Ok res w' →
  only_touches (Fs.path <$> rows) w w'.
Proof.
  induction rows as [|r rows IH]; intros anc miss w res w' H.
  - simpl in H. unfold_M. simplify_eq. apply only_touches_refl.
  - simpl in H. apply bind_Ok in H as (? & w1 & H1 & H).
    unfold_M. simplify_eq.
    destruct (list_remove (Fs.path r) miss) as [miss1|]; [|done].
    apply IH in H. rewrite fmap_cons.
    eapply only_touches_trans;
      [|eapply only_touches_mono; [|exact H]; intros p Hp; by right].
    split_and!; simpl; try done.
    intros k Hk. rewrite lookup_insert_ne; [done|]. intros <-.
    by apply (Hk (Fs.path r)); [left|].
Qed.

Lemma _get_chain_touches self w res w' :
  FSWriter._get_chain self w = Ok res w' →
  only_touches (ancestors_of (FSWriter._path self)) w w'.
Proof.
  intros H. unfold FSWriter._get_chain in H.
  destruct (FSWriter.cached_prefix _ _) as [anc miss] eqn:Hcp.
  destruct (cached_prefix_spec _ _ _ _ Hcp) as (pre & Hchain & _).
  case_bool_decide; [simplify_eq; apply only_touches_refl|].
  apply bind_Ok in H as (rows & w1 & H1 & H). unfold_M. simplify_eq.
  eapply only_touches_mono; [|by eapply absorb_fetched_touches].
  intros p (r & -> & Hr)%list_elem_of_fmap.
  apply elem_of_select in Hr as [Hr _]. rewrite Hchain.
  apply elem_of_app. by right.
Qed.

Lemma create_missing_touches self ms : ∀ lst w res w',
  FSWriter.create_missing self ms lst w = Ok res w' →
  only_touches ms w w'.
Proof.
  induction ms as [|m ms IH]; intros lst w res w' H; simpl in H.
  - unfold_M. simplify_eq. apply only_touches_refl.
  - apply bind_Ok in H as (e & w1 & H1 & H).
    eapply only_touches_trans.
    + eapply only_touches_mono; [|by eapply _create_touches].
      intros p ->%list_elem_of_singleton. left.
    + eapply only_touches_mono; [|by eapply IH]. intros p Hp. by right.
Qed.

(** X1: a write that returns has touched, in the store and in the cache,
    only the paths of the ancestor chain, the parent and the target:
    every other row and every other cache entry is as before, and so are
    the [meta] table, the tasks, the events and the calls made. *)
Theorem write_only_touches_footprint self w res w' :
  FSWriter.write self w = Ok res w' → only_touches (footprint self) w w'.
Proof.
  intros H. unfold FSWriter.write in H.
  apply bind_Ok in H as ([found ms] & w1 & H1 & H).
  apply bind_Ok in H as (l & w2 & H2 & H).
  apply bind_Ok in H as ([] & w3 & H3 & H).
  pose proof (_get_chain_spec _ _ _ _ _ H1) as (_ & _ & Hsub & _).
  assert (only_touches (footprint self) w w1) as T1.
  { eapply only_touches_mono; [|by eapply _get_chain_touches].
    intros p Hp. apply elem_of_app. by left. }
  assert (only_touches (footprint self) w1 w2) as T2.
  { eapply only_touches_mono; [|by eapply create_missing_touches].
    intros p Hp. apply elem_of_app. left. auto. }
  assert (only_touches (footprint self) w2 w3) as T3.
  { destruct (_ && _).
    - apply bind_Ok in H3 as (e & w3' & H3 & H3'). unfold_M. simplify_eq.
      eapply only_touches_mono; [|by eapply _update_touches].
      intros p ->%list_elem_of_singleton. unfold footprint.
      apply elem_of_app. right. left.
    - unfold_M. simplify_eq. apply only_touches_refl. }
  assert (only_touches (footprint self) w3 w') as T4.
  { case_bool_decide.
    - apply bind_Ok in H as (e & w4 & H4 & H). unfold_M. simplify_eq.
      eapply only_touches_mono; [|by eapply _update_touches].
      intros p ->%list_elem_of_singleton. unfold footprint.
      apply elem_of_app. right. right. left.
    - unfold_M. simplify_eq. apply only_touches_refl. }
  eauto using only_touches_trans.
Qed.

Lemma write_only_touches_footprint_witness :
  ∃ res w',
    FSWriter.write (FSWriter.init "a/b/x.txt" FILE_TYPE text_bits)
      world_with_a = Ok res w'
    ∧ only_touches
        (footprint (FSWriter.init "a/b/x.txt" FILE_TYPE text_bits))
        world_with_a w'.
Proof.
  eexists _, _. split; [vm_compute; reflexivity|].
  eapply (write_only_touches_footprint _ world_with_a).
  vm_compute. reflexivity.
Defined.

(** ** When the writer fails *)

Lemma _update_unknown p ct w :
  ¬ known p w → FSWriter._update p ct w = Raise TypeError.
Proof.
  intros Hk. rewrite _update_uncached.
  - destruct (fs (db w) !! p) eqn:E; [|done].
    exfalso. apply Hk. right. unfold has_row. by rewrite E.
  - destruct (cache w !! FSWriter._key p) eqn:E; [|done].
    exfalso. apply Hk. left. unfold is_cached. by rewrite E.
Qed.

Lemma _update_result p ct w :
  (∃ e w', FSWriter._update p ct w = Ok e w')
  ∨ FSWriter._update p ct w = Raise TypeError.
Proof.
  destruct (cache w !! FSWriter._key p) as [e|] eqn:Hc.
  - left. by apply _update_total; left; unfold is_cached; rewrite Hc.
  - rewrite (_update_uncached _ _ _ Hc).
    destruct (fs (db w) !! p); [left; eauto|by right].
Qed.

Lemma known_only_touches paths p w w' :
  only_touches paths w w' → p ∉ paths → known p w' → known p w.
Proof.
  intros (Hfs & Hc & _) Hp. unfold known, is_cached, has_row.
  rewrite Hfs by done. rewrite Hc; [done|].
  intros q Hq. apply _key_ne. by intros ->.
Qed.

(** X2: [update] returns exactly for a path that is held in cache or
    stored; for any other path it raises [TypeError], the [dict(None)] of
    [_fetch]. *)
Theorem update_returns_iff_known path ty ct w :
  (known path w →
   ∃ e w', FSWriter.update (FSWriter.init path ty ct) w = Ok e w')
  ∧ (¬ known path w →
     FSWriter.update (FSWriter.init path ty ct) w = Raise TypeError).
Proof.
  unfold FSWriter.update.
  cbn [FSWriter._path FSWriter._content_types FSWriter.init].
  split; intros Hk.
  - exact (_update_total path ct w Hk).
  - exact (_update_unknown path ct w Hk).
Qed.

Lemma update_returns_iff_known_witness :
  (∃ e w',
     FSWriter.update (FSWriter.init "a" FILE_TYPE text_bits) world_with_a
     = Ok e w')
  ∧ FSWriter.update (FSWriter.init "b" FILE_TYPE text_bits) world_with_a
    = Raise TypeError.
Proof.
  split.
  - apply (proj1 (update_returns_iff_known "a" FILE_TYPE text_bits
                    world_with_a)).
    left. by_evaluation.
  - apply (proj2 (update_returns_iff_known "b" FILE_TYPE text_bits
                    world_with_a)).
    intros [H|H]; revert H; by_evaluation.
Defined.

Lemma bind_Raise {A B} (m : M A) (k : A → M B) w e :
  m w = Raise e → (m ≫= k) w = Raise e.
Proof. unfold mbind, M_bind. by intros ->. Qed.

(** X3: a write fails with [TypeError] when its target is neither among
    its own ancestors (the path is not in normal form) nor known to the
    writer, and also when it is the write of a file whose parent is
    neither among the ancestors of the target nor known. *)
Theorem write_unknown_raises path ty ct w :
  ((path ∉ ancestors_of path) ∧ (¬ known path w))
  ∨ (ty = FILE_TYPE
     ∧ (PosixPath.dirname path ∉ ancestors_of path)
     ∧ (¬ known (PosixPath.dirname path) w)) →
  FSWriter.write (FSWriter.init path ty ct) w = Raise TypeError.
Proof.
  intros Hcase. set (self := FSWriter.init path ty ct).
  destruct (_get_chain_total self w) as ([found ms] & w1 & H1).
  destruct (create_missing_total self ms
              (match last found with
               | Some e => FSWriter.Found e
               | None => FSWriter.DEFAULT_ROOT
               end) w1) as (l & w2 & H2).
  pose proof (_get_chain_spec _ _ _ _ _ H1) as (_ & _ & Hsub & _).
  assert (only_touches (ancestors_of path) w w2) as T.
  { eapply only_touches_trans; [by eapply (_get_chain_touches self)|].
    eapply only_touches_mono; [|by eapply create_missing_touches].
    exact Hsub. }
  unfold FSWriter.write. rewrite (bind_Ok_eq _ _ _ _ _ H1). simpl.
  rewrite (bind_Ok_eq _ _ _ _ _ H2).
  destruct Hcase as [[Hp Hk]|(-> & Hp & Hk)].
  - assert (¬ known path w2) as Hk2.
    { intros ?. by apply Hk, (known_only_touches _ _ _ _ T). }
    assert (path ∉ ms) as Hms by (intros ?; apply Hp; auto).
    rewrite (bool_decide_eq_true_2 (path ∉ ms)) by done.
    destruct (_ && _) eqn:Hbranch.
    + destruct (_update_result (PosixPath.dirname path) ct w2)
        as [(e & w3 & H3)|H3]; [|by apply bind_Raise, bind_Raise].
      assert ((FSWriter._update (PosixPath.dirname path) ct
                 ≫= λ _ : Fs.entry, mret ()) w2 = Ok () w3) as H3'
        by by rewrite (bind_Ok_eq _ _ _ _ _ H3).
      rewrite (bind_Ok_eq _ _ _ _ _ H3').
      apply bind_Raise, _update_unknown.
      intros Hk3. apply Hk2.
      eapply known_only_touches; [by eapply _update_touches| |done].
      intros Heq%list_elem_of_singleton.
      rewrite <- Heq, _update_unknown in H3; done.
    + assert ((mret () : M ()) w2 = Ok () w2) as H3' by done.
      rewrite (bind_Ok_eq _ _ _ _ _ H3').
      by apply bind_Raise, _update_unknown.
  - assert (¬ known (PosixPath.dirname path) w2) as Hk2.
    { intros ?. by apply Hk, (known_only_touches _ _ _ _ T). }
    assert (PosixPath.dirname path ∉ ms) as Hms by (intros ?; apply Hp; auto).
    rewrite (bool_decide_eq_true_2 (PosixPath.dirname path ∉ ms)) by done.
    rewrite (bool_decide_eq_true_2 (FILE_TYPE = FILE_TYPE)) by done.
    by apply bind_Raise, bind_Raise, _update_unknown.
Qed.

Lemma write_unknown_raises_witness :
  FSWriter.write unnormalized_dir world_with_parent = Raise TypeError
  ∧ FSWriter.write (FSWriter.init "a/b/../c" FILE_TYPE text_bits)
      empty_world = Raise TypeError.
Proof.
  split.
  - apply (write_unknown_raises "a/b/" DIRECTORY_TYPE text_bits
             world_with_parent).
    left. split; [by_evaluation|].
    intros [H|H]; revert H; by_evaluation.
  - apply (write_unknown_raises "a/b/../c" FILE_TYPE text_bits empty_world).
    right. split_and!; [done|by_evaluation|].
    intros [H|H]; revert H; by_evaluation.
Defined.
(** ** What a write leaves in cache *)

Lemma cached_prefix_all c chain :
  (∀ a, a ∈ chain → is_Some (c !! FSWriter._key a)) →
  ∃ anc, FSWriter.cached_prefix c chain = (anc, []).
Proof.
  induction chain as [|a chain IH]; intros Hall; simpl; [eauto|].
  destruct (Hall a) as [e ->]; [left|].
  destruct IH as [anc ->]; [|eauto].
  intros b Hb. apply Hall. by right.
Qed.

(** With the whole chain in cache and the bits already on the cached
    target, and on the cached parent of a file, a write returns the
    cached target and leaves the world as it is. *)
Lemma write_cached_hit self w e :
  (∀ a, a ∈ ancestors_of (FSWriter._path self) → is_cached a w) →
  cache w !! FSWriter._key (FSWriter._path self) = Some e →
  Z.land (Fs.content_types e) (FSWriter._content_types self)
  = FSWriter._content_types self →
  (FSWriter._type self = FILE_TYPE →
   cached_with (FSWriter._parent_path self) (FSWriter._content_types self) w) →
  FSWriter.write self w = Ok (FSWriter.Found e) w.
Proof.
  intros Hall He Hct Hparent.
  destruct (cached_prefix_all (cache w) _ Hall) as [anc Hcp].
  assert (FSWriter._get_chain self w = Ok (anc, []) w) as H1.
  { unfold FSWriter._get_chain. by rewrite Hcp. }
  unfold FSWriter.write. rewrite (bind_Ok_eq _ _ _ _ _ H1).
  cbn [FSWriter.create_missing].
  assert (∀ n, (mret n : M FSWriter.node) w = Ok n w) as H2 by done.
  rewrite (bind_Ok_eq _ _ _ _ _ (H2 _)).
  assert ((if bool_decide (FSWriter._parent_path self ∉ [])
              && bool_decide (FSWriter._type self = FILE_TYPE)
           then FSWriter._update (FSWriter._parent_path self)
                  (FSWriter._content_types self) ;; mret ()
           else mret ()) w = Ok () w) as H3.
  { destruct (_ && _) eqn:Hb; [|done].
    apply andb_prop in Hb as [_ Hty%bool_decide_eq_true].
    destruct (Hparent Hty) as (pe & Hpe & Hpct).
    rewrite (bind_Ok_eq _ _ _ _ _ (_update_hit _ _ _ _ Hpe
               (bool_decide_eq_true_2 _ Hpct))). done. }
  rewrite (bind_Ok_eq _ _ _ _ _ H3).
  rewrite bool_decide_eq_true_2 by apply not_elem_of_nil.
  by rewrite (bind_Ok_eq _ _ _ _ _ (_update_hit _ _ _ _ He
                (bool_decide_eq_true_2 _ Hct))).
Qed.

Lemma cached_with_update p bits w q ct e w' :
  cached_with p bits w → FSWriter._update q ct w = Ok e w' →
  cached_with p bits w'.
Proof.
  intros (e0 & He0 & Hb) H. unfold cached_with.
  destruct (decide (q = p)) as [->|Hne].
  - update_cases H; simpl; [eauto|..].
    + simplify_eq. rewrite lookup_insert_eq. eexists. split; [done|].
      simpl. by apply land_lor_keep.
    + congruence.
  - update_cases H; simpl; [eauto|..];
      rewrite lookup_insert_ne by (by apply _key_ne); eauto.
Qed.

Lemma _update_cached_with p ct w e w' :
  FSWriter._update p ct w = Ok e w' →
  cache w' !! FSWriter._key p = Some e
  ∧ Z.land (Fs.content_types e) ct = ct.
Proof.
  intros H. update_cases H; simpl.
  - done.
  - rewrite lookup_insert_eq. split; [done|]. apply land_lor_same.
  - rewrite lookup_insert_eq. split; [done|]. apply land_lor_same.
Qed.

Lemma create_missing_cached_with self ms p bits : ∀ lst w res w',
  Z.land (FSWriter.created_content_types self p) bits = bits →
  p ∈ ms ∨ cached_with p bits w →
  FSWriter.create_missing self ms lst w = Ok res w' →
  cached_with p bits w'.
Proof.
  induction ms as [|m ms IH]; intros lst w res w' Hbits Hp H; simpl in H.
  - unfold_M. simplify_eq. destruct Hp as [Hp|Hp]; [|done].
    by apply elem_of_nil in Hp.
  - apply bind_Ok in H as (e & w1 & H1 & H).
    eapply IH; [done| |exact H].
    rewrite _create_Ok in H1. simplify_eq.
    destruct (decide (m = p)) as [->|Hne].
    + right. eexists. simpl. rewrite lookup_insert_eq. eauto.
    + destruct Hp as [[?|Hp]%elem_of_cons|(e0 & He0 & Hb)]; [done|by left|].
      right. exists e0. simpl.
      rewrite lookup_insert_ne by (by apply _key_ne). done.
Qed.

Lemma create_missing_is_cached self ms : ∀ lst w res w' p,
  p ∈ ms ∨ is_cached p w →
  FSWriter.create_missing self ms lst w = Ok res w' → is_cached p w'.
Proof.
  induction ms as [|m ms IH]; intros lst w res w' p Hp H; simpl in H.
  - unfold_M. simplify_eq. destruct Hp as [Hp|Hp]; [|done].
    by apply elem_of_nil in Hp.
  - apply bind_Ok in H as (e & w1 & H1 & H).
    eapply IH; [|exact H].
    destruct Hp as [[->|Hp]%elem_of_cons|Hp]; [|by left|].
    + right. rewrite _create_Ok in H1. simplify_eq.
      unfold is_cached. simpl. by rewrite lookup_insert_eq.
    + right. by eapply is_cached_create.
Qed.

(** The node [create_missing] returns is the entry created last, which
    the cache then holds under the key of the last missing path. *)
Lemma create_missing_last_cached self ms : ∀ lst w res w' z,
  FSWriter.create_missing self ms lst w = Ok res w' →
  last ms = Some z →
  ∃ e, res = FSWriter.Found e
       ∧ cache w' !! FSWriter._key z = Some e
       ∧ Fs.content_types e = FSWriter.created_content_types self z.
Proof.
  induction ms as [|m ms IH]; intros lst w res w' z H Hl; simpl in H; [done|].
  apply bind_Ok in H as (e & w1 & H1 & H).
  destruct ms as [|m' ms].
  - simpl in H. unfold_M. simplify_eq. simpl in Hl. simplify_eq.
    rewrite _create_Ok in H1. simplify_eq. eexists. split; [done|].
    simpl. by rewrite lookup_insert_eq.
  - rewrite last_cons_cons in Hl. by eapply IH.
Qed.

Lemma created_content_types_path self :
  Z.land (FSWriter.created_content_types self (FSWriter._path self))
         (FSWriter._content_types self)
  = FSWriter._content_types self.
Proof.
  unfold FSWriter.created_content_types.
  rewrite (bool_decide_eq_true_2 (FSWriter._path self = FSWriter._path self))
    by done.
  apply land_lor_same.
Qed.

Lemma created_content_types_parent self :
  FSWriter._type self = FILE_TYPE →
  Z.land (FSWriter.created_content_types self (FSWriter._parent_path self))
         (FSWriter._content_types self)
  = FSWriter._content_types self.
Proof.
  intros Hty. unfold FSWriter.created_content_types.
  rewrite (bool_decide_eq_true_2
             (FSWriter._parent_path self = FSWriter._parent_path self))
    by done.
  rewrite (bool_decide_eq_true_2 _ Hty), orb_true_r.
  apply land_lor_same.
Qed.

Lemma _update_cache_other q ct w e w' p :
  FSWriter._update q ct w = Ok e w' → p ≠ q →
  cache w' !! FSWriter._key p = cache w !! FSWriter._key p.
Proof.
  intros H Hne. apply _update_touches in H as (_ & Hc & _).
  apply Hc. intros q' ->%list_elem_of_singleton. by apply _key_ne.
Qed.

(** What a write that returns leaves in cache: the whole chain, the
    node returned under the key of the target, with the bits of the
    writer, and the same bits on the parent of a file. *)
Lemma write_leaves_cached self w res w' :
  FSWriter.write self w = Ok res w' →
  (∀ a, a ∈ ancestors_of (FSWriter._path self) → is_cached a w')
  ∧ (∃ e, res = FSWriter.Found e
          ∧ cache w' !! FSWriter._key (FSWriter._path self) = Some e
          ∧ Z.land (Fs.content_types e) (FSWriter._content_types self)
            = FSWriter._content_types self)
  ∧ (FSWriter._type self = FILE_TYPE →
     cached_with (FSWriter._parent_path self)
       (FSWriter._content_types self) w').
Proof.
  intros H. unfold FSWriter.write in H.
  apply bind_Ok in H as ([found ms] & w1 & H1 & H).
  apply bind_Ok in H as (l & w2 & H2 & H).
  apply bind_Ok in H as ([] & w3 & H3 & H).
  pose proof (_get_chain_spec _ _ _ _ _ H1)
    as (_ & Hchain & Hsub & Hlast & Hmono).
  assert (∀ P : world → Prop,
            (∀ q ct e wa wb,
               P wa → FSWriter._update q ct wa = Ok e wb → P wb) →
            P w2 → P w3) as Hstep3.
  { intros P HP HP2. destruct (_ && _).
    - apply bind_Ok in H3 as (e & w3' & H3 & H3'). unfold_M. simplify_eq.
      by eapply HP.
    - unfold_M. by simplify_eq. }
  assert (∀ P : world → Prop,
            (∀ q ct e wa wb,
               P wa → FSWriter._update q ct wa = Ok e wb → P wb) →
            P w3 → P w') as Hstep4.
  { intros P HP HP3. case_bool_decide.
    - apply bind_Ok in H as (e & w4 & H4 & H). unfold_M. simplify_eq.
      by eapply HP.
    - unfold_M. by simplify_eq. }
  split_and!.
  - intros a Ha.
    apply (Hstep4 (is_cached a)); [intros; by eapply is_cached_update|].
    apply (Hstep3 (is_cached a)); [intros; by eapply is_cached_update|].
    eapply create_missing_is_cached; [|exact H2].
    destruct (Hchain a Ha) as [Hm|[Hc|[_ Hc]]]; auto.
  - case_bool_decide as Hms.
    + apply bind_Ok in H as (e & w4 & H4 & H). unfold_M. simplify_eq.
      exists e. split; [done|]. by eapply _update_cached_with.
    + unfold_M. simplify_eq.
      destruct (Hlast (FSWriter._path self)) as [Hl|Hl];
        [by apply ancestors_of_self_last, Hsub| |done].
      destruct (create_missing_last_cached _ _ _ _ _ _ _ H2 Hl)
        as (e & -> & Hc & Hct).
      exists e. split_and!; [done| |].
      * destruct (bool_decide (FSWriter._parent_path self ∉ ms)) eqn:Hpar;
          simpl in H3.
        -- destruct (bool_decide (FSWriter._type self = FILE_TYPE));
             simpl in H3; [|by simplify_eq].
           destruct (FSWriter._update _ _ w2) as [e3 w3'|] eqn:Hu;
             [|done].
           simplify_eq. rewrite <- Hc.
           eapply _update_cache_other; [exact Hu|].
           apply bool_decide_eq_true in Hpar. by intros Heq; rewrite Heq in Hms.
        -- by simplify_eq.
      * rewrite Hct. apply created_content_types_path.
  - intros Hty.
    apply (Hstep4 (cached_with _ _)); [intros; by eapply cached_with_update|].
    destruct (decide (FSWriter._parent_path self ∈ ms)) as [Hin|Hout].
    + apply (Hstep3 (cached_with _ _));
        [intros; by eapply cached_with_update|].
      eapply create_missing_cached_with; [|by left|exact H2].
      by apply created_content_types_parent.
    + rewrite (bool_decide_eq_true_2 _ Hout),
        (bool_decide_eq_true_2 _ Hty) in H3. simpl in H3.
      apply bind_Ok in H3 as (e & w3' & H3 & H3'). unfold_M. simplify_eq.
      eexists. by eapply _update_cached_with.
Qed.

(** X4: a write that returns can be repeated: the second write returns
    the same node and leaves the world as the first one left it; it
    executes no statement and sets no cache entry. *)
Theorem write_twice self w res w' :
  FSWriter.write self w = Ok res w' → FSWriter.write self w' = Ok res w'.
Proof.
  intros H.
  destruct (write_leaves_cached _ _ _ _ H)
    as (Hall & (e & -> & He & Hct) & Hparent).
  by apply write_cached_hit.
Qed.

Lemma write_twice_witness :
  ∃ res w',
    FSWriter.write text_file empty_world = Ok res w'
    ∧ FSWriter.write text_file w' = Ok res w'.
Proof.
  eexists _, _. split; [vm_compute; reflexivity|].
  apply (write_twice text_file empty_world). vm_compute. reflexivity.
Defined.
(** ** Cache and store after a write *)

Lemma coherent_cache_row p w q c :
  coherent p w → fs (db w) !! q = Some c →
  coherent p (set_cache (<[FSWriter._key q := row_of q c]> (cache w)) w).
Proof.
  intros Hco Hq e. simpl. destruct (decide (q = p)) as [->|Hne].
  - rewrite lookup_insert_eq. intros [= <-].
    unfold Db.fetchone_by_path. by rewrite Hq.
  - rewrite lookup_insert_ne by (by apply _key_ne). apply Hco.
Qed.

Lemma coherent_create p w q pid ty ct e w' :
  coherent p w → FSWriter._create q pid ty ct w = Ok e w' → coherent p w'.
Proof.
  intros Hco H. rewrite _create_Ok in H. simplify_eq. intros e. simpl.
  unfold Db.fetchone_by_path. rewrite fs_replace_fs.
  destruct (decide (q = p)) as [->|Hne].
  - rewrite !lookup_insert_eq. by intros [= <-].
  - rewrite !lookup_insert_ne by (done || by apply _key_ne). apply Hco.
Qed.

Lemma coherent_update p w q ct e w' :
  coherent p w → FSWriter._update q ct w = Ok e w' → coherent p w'.
Proof.
  intros Hco H. unfold coherent, Db.fetchone_by_path in *.
  destruct (decide (q = p)) as [->|Hne].
  - update_cases H; [done|..]; simpl; intros e';
      rewrite lookup_insert_eq, lookup_alter_eq; intros [= <-].
    + specialize (Hco _ H).
      destruct (fs (db w) !! p) as [c|]; simplify_eq/=. done.
    + by rewrite H0.
  - update_cases H; [done|..]; simpl; intros e';
      rewrite lookup_insert_ne, lookup_alter_ne
        by (done || by apply _key_ne); apply Hco.
Qed.

(** X5: a write keeps the cache coherent with the store: if the cache
    entry of a path, when there is one, was what a fetch of the path from
    the store returns, then the same holds after the write. *)
Theorem write_keeps_coherent p self w res w' :
  coherent p w → FSWriter.write self w = Ok res w' → coherent p w'.
Proof.
  apply (write_inv (coherent p)).
  - intros. by apply coherent_cache_row.
  - intros. by eapply coherent_create.
  - intros. by eapply coherent_update.
Qed.

Lemma write_keeps_coherent_witness :
  ∃ res w',
    FSWriter.write text_file world_with_parent = Ok res w'
    ∧ coherent "a/b" w'.
Proof.
  eexists _, _. split; [vm_compute; reflexivity|].
  eapply (write_keeps_coherent "a/b" text_file world_with_parent).
  - intros e He. vm_compute in He. injection He as <-. vm_compute.
    reflexivity.
  - vm_compute. reflexivity.
Defined.

(** X6: with a coherent cache entry for the target, the node a write
    returns is the row a fetch of the target then finds in the store: it
    has the path of the target and its content types contain the bits of
    the writer. *)
Theorem write_then_fetch path ty ct w res w' :
  coherent path w →
  FSWriter.write (FSWriter.init path ty ct) w = Ok res w' →
  ∃ e, res = FSWriter.Found e
       ∧ Db.fetchone_by_path path (db w') = Some e
       ∧ Fs.path e = path
       ∧ Z.land (Fs.content_types e) ct = ct
       ∧ row_contains path ct w'.
Proof.
  intros Hco H.
  destruct (write_leaves_cached _ _ _ _ H) as (_ & (e & -> & He & Hct) & _).
  cbn [FSWriter._path FSWriter._content_types FSWriter.init] in He, Hct.
  assert (coherent path w') as Hco'.
  { eapply (write_inv (coherent path)); [| | |exact Hco|exact H].
    - intros. by apply coherent_cache_row.
    - intros. by eapply coherent_create.
    - intros. by eapply coherent_update. }
  apply Hco' in He. exists e. split_and!; [done..| | |].
  - unfold Db.fetchone_by_path in He.
    destruct (fs (db w') !! path); by simplify_eq/=.
  - done.
  - unfold Db.fetchone_by_path in He. unfold row_contains.
    destruct (fs (db w') !! path) as [c|]; simplify_eq/=. eauto.
Qed.

Lemma write_then_fetch_witness :
  ∃ res w',
    FSWriter.write (FSWriter.init "a/b/c.txt" FILE_TYPE text_bits)
      world_with_parent = Ok res w'
    ∧ ∃ e, res = FSWriter.Found e
           ∧ Db.fetchone_by_path "a/b/c.txt" (db w') = Some e
           ∧ Fs.path e = "a/b/c.txt"
           ∧ Z.land (Fs.content_types e) text_bits = text_bits
           ∧ row_contains "a/b/c.txt" text_bits w'.
Proof.
  eexists _, _. split; [vm_compute; reflexivity|].
  eapply (write_then_fetch "a/b/c.txt" FILE_TYPE text_bits
            world_with_parent).
  - intros e He. vm_compute in He. discriminate.
  - vm_compute. reflexivity.
Defined.

(** ** Rows a write finds in the store *)

Lemma list_remove_NoDup x l l' :
  NoDup l → list_remove x l = Some l' →
  NoDup l' ∧ (x ∉ l') ∧ ∀ a, a ∈ l' → a ∈ l.
Proof.
  intros Hnd. revert l'.
  induction Hnd as [|y l Hy Hnd IH]; intros l' H; simpl in H; [done|].
  case_bool_decide as Hxy.
  - injection H as <-. subst y. split_and!; [done..|].
    intros a Ha. by right.
  - destruct (list_remove x l) as [l0|] eqn:E; simplify_eq/=.
    destruct (IH _ eq_refl) as (Hnd0 & Hx & Hsub). split_and!.
    + constructor; [|done]. intros ?. apply Hy. auto.
    + intros [?|?]%elem_of_cons; [by apply Hxy|done].
    + intros a [->|Ha]%elem_of_cons; [left|right; auto].
Qed.

Lemma absorb_fetched_NoDup rows : ∀ anc miss w anc' miss' w',
  NoDup miss →
  FSWriter.absorb_fetched rows anc miss w = Ok (anc', miss') w' →
  ∀ a, a ∈ miss' → a ∈ miss ∧ a ∉ Fs.path <$> rows.
Proof.
  induction rows as [|r rows IH]; intros anc miss w anc' miss' w' Hnd H.
  - simpl in H. unfold_M. simplify_eq. intros a Ha. split; [done|].
    apply not_elem_of_nil.
  - simpl in H. apply bind_Ok in H as (? & w1 & H1 & H).
    unfold_M. simplify_eq.
    destruct (list_remove (Fs.path r) miss) as [miss1|] eqn:E; [|done].
    destruct (list_remove_NoDup _ _ _ Hnd E) as (Hnd1 & Hr & Hsub).
    intros a Ha. destruct (IH _ _ _ _ _ _ Hnd1 H a Ha) as [Ha1 Hrows].
    split; [auto|]. rewrite fmap_cons.
    intros [->|?]%elem_of_cons; done.
Qed.

(** When no ancestor occurs twice in the chain, the paths [_get_chain]
    reports as missing have no row in the store. *)
Lemma _get_chain_missing_fresh self w found ms w1 :
  NoDup (ancestors_of (FSWriter._path self)) →
  FSWriter._get_chain self w = Ok (found, ms) w1 →
  ∀ m, m ∈ ms → fs (db w) !! m = None.
Proof.
  intros Hnd H. unfold FSWriter._get_chain in H.
  destruct (FSWriter.cached_prefix _ _) as [anc miss] eqn:Hcp.
  destruct (cached_prefix_spec _ _ _ _ Hcp) as (pre & Hchain & _).
  rewrite Hchain in Hnd. apply NoDup_app in Hnd as (_ & _ & Hnd).
  case_bool_decide as Hnil.
  { simplify_eq. intros m Hm. by apply elem_of_nil in Hm. }
  apply bind_Ok in H as (rows & w0 & H0 & H). unfold_M. simplify_eq.
  intros m Hm.
  destruct (absorb_fetched_NoDup _ _ _ _ _ _ _ Hnd H m Hm) as [Hin Hrows].
  destruct (fs (db w0) !! m) as [c|] eqn:E; [|done].
  exfalso. apply Hrows. apply list_elem_of_fmap.
  exists (row_of m c). split; [done|].
  apply elem_of_select. simpl. eauto.
Qed.

Lemma row_id_kept_create p c w q pid ty ct e w' :
  row_id_kept p c w → FSWriter._create q pid ty ct w = Ok e w' →
  row_id_kept p c w'.
Proof.
  intros (c' & Hc' & Hid) H. rewrite _create_Ok in H. simplify_eq.
  unfold row_id_kept. simpl. rewrite fs_replace_fs.
  destruct (decide (q = p)) as [->|Hne].
  - rewrite lookup_insert_eq. eexists. split; [done|].
    unfold created_cols. by rewrite Hc'.
  - rewrite lookup_insert_ne by done. eauto.
Qed.

Lemma row_id_kept_update p c w q ct e w' :
  row_id_kept p c w → FSWriter._update q ct w = Ok e w' →
  row_id_kept p c w'.
Proof.
  intros (c' & Hc' & Hid) H. unfold row_id_kept.
  update_cases H; [eauto|..]; simpl;
    (destruct (decide (q = p)) as [->|Hne];
     [rewrite lookup_alter_eq, Hc'; eexists; split; [done|]; done
     |rewrite lookup_alter_ne by done; eauto]).
Qed.

Lemma row_kept_update p c w q ct e w' :
  row_kept p c w → FSWriter._update q ct w = Ok e w' → row_kept p c w'.
Proof.
  intros (c' & Hc' & Hid & Hpid & Hty & Hct) H. unfold row_kept.
  update_cases H; [by eauto 10|..]; simpl;
    (destruct (decide (q = p)) as [->|Hne];
     [rewrite lookup_alter_eq, Hc'; eexists; split; [done|];
      split_and!; [done..|]; simpl; by apply land_lor_keep
     |rewrite lookup_alter_ne by done; by eauto 10]).
Qed.

(** X7: a write never deletes a row and never changes the [id] of one:
    a path that had a row before has one after, under the same [id]. When
    no ancestor occurs twice in the chain of the target, the row also
    keeps its [parent_id] and [type], and its content types only grow. *)
Theorem write_keeps_rows self w res w' p c :
  FSWriter.write self w = Ok res w' →
  fs (db w) !! p = Some c →
  row_id_kept p c w'
  ∧ (NoDup (ancestors_of (FSWriter._path self)) → row_kept p c w').
Proof.
  intros H Hp. split.
  - eapply (write_inv (row_id_kept p c)); [| | | |exact H].
    + intros w0 q c0 (c' & Hc' & Hid) _. by exists c'.
    + intros. by eapply row_id_kept_create.
    + intros. by eapply row_id_kept_update.
    + by exists c.
  - intros Hnd. unfold FSWriter.write in H.
    apply bind_Ok in H as ([found ms] & w1 & H1 & H).
    apply bind_Ok in H as (l & w2 & H2 & H).
    apply bind_Ok in H as ([] & w3 & H3 & H).
    pose proof (_get_chain_missing_fresh _ _ _ _ _ Hnd H1) as Hfresh.
    pose proof (_get_chain_spec _ _ _ _ _ H1) as (Hdb & _).
    assert (row_kept p c w2) as K2.
    { apply create_missing_touches in H2 as (Hfs & _).
      exists c. rewrite Hfs, Hdb; [by rewrite Z.land_diag|].
      intros Hin. apply Hfresh in Hin. congruence. }
    assert (row_kept p c w3) as K3.
    { destruct (_ && _).
      - apply bind_Ok in H3 as (e & w3' & H3 & H3'). unfold_M.
        simplify_eq. by eapply row_kept_update.
      - unfold_M. by simplify_eq. }
    case_bool_decide.
    + apply bind_Ok in H as (e & w4 & H4 & H). unfold_M. simplify_eq.
      by eapply row_kept_update.
    + unfold_M. by simplify_eq.
Qed.

Lemma write_keeps_rows_witness :
  ∃ res w',
    FSWriter.write text_file world_with_parent = Ok res w'
    ∧ row_kept "a/b" (FsCols 3 2 DIRECTORY_TYPE 1) w'.
Proof.
  eexists _, _. split; [vm_compute; reflexivity|].
  refine (proj2 (write_keeps_rows text_file world_with_parent _ _ "a/b"
                   (FsCols 3 2 DIRECTORY_TYPE 1) _ _) _).
  - vm_compute. reflexivity.
  - vm_compute. reflexivity.
  - by_evaluation.
Defined.

(** ** Clearing the archive *)

(** X8: [clear] empties both tables of the store, with the two deletes
    in the order [meta], [fs], and leaves the cache as it is: a path that
    was cached stays cached while its row is gone, so its cache entry is
    no longer coherent with the store. *)
Theorem clear_leaves_cache w :
  ∃ w', Archive.clear w = Ok () w'
        ∧ fs (db w') = ∅ ∧ meta (db w') = ∅
        ∧ executed (db w') = executed (db w) ++ [DeleteMeta; DeleteFs]
        ∧ cache w' = cache w ∧ tasks w' = tasks w
        ∧ events w' = events w ∧ called w' = called w
        ∧ ∀ p, is_cached p w →
               is_cached p w' ∧ ¬ has_row p w' ∧ ¬ coherent p w'.
Proof.
  eexists. split; [reflexivity|]. simpl.
  split_and!; try done.
  - by rewrite <- app_assoc.
  - intros p [e He]. split_and!.
    + by exists e.
    + unfold has_row. simpl. rewrite lookup_empty. by intros [? ?].
    + intros Hco. specialize (Hco e He).
      unfold Db.fetchone_by_path in Hco. simpl in Hco.
      by rewrite lookup_empty in Hco.
Qed.

Lemma clear_leaves_cache_witness :
  is_cached "a/b" (world_after (FSWriter.write text_file) empty_world)
  ∧ ∃ w', Archive.clear (world_after (FSWriter.write text_file) empty_world)
          = Ok () w'
          ∧ is_cached "a/b" w' ∧ ¬ has_row "a/b" w' ∧ ¬ coherent "a/b" w'.
Proof.
  assert (is_cached "a/b"
            (world_after (FSWriter.write text_file) empty_world)) as Hc
    by by_evaluation.
  split; [exact Hc|].
  destruct (clear_leaves_cache
              (world_after (FSWriter.write text_file) empty_world))
    as (w' & H & _ & _ & _ & _ & _ & _ & _ & Hstale).
  exists w'. split; [exact H|]. exact (Hstale "a/b" Hc).
Defined.

(** ** Storing metadata *)

(** The inner loop of [_save_metadata]: the upserts of one section. *)
Lemma save_section_spec fs_id language (l : list (string * string)) : ∀ w,
  NoDup l.*1 →
  ∃ w', for_each l (λ '(key, value),
          db_execute (Db_join.replace_meta fs_id language key value)) w
        = Ok () w'
        ∧ same_but_meta w w'
        ∧ (∀ key value, (key, value) ∈ l →
             meta (db w') !! (fs_id, language, key) = Some value)
        ∧ (∀ x, (∀ key, key ∈ l.*1 → x ≠ (fs_id, language, key)) →
             meta (db w') !! x = meta (db w) !! x).
Proof.
  induction l as [|[k0 v0] l IH]; intros w Hnd.
  - exists w. split_and!; [done|by repeat split|..].
    + intros ?? Hin. by apply elem_of_nil in Hin.
    + done.
  - apply NoDup_cons in Hnd as [Hk0 Hnd]. simpl.
    set (w1 := set_db (Db_join.replace_meta fs_id language k0 v0 (db w)) w).
    destruct (IH w1 Hnd) as (w' & H & Hsame & Hin & Hout).
    exists w'. split_and!.
    + by rewrite (bind_Ok_eq _ _ w () w1).
    + destruct Hsame as (? & ? & ? & ? & ?). by repeat split.
    + intros key value [[= -> ->]|Hkv]%elem_of_cons; [|by apply Hin].
      rewrite Hout.
      * simpl. by rewrite lookup_insert_eq.
      * intros key Hkey [= <-]. done.
    + intros x Hx. rewrite Hout.
      * simpl. rewrite lookup_insert_ne; [done|].
        intros <-. by apply (Hx k0); [left|].
      * intros key Hkey. apply Hx. by right.
Qed.

(** The outer loop of [_save_metadata], over the languages. *)
Lemma save_sections_spec fs_id (l : list (string * gmap string string)) : ∀ w,
  NoDup l.*1 →
  ∃ w', for_each l (λ '(language, section),
          for_each (map_to_list section) (λ '(key, value),
            db_execute (Db_join.replace_meta fs_id language key value))) w
        = Ok () w'
        ∧ same_but_meta w w'
        ∧ (∀ language section key value,
             (language, section) ∈ l → section !! key = Some value →
             meta (db w') !! (fs_id, language, key) = Some value)
        ∧ (∀ x, (∀ language section key,
                   (language, section) ∈ l → is_Some (section !! key) →
                   x ≠ (fs_id, language, key)) →
             meta (db w') !! x = meta (db w) !! x).
Proof.
  induction l as [|[l0 s0] l IH]; intros w Hnd.
  - exists w. split_and!; [done|by repeat split|..].
    + intros ???? Hin. by apply elem_of_nil in Hin.
    + done.
  - apply NoDup_cons in Hnd as [Hl0 Hnd]. cbn [for_each].
    destruct (save_section_spec fs_id l0 (map_to_list s0) w)
      as (w1 & H1 & Hsame1 & Hin1 & Hout1);
      [apply NoDup_fst_map_to_list|].
    destruct (IH w1 Hnd) as (w' & H & Hsame & Hin & Hout).
    exists w'. split_and!.
    + by rewrite (bind_Ok_eq _ _ w () w1).
    + destruct Hsame as (? & ? & ? & ? & ?).
      destruct Hsame1 as (? & ? & ? & ? & ?).
      repeat split; congruence.
    + intros language section key value
        [[= -> ->]|Hls]%elem_of_cons Hkey; [|by eapply Hin].
      rewrite Hout.
      * apply Hin1. by apply elem_of_map_to_list.
      * intros language section key' Hls _ [= <- _].
        apply Hl0. apply list_elem_of_fmap. by exists (l0, section).
    + intros x Hx. rewrite Hout.
      * apply Hout1. intros key Hkey.
        apply list_elem_of_fmap in Hkey as ([k v] & -> & Hkv).
        apply elem_of_map_to_list in Hkv.
        apply (Hx l0 s0); [left|by exists v].
      * intros language section key Hls. apply Hx. by right.
Qed.

Lemma _save_metadata_spec self fs_id metadata w :
  let cleaned := (λ section, Archive._strip self section None) <$> metadata in
  ∃ w', Archive._save_metadata self fs_id metadata w = Ok cleaned w'
        ∧ same_but_meta w w'
        ∧ (∀ language key value,
             holds cleaned language key value →
             meta (db w') !! (fs_id, language, key) = Some value)
        ∧ (∀ i language key,
             i ≠ fs_id ∨ (∀ value, ¬ holds cleaned language key value) →
             meta (db w') !! (i, language, key)
             = meta (db w) !! (i, language, key)).
Proof.
  intros cleaned. unfold Archive._save_metadata. fold cleaned.
  destruct (save_sections_spec fs_id (map_to_list cleaned) w)
    as (w' & H & Hsame & Hin & Hout); [apply NoDup_fst_map_to_list|].
  exists w'. split_and!.
  - by rewrite (bind_Ok_eq _ _ w () w').
  - done.
  - intros language key value (section & Hs & Hk).
    eapply Hin; [|done]. by apply elem_of_map_to_list.
  - intros i language key Hcase. apply Hout.
    intros language' section key' Hls [value Hk] [= -> -> ->].
    apply elem_of_map_to_list in Hls.
    destruct Hcase as [?|Hno]; [done|]. apply (Hno value). by exists section.
Qed.

Lemma holds_strip self metadata language key value :
  holds ((λ section, Archive._strip self section None) <$> metadata)
    language key value ↔
  holds metadata language key value ∧ key ∈ Archive.keys self None.
Proof.
  unfold holds. setoid_rewrite lookup_fmap. split.
  - intros (section & Hs & Hk).
    destruct (metadata !! language) as [s0|]; simplify_eq/=.
    unfold Archive._strip in Hk.
    apply map_lookup_filter_Some in Hk as [Hk Hkey]. eauto.
  - intros [(section & Hs & Hk) Hkey]. rewrite Hs. simpl.
    eexists. split; [done|]. unfold Archive._strip.
    by apply map_lookup_filter_Some.
Qed.

(** X9: [_save_metadata] never fails and returns the metadata stripped
    of the keys that are not valid. It stores under the id of the node
    exactly the entries it returns, which are the entries given whose key
    is valid; every other entry of the [meta] table, also an older entry
    of the same node, is left as it was, and so are the [fs] table, the
    cache, the tasks, the events and the calls. *)
Theorem _save_metadata_stores self fs_id metadata w :
  ∃ cleaned w',
    Archive._save_metadata self fs_id metadata w = Ok cleaned w'
    ∧ same_but_meta w w'
    ∧ (∀ language key value,
         holds cleaned language key value ↔
         holds metadata language key value ∧ key ∈ Archive.keys self None)
    ∧ (∀ language key value,
         holds cleaned language key value →
         meta (db w') !! (fs_id, language, key) = Some value)
    ∧ (∀ i language key,
         i ≠ fs_id ∨ (∀ value, ¬ holds cleaned language key value) →
         meta (db w') !! (i, language, key)
         = meta (db w) !! (i, language, key)).
Proof.
  destruct (_save_metadata_spec self fs_id metadata w)
    as (w' & H & Hsame & Hin & Hout).
  eexists _, w'. split_and!; [exact H|done| |done|done].
  intros. apply holds_strip.
Qed.

Lemma _save_metadata_stores_witness :
  ∃ cleaned w',
    Archive._save_metadata titled_archive 7 sample_metadata empty_world
    = Ok cleaned w'
    ∧ holds cleaned "en" "title" "T"
    ∧ meta (db w') !! (7, "en", "title") = Some "T"
    ∧ meta (db w') !! (7, "en", "bogus") = None.
Proof.
  destruct (_save_metadata_stores titled_archive 7 sample_metadata
              empty_world) as (cleaned & w' & H & _ & Hiff & Hin & Hout).
  exists cleaned, w'.
  assert (holds cleaned "en" "title" "T") as Hheld.
  { apply Hiff. split; [|by_evaluation].
    eexists. split; vm_compute; reflexivity. }
  split_and!; [exact H|exact Hheld|by apply Hin|].
  rewrite Hout; [done|]. right. intros value Hv.
  apply Hiff in Hv as [_ Hkey]. revert Hkey. by_evaluation.
Defined.

(** ** What an analysis leaves *)

Lemma published_all_nil w : published_all [] w = w.
Proof. destruct w. unfold published_all. simpl. by rewrite app_nil_r. Qed.

Lemma published_all_app evs1 evs2 w :
  published_all evs2 (published_all evs1 w) = published_all (evs1 ++ evs2) w.
Proof. unfold published_all. simpl. by rewrite app_assoc. Qed.

Lemma scheduled_all_nil w : scheduled_all [] w = w.
Proof. destruct w. unfold scheduled_all. simpl. by rewrite app_nil_r. Qed.

Lemma scheduled_all_app tks1 tks2 w :
  scheduled_all tks2 (scheduled_all tks1 w) = scheduled_all (tks1 ++ tks2) w.
Proof. unfold scheduled_all. simpl. by rewrite app_assoc. Qed.

Lemma run_processors_spec procs path partial : ∀ data w,
  Archive.run_processors procs path partial data w
  = Ok (fold_left (λ data proc_cls, process_file proc_cls path data partial)
                  procs data)
       (published_all
          (map (λ proc_cls, (path, ContentTypes.to_bitmask [name proc_cls]))
               (filter (λ proc_cls, is_entry_point proc_cls path = true)
                       procs)) w).
Proof.
  induction procs as [|proc procs IH]; intros data w.
  - simpl. by rewrite published_all_nil.
  - cbn [Archive.run_processors fold_left].
    destruct (is_entry_point proc path) eqn:Hentry.
    + rewrite filter_cons_True by done.
      erewrite bind_Ok_eq; [|reflexivity]. rewrite IH. f_equal.
      unfold published_all, Archive.published. simpl.
      by rewrite <- app_assoc.
    + rewrite filter_cons_False by (by rewrite Hentry).
      erewrite bind_Ok_eq; [|reflexivity]. by rewrite IH.
Qed.

Lemma _analyze_spec self path partial w :
  Archive._analyze self path partial w
  = Ok (analysis self partial path)
       (published_all (entry_points self path) w).
Proof.
  unfold Archive._analyze.
  by rewrite (bind_Ok_eq _ _ _ _ _ (run_processors_spec _ _ _ _ _)).
Qed.

Lemma analyze_each_result self partial paths : ∀ w,
  ∃ d, Archive.analyze_each self paths partial w
       = Ok d (published_all (flat_map (entry_points self) paths) w)
       ∧ ∀ p, d !! p = if bool_decide (p ∈ paths)
                       then Some (analysis self partial p) else None.
Proof.
  induction paths as [|path paths IH]; intros w.
  - exists ∅. simpl. rewrite published_all_nil. split; [done|].
    intros p. by rewrite lookup_empty.
  - cbn [Archive.analyze_each flat_map].
    rewrite (bind_Ok_eq _ _ _ _ _ (_analyze_spec _ _ _ _)).
    destruct (IH (published_all (entry_points self path) w)) as (d & H & Hd).
    rewrite (bind_Ok_eq _ _ _ _ _ H). rewrite published_all_app.
    eexists. split; [reflexivity|]. intros p.
    destruct (d !! p) as [v|] eqn:E.
    + rewrite (lookup_union_Some_l _ _ _ _ E). rewrite Hd in E.
      case_bool_decide as Hin; [|done].
      rewrite bool_decide_eq_true_2 by (by right). done.
    + rewrite lookup_union_r by done. rewrite Hd in E.
      case_bool_decide as Hin; [done|].
      destruct (decide (p = path)) as [->|Hne].
      * rewrite lookup_singleton_eq.
        by rewrite bool_decide_eq_true_2 by left.
      * rewrite lookup_singleton_ne by done.
        rewrite bool_decide_eq_false_2; [done|].
        by intros [?|?]%elem_of_cons.
Qed.

Lemma analyze_batches_result self partial batches : ∀ acc w,
  ∃ d, Batched.run_batches (Archive.analyze_batch self partial None)
         batches acc w
       = Ok d (published_all
                 (flat_map (entry_points self) (concat batches)) w)
       ∧ ∀ p, d !! p = if bool_decide (p ∈ concat batches)
                       then Some (analysis self partial p) else acc !! p.
Proof.
  induction batches as [|b batches IH]; intros acc w.
  - exists acc. simpl. rewrite published_all_nil. done.
  - cbn [Batched.run_batches concat].
    destruct (analyze_each_result self partial b w) as (r & Hr & Hrd).
    change (Archive.analyze_batch self partial None b)
      with (Archive.analyze_each self b partial).
    rewrite (bind_Ok_eq _ _ _ _ _ Hr).
    destruct (IH (r ∪ acc) (published_all (flat_map (entry_points self) b) w))
      as (d & H & Hd).
    exists d. rewrite H, published_all_app, flat_map_app. split; [done|].
    intros p. rewrite Hd.
    case_bool_decide as Hrest.
    + rewrite bool_decide_eq_true_2; [done|].
      apply elem_of_app. by right.
    + destruct (r !! p) as [v|] eqn:E.
      * rewrite (lookup_union_Some_l _ _ _ _ E). rewrite Hrd in E.
        case_bool_decide as Hin; [|done].
        rewrite bool_decide_eq_true_2; [done|].
        apply elem_of_app. by left.
      * rewrite lookup_union_r by done. rewrite Hrd in E.
        case_bool_decide as Hin; [done|].
        rewrite bool_decide_eq_false_2; [done|].
        by intros [?|?]%elem_of_app.
Qed.

Lemma analyze_blocking_spec self paths partial w :
  ∃ d, Archive.analyze self paths partial None w
       = Ok d (published_all (flat_map (entry_points self) paths) w)
       ∧ ∀ p, d !! p = if bool_decide (p ∈ paths)
                       then Some (analysis self partial p) else None.
Proof.
  unfold Archive.analyze, Batched.batched.
  destruct (analyze_batches_result self partial (Batched.chunks 10 paths)
              ∅ w) as (d & H & Hd).
  rewrite chunks_concat in H, Hd. exists d. split; [done|].
  intros p. rewrite Hd. by rewrite lookup_empty.
Qed.

(** X11: a blocking [analyze] never fails. It returns, for each of the
    paths and for no other path, what the processors of the path gather
    into an empty dict; it publishes one event for each processor a path
    is an entry point of, in the order of the paths, and leaves the
    store, the cache, the tasks and the calls as they were. *)
Theorem analyze_blocking_result self paths partial w :
  ∃ d, Archive.analyze self paths partial None w
       = Ok d (published_all (flat_map (entry_points self) paths) w)
       ∧ dom d = list_to_set paths
       ∧ ∀ p, d !! p = if bool_decide (p ∈ paths)
                       then Some (analysis self partial p) else None.
Proof.
  destruct (analyze_blocking_spec self paths partial w) as (d & H & Hd).
  exists d. split_and!; [done| |done].
  apply set_eq. intros p. rewrite elem_of_dom, elem_of_list_to_set, Hd.
  case_bool_decide; split; try done; by intros [? ?].
Qed.

Lemma analyze_scheduled_spec self partial cb batches : ∀ acc w,
  Batched.run_batches (Archive.analyze_batch self partial (Some cb))
    batches acc w
  = Ok acc (scheduled_all (map (λ b, AnalyzeTask b partial cb) batches) w).
Proof.
  induction batches as [|b batches IH]; intros acc w.
  - simpl. by rewrite scheduled_all_nil.
  - cbn [Batched.run_batches map].
    assert (Archive.analyze_batch self partial (Some cb) b w
            = Ok ∅ (scheduled_all [AnalyzeTask b partial cb] w)) as Hb
      by done.
    rewrite (bind_Ok_eq _ _ _ _ _ Hb), IH, scheduled_all_app.
    by rewrite (left_id_L ∅ (∪)).
Qed.

(** X12: with a callback, [analyze] analyses nothing in the call: it
    returns the empty dict and hands the paths, batch by batch and in
    their order, to the task executor, each batch with the callback and
    the [partial] flag; no event is published and the store, the cache
    and the calls are as they were. *)
Theorem analyze_with_callback self paths partial cb w :
  Archive.analyze self paths partial (Some cb) w
  = Ok ∅ (scheduled_all
            (map (λ b, AnalyzeTask b partial cb) (Batched.chunks 10 paths))
            w)
  ∧ concat (Batched.chunks 10 paths) = paths.
Proof.
  split; [|apply chunks_concat].
  unfold Archive.analyze, Batched.batched. apply analyze_scheduled_spec.
Qed.
(** ** Scanning *)

(** One level of [_scan] over a folder that can be listed. *)
Lemma _scan_listed self fuel kw w dirs files :
  Archive.list_dir self (scan_target (kw_path kw)) = (true, dirs, files) →
  ∃ metadata,
    let w1 := published_all
                (flat_map (entry_points self) (map rel_path files)) w in
    Archive.analyze self (map rel_path files) (kw_partial kw) None w
    = Ok metadata w1
    ∧ dom metadata = list_to_set (map rel_path files)
    ∧ Archive._scan (S fuel) self kw w
      = match
          match kw_callback kw with
          | Some cb => (Archive.run_callback cb metadata ;; mret []) w1
          | None => Ok [metadata] w1
          end
        with
        | Raise e => Some (Raise e)
        | Ok yielded w2 =>
            if bool_decide (kw_maxdepth kw = Some (kw_depth kw))
            then Some (Ok yielded w2)
            else
              match Archive.scan_dirs (Archive._scan fuel self) dirs
                      (kw_partial kw) (kw_callback kw) (kw_maxdepth kw)
                      (kw_depth kw) (kw_delay kw) w2 with
              | None => None
              | Some (Raise e) => Some (Raise e)
              | Some (Ok more w3) => Some (Ok (yielded ++ more) w3)
              end
        end.
Proof.
  intros Hlist.
  destruct (analyze_blocking_spec self (map rel_path files) (kw_partial kw) w)
    as (metadata & H & Hd).
  exists metadata. split_and!; [exact H| |].
  - apply set_eq. intros p. rewrite elem_of_dom, elem_of_list_to_set, Hd.
    case_bool_decide; split; try done; by intros [? ?].
  - cbn [Archive._scan]. unfold scan_target in Hlist. rewrite Hlist.
    cbn [negb]. by rewrite H.
Qed.

(** X13: a blocking scan limited to the depth it starts at, as
    [_refresh_parent] runs it, visits no subfolder: for a folder that can
    be listed it yields exactly one batch, the analysis of the files of
    the folder, whatever its subfolders are, and touches neither the
    store nor the cache. *)
Theorem scan_at_maxdepth self fuel kw w dirs files :
  Archive.list_dir self (scan_target (kw_path kw)) = (true, dirs, files) →
  kw_callback kw = None →
  kw_maxdepth kw = Some (kw_depth kw) →
  ∃ metadata,
    let w1 := published_all
                (flat_map (entry_points self) (map rel_path files)) w in
    Archive.analyze self (map rel_path files) (kw_partial kw) None w
    = Ok metadata w1
    ∧ dom metadata = list_to_set (map rel_path files)
    ∧ Archive.scan (S fuel) self kw w = Some (Ok [metadata] w1).
Proof.
  intros Hlist Hcb Hmax.
  destruct (_scan_listed self fuel kw w dirs files Hlist)
    as (metadata & H & Hdom & Hscan).
  exists metadata. split_and!; [exact H|exact Hdom|].
  unfold Archive.scan. rewrite Hscan, Hcb.
  by rewrite bool_decide_eq_true_2.
Qed.

Lemma scan_at_maxdepth_witness :
  ∃ metadata,
    dom metadata = list_to_set ["f.txt"]
    ∧ Archive.scan 1 sample_archive (ScanKwargs None true None (Some 0%nat) 0 0)
        empty_world
      = Some (Ok [metadata]
                (published_all
                   (flat_map (entry_points sample_archive) ["f.txt"])
                   empty_world)).
Proof.
  destruct (scan_at_maxdepth sample_archive 0
              (ScanKwargs None true None (Some 0%nat) 0 0) empty_world
              [Fso "x"; Fso "bad"; Fso "y"] [Fso "f.txt"])
    as (metadata & _ & Hdom & Hscan); [reflexivity..|].
  exists metadata. split; [exact Hdom|exact Hscan].
Defined.

Lemma scan_dirs_callback rec partial cb maxdepth depth delay dirs : ∀ w,
  Archive.scan_dirs rec dirs partial (Some cb) maxdepth depth delay w
  = Some (Ok [] (scheduled_all
                   (subfolder_scans dirs partial (Some cb) maxdepth depth
                      delay) w)).
Proof.
  induction dirs as [|fso dirs IH]; intros w.
  - simpl. by rewrite scheduled_all_nil.
  - cbn [Archive.scan_dirs]. rewrite IH. do 2 f_equal.
    unfold scheduled_all, Archive.scheduled, subfolder_scans. simpl.
    by rewrite <- app_assoc.
Qed.

(** X14: with the archive's own [save] as callback, a scan of a folder
    that can be listed fails with [KeyError] once the files of the folder
    are analysed, unless one of them is named ['path']: the callback is
    handed the mapping from paths to views, in which [save] looks for the
    path of a node. Nothing is yielded, and no subfolder is scanned or
    handed to the task executor. *)
Theorem scan_with_save_callback_raises self fuel kw w dirs files :
  Archive.list_dir self (scan_target (kw_path kw)) = (true, dirs, files) →
  kw_callback kw = Some SaveCallback →
  "path" ∉ map rel_path files →
  Archive.scan (S fuel) self kw w = Some (Raise KeyError).
Proof.
  intros Hlist Hcb Hfiles.
  destruct (_scan_listed self fuel kw w dirs files Hlist)
    as (metadata & _ & Hdom & Hscan).
  unfold Archive.scan. rewrite Hscan, Hcb. clear Hscan.
  assert (metadata !! "path" = None) as Hnone.
  { apply not_elem_of_dom. rewrite Hdom.
    by intros ?%elem_of_list_to_set. }
  rewrite (bind_Raise (Archive.run_callback SaveCallback metadata) _ _
             KeyError); [done|].
  unfold Archive.run_callback. by rewrite Hnone.
Qed.

Lemma scan_with_save_callback_raises_witness :
  Archive.scan 1 sample_archive
    (ScanKwargs None false (Some SaveCallback) None 0 5) empty_world
  = Some (Raise KeyError).
Proof.
  apply (scan_with_save_callback_raises sample_archive 0
           (ScanKwargs None false (Some SaveCallback) None 0 5) empty_world
           [Fso "x"; Fso "bad"; Fso "y"] [Fso "f.txt"]).
  - reflexivity.
  - reflexivity.
  - by_evaluation.
Defined.

Lemma scan_dirs_total rec partial maxdepth depth delay dirs : ∀ w,
  (∀ fso w, fso ∈ dirs →
     ∃ yielded w',
       rec (ScanKwargs (Some (rel_path fso)) partial None maxdepth
              (S depth) delay) w = Some (Ok yielded w')) →
  ∃ yielded w',
    Archive.scan_dirs rec dirs partial None maxdepth depth delay w
    = Some (Ok yielded w').
Proof.
  induction dirs as [|fso dirs IH]; intros w Hrec.
  - simpl. eauto.
  - cbn [Archive.scan_dirs].
    destruct (Hrec fso w) as (ys & w1 & ->); [left|].
    destruct (IH w1) as (more & w2 & ->); [|eauto].
    intros fso' w' Hin. apply Hrec. by right.
Qed.

(** X15: a blocking scan with a depth limit [m] that starts at a depth
    not beyond the limit ends, and never fails: [m - depth + 1] levels of
    recursion, or any more, are enough for it to run to its end, whatever
    the tree of folders is. *)
Theorem scan_ends_within_maxdepth self m fuel : ∀ kw w,
  kw_callback kw = None →
  kw_maxdepth kw = Some m →
  (kw_depth kw ≤ m)%nat →
  (m - kw_depth kw < fuel)%nat →
  ∃ yielded w', Archive.scan fuel self kw w = Some (Ok yielded w').
Proof.
  unfold Archive.scan.
  induction fuel as [|fuel IH]; intros kw w Hcb Hmax Hle Hfuel; [lia|].
  destruct (Archive.list_dir self (scan_target (kw_path kw)))
    as [[[] dirs] files] eqn:Hlist.
  - destruct (_scan_listed self fuel kw w dirs files Hlist)
      as (metadata & _ & _ & ->).
    rewrite Hcb.
    case_bool_decide as Hdepth; [eauto|].
    edestruct (scan_dirs_total (Archive._scan fuel self) (kw_partial kw)
                 (kw_maxdepth kw) (kw_depth kw) (kw_delay kw) dirs)
      as (more & w3 & ->); [|eauto].
    assert (kw_depth kw ≠ m) by (intros <-; by rewrite Hmax in Hdepth).
    intros fso w0 _. apply IH; simpl; [done|done|lia|lia].
  - rewrite _scan_invalid; [eauto|]. by rewrite Hlist.
Qed.

Lemma scan_ends_within_maxdepth_witness :
  ∃ yielded w',
    Archive.scan 2 sample_archive (ScanKwargs None true None (Some 1%nat) 0 0)
      empty_world = Some (Ok yielded w').
Proof.
  apply (scan_ends_within_maxdepth sample_archive 1 2
           (ScanKwargs None true None (Some 1%nat) 0 0) empty_world);
    simpl; [reflexivity|reflexivity|lia|lia].
Defined.

(** ** Reading from the archive *)

Lemma select_meta_rows paths bitmask d r :
  r ∈ Db_join.select_meta_in_order_by_path paths bitmask d →
  ∃ c, fs d !! r_path r = Some c
       ∧ r_id r = c_id c ∧ r_parent_id r = c_parent_id c
       ∧ r_type r = c_type c ∧ r_content_types r = c_content_types c.
Proof.
  unfold Db_join.select_meta_in_order_by_path.
  intros (rs & Hr & Hrs)%elem_of_concat.
  apply list_elem_of_fmap in Hrs as ([p c] & -> & Hpc).
  rewrite merge_sort_Permutation in Hpc.
  apply list_elem_of_omap in Hpc as (q & _ & Hq).
  assert (fs d !! p = Some c) as Hc.
  { destruct (fs d !! q) as [c'|] eqn:E; [|done]. simpl in Hq.
    destruct bitmask as [b|];
      [destruct (ContentTypes.contains _ _)|]; by simplify_eq. }
  exists c. unfold Db_join.join_fs_row in Hr.
  destruct (Db_join.meta_of _ _) as [|m ms].
  - apply list_elem_of_singleton in Hr as ->. done.
  - apply list_elem_of_fmap in Hr as (m' & -> & _). done.
Qed.

Lemma dict_by_path_lookup metas : ∀ w d w' p v,
  Archive.dict_by_path metas w = Ok d w' →
  d !! p = Some v → v ∈ metas ∧ Archive.attr_path v = Some p.
Proof.
  induction metas as [|meta metas IH]; intros w d w' p v H Hv; simpl in H.
  - unfold_M; simplify_eq; by rewrite lookup_empty in Hv.
  - destruct (Archive.attr_path meta) as [q|] eqn:Hq; [|done].
    apply bind_Ok in H as (d0 & w0 & H0 & H). unfold_M. simplify_eq.
    apply lookup_union_Some_raw in Hv as [Hv|[_ Hv]].
    + destruct (IH _ _ _ _ _ H0 Hv) as [Hin Hp]. split; [by right|done].
    + apply lookup_singleton_Some in Hv as [<- <-]. split; [left|done].
Qed.

Lemma reconstructed_shows rows v p :
  v ∈ Archive._reconstruct_meta rows → Archive.attr_path v = Some p →
  ∃ row, row ∈ rows ∧ r_path row = p
         ∧ v !! Some "path" = Some (VStr p)
         ∧ v !! Some "id" = Some (VInt (r_id row))
         ∧ v !! Some "parent_id" = Some (VInt (r_parent_id row))
         ∧ v !! Some "type" = Some (VType (r_type row))
         ∧ v !! Some "content_types" = Some (VInt (r_content_types row)).
Proof.
  rewrite _reconstruct_meta_eq. intros Hv Hp.
  apply list_elem_of_In, in_map_iff in Hv as ([key run] & <- & Hg).
  apply list_elem_of_In in Hg. simpl in *.
  destruct (view_of_spec key run)
    as (Hlast & Hpath & Hid & Hpid & Hty & Hct & _).
  unfold Archive.attr_path in Hp. rewrite Hpath in Hp. simplify_eq.
  apply last_Some_elem_of in Hlast.
  exists (default run.1 (last run.2)). split_and!; try done.
  - rewrite <- (groupby_concat rows). apply elem_of_concat.
    exists (run.1 :: run.2). split; [done|].
    apply list_elem_of_In, in_map_iff. exists (p, run).
    split; [done|]. by apply list_elem_of_In.
  - pose proof (groupby_keys rows) as Hk.
    rewrite Forall_forall in Hk. specialize (Hk _ Hg). simpl in Hk.
    rewrite Forall_forall in Hk. by apply Hk.
Qed.

Lemma found_views_show paths bitmask w data w' p v :
  Archive.dict_by_path
    (Archive._reconstruct_meta
       (Db_join.select_meta_in_order_by_path paths bitmask (db w))) w
  = Ok data w' →
  data !! p = Some v →
  ∃ c, fs (db w) !! p = Some c ∧ shows v p c.
Proof.
  intros H Hv. destruct (dict_by_path_lookup _ _ _ _ _ _ H Hv) as [Hin Hp].
  destruct (reconstructed_shows _ _ _ Hin Hp)
    as (row & Hrow & Hpath & Hvp & Hid & Hpid & Hty & Hct).
  destruct (select_meta_rows _ _ _ _ Hrow) as (c & Hc & E1 & E2 & E3 & E4).
  exists c. rewrite Hpath in Hc. split; [done|].
  unfold shows. by rewrite <- E1, <- E2, <- E3, <- E4.
Qed.

Lemma keep_supported_spec self (content_type : option ContentTypes.tag)
    paths p :
  p ∈ match content_type with
      | Some ct => Archive._keep_supported self paths ct
      | None => paths
      end ↔ p ∈ paths ∧ supported self content_type p.
Proof.
  destruct content_type as [ct|]; simpl; [|tauto].
  unfold Archive._keep_supported. rewrite list_elem_of_filter. tauto.
Qed.

Lemma get_batch_existing self content_type partial paths w :
  ∃ d, Archive.get_batch self content_type partial true paths w = Ok d w
       ∧ (∀ p, p ∈ dom d ↔
               p ∈ paths ∧ supported self content_type p
               ∧ ∃ c, fs (db w) !! p = Some c ∧ selected content_type c)
       ∧ (∀ p v, d !! p = Some v →
                 ∃ c, fs (db w) !! p = Some c ∧ shows v p c).
Proof.
  unfold Archive.get_batch.
  pose proof (keep_supported_spec self content_type paths) as Hsup.
  set (paths' := match content_type with
                 | Some ct => Archive._keep_supported self paths ct
                 | None => paths
                 end) in *.
  destruct (_ && _) eqn:Hempty.
  { apply andb_prop in Hempty as [_ Hnil%bool_decide_eq_true].
    exists ∅. split_and!; [done| |].
    - intros p. rewrite dom_empty_L. split; [by intros ?%elem_of_empty|].
      intros (Hp & Hs & _). assert (p ∈ paths') as Hin by by apply Hsup.
      rewrite Hnil in Hin. by apply elem_of_nil in Hin.
    - intros p v Hv. by rewrite lookup_empty in Hv. }
  set (bitmask := (λ ct, ContentTypes.to_bitmask [ct]) <$> content_type).
  destruct (found_views paths' bitmask w) as (data & Hdata & Hdom).
  exists data. split_and!.
  - rewrite (bind_Ok_eq _ _ w _ w (eq_refl : db_fetchiter_join _ _ w = _)).
    by rewrite (bind_Ok_eq _ _ _ _ _ Hdata).
  - intros p. rewrite Hdom, select_meta_paths, Hsup.
    unfold selected, bitmask. destruct content_type; simpl; tauto.
  - intros p v. exact (found_views_show _ _ _ _ _ _ _ Hdata).
Qed.

Section readonly.
Context (f : list string → M (gmap string pydict)) (w : world).
Context (D : string → Prop) (P : string → pydict → Prop).
Hypothesis f_spec : ∀ b,
  ∃ d, f b w = Ok d w
       ∧ (∀ p, p ∈ dom d ↔ p ∈ b ∧ D p)
       ∧ (∀ p v, d !! p = Some v → P p v).

Lemma run_batches_readonly batches : ∀ acc,
  ∃ d, Batched.run_batches f batches acc w = Ok d w
       ∧ (∀ p, p ∈ dom d ↔ (p ∈ concat batches ∧ D p) ∨ p ∈ dom acc)
       ∧ (∀ p v, d !! p = Some v → P p v ∨ acc !! p = Some v).
Proof.
  induction batches as [|b batches IH]; intros acc.
  - exists acc. split_and!; [done| |by right].
    intros p. simpl. split; [by right|].
    intros [[Hp _]|?]; [by apply elem_of_nil in Hp|done].
  - destruct (f_spec b) as (r & Hr & Hdom & HP).
    destruct (IH (r ∪ acc)) as (d & H & Hd & HdP).
    exists d. cbn [Batched.run_batches concat].
    rewrite (bind_Ok_eq _ _ _ _ _ Hr). split_and!; [done| |].
    + intros p. rewrite Hd, dom_union, elem_of_union, Hdom, elem_of_app.
      tauto.
    + intros p v Hv. destruct (HdP p v Hv) as [?|Hu]; [by left|].
      apply lookup_union_Some_raw in Hu as [Hu|[_ Hu]]; eauto.
Qed.
End readonly.

(** X16: [get] with [ignore_missing] set only reads: it never fails and
    leaves the world as it is. Its keys are exactly the requested paths
    that have a row in the store and, when a content type is given, that
    the processor of the type can process and whose row carries the bit
    of the type; the view of each path shows the path and the [id],
    [parent_id], [type] and [content_types] of its row. *)
Theorem get_ignore_missing_reads self paths content_type partial w :
  ∃ d, Archive.get self paths content_type partial true w = Ok d w
       ∧ (∀ p, p ∈ dom d ↔
               p ∈ paths ∧ supported self content_type p
               ∧ ∃ c, fs (db w) !! p = Some c ∧ selected content_type c)
       ∧ (∀ p v, d !! p = Some v →
                 ∃ c, fs (db w) !! p = Some c ∧ shows v p c).
Proof.
  unfold Archive.get, Batched.batched.
  destruct (run_batches_readonly
              (Archive.get_batch self content_type partial true) w
              (λ p, supported self content_type p
                    ∧ ∃ c, fs (db w) !! p = Some c ∧ selected content_type c)
              (λ p v, ∃ c, fs (db w) !! p = Some c ∧ shows v p c)
              (λ b, get_batch_existing self content_type partial b w)
              (Batched.chunks 999 paths) ∅) as (d & H & Hdom & HP).
  rewrite chunks_concat in Hdom. exists d. split_and!; [done| |].
  - intros p. rewrite Hdom, dom_empty. split; [|by left].
    intros [?|?%elem_of_empty]; done.
  - intros p v Hv. destruct (HP p v Hv) as [?|Hacc]; [done|].
    by rewrite lookup_empty in Hacc.
Qed.

Lemma get_ignore_missing_reads_witness :
  ∃ d,
    Archive.get sample_archive ["a"; "b"] None true true world_with_a
    = Ok d world_with_a
    ∧ "a" ∈ dom d ∧ "b" ∉ dom d.
Proof.
  destruct (get_ignore_missing_reads sample_archive ["a"; "b"] None true
              world_with_a) as (d & H & Hdom & _).
  exists d. split_and!; [exact H| |].
  - apply Hdom. split_and!; [by_evaluation|exact I|].
    eexists. split; [vm_compute; reflexivity|exact I].
  - intros (_ & _ & c & Hc & _)%Hdom. vm_compute in Hc. discriminate.
Defined.
Lemma same_store_refl w : same_store w w.
Proof. by repeat split. Qed.

Lemma same_store_trans w1 w2 w3 :
  same_store w1 w2 → same_store w2 w3 → same_store w1 w3.
Proof.
  intros (? & ? & ?) (? & ? & ?). repeat split; congruence.
Qed.

Section frame.
Context (f : list string → M (gmap string pydict)).
Context (Q : world → world → Prop) (D : string → Prop).
Hypothesis Q_refl : ∀ w, Q w w.
Hypothesis Q_trans : ∀ w1 w2 w3, Q w1 w2 → Q w2 w3 → Q w1 w3.
Hypothesis f_spec : ∀ b w,
  ∃ d w', f b w = Ok d w' ∧ Q w w' ∧ ∀ p, p ∈ dom d ↔ p ∈ b ∧ D p.

Lemma run_batches_frame batches : ∀ acc w,
  ∃ d w', Batched.run_batches f batches acc w = Ok d w'
          ∧ Q w w'
          ∧ ∀ p, p ∈ dom d ↔ (p ∈ concat batches ∧ D p) ∨ p ∈ dom acc.
Proof.
  induction batches as [|b batches IH]; intros acc w.
  - exists acc, w. split_and!; [done|done|].
    intros p. simpl. split; [by right|].
    intros [[Hp _]|?]; [by apply elem_of_nil in Hp|done].
  - destruct (f_spec b w) as (r & w1 & Hr & HQ & Hdom).
    destruct (IH (r ∪ acc) w1) as (d & w' & H & HQ' & Hd).
    exists d, w'. cbn [Batched.run_batches concat].
    rewrite (bind_Ok_eq _ _ _ _ _ Hr). split_and!; [done|by eauto|].
    intros p. rewrite Hd, dom_union, elem_of_union, Hdom, elem_of_app.
    tauto.
Qed.
End frame.

Lemma get_batch_partial self content_type paths w :
  ∃ d w', Archive.get_batch self content_type true false paths w = Ok d w'
          ∧ same_store w w'
          ∧ ∀ p, p ∈ dom d ↔ p ∈ paths ∧ supported self content_type p.
Proof.
  unfold Archive.get_batch.
  pose proof (keep_supported_spec self content_type paths) as Hsup.
  set (paths' := match content_type with
                 | Some ct => Archive._keep_supported self paths ct
                 | None => paths
                 end) in *.
  destruct (_ && _) eqn:Hempty.
  { apply andb_prop in Hempty as [_ Hnil%bool_decide_eq_true].
    exists ∅, w. split_and!; [done|apply same_store_refl|].
    intros p. rewrite dom_empty_L, <- Hsup, Hnil.
    split; [by intros ?%elem_of_empty|by intros ?%elem_of_nil]. }
  set (bitmask := (λ ct, ContentTypes.to_bitmask [ct]) <$> content_type).
  destruct (found_views paths' bitmask w) as (data & Hdata & Hdom).
  rewrite (bind_Ok_eq _ _ w _ w (eq_refl : db_fetchiter_join _ _ w = _)).
  rewrite (bind_Ok_eq _ _ _ _ _ Hdata). cbn beta iota.
  set (missing := filter (λ p, data !! p = None) (remove_dups paths')).
  assert (Hkeys : ∀ p, p ∈ missing ∨ p ∈ dom data ↔ p ∈ paths').
  { intros p. unfold missing.
    rewrite list_elem_of_filter, elem_of_remove_dups. split.
    - intros [[_ ?]|Hp]; [done|].
      by apply Hdom, select_meta_paths in Hp as [Hp _].
    - intros Hp. destruct (data !! p) as [v|] eqn:Hv; [right|by left].
      apply elem_of_dom. by rewrite Hv. }
  clear Hempty. case_bool_decide as Hmissing.
  { exists data, w. split_and!; [done|apply same_store_refl|].
    intros p. rewrite <- Hsup, <- Hkeys, Hmissing.
    split; [by right|]. by intros [?%elem_of_nil|?]. }
  destruct (analyze_blocking_spec self missing true
              (scheduled_all
                 (map (λ b, AnalyzeTask b false SaveCallback)
                      (Batched.chunks 10 missing)) w))
    as (partials & Hp & Hpd).
  assert (Archive.analyze self missing false (Some SaveCallback) w
          = Ok ∅ (scheduled_all
                    (map (λ b, AnalyzeTask b false SaveCallback)
                         (Batched.chunks 10 missing)) w)) as Hs.
  { unfold Archive.analyze, Batched.batched. apply analyze_scheduled_spec. }
  rewrite (bind_Ok_eq _ _ _ _ _ Hs), (bind_Ok_eq _ _ _ _ _ Hp).
  eexists _, _. split_and!; [done|by repeat split|].
  intros p. rewrite <- Hsup, <- Hkeys, dom_union, elem_of_union.
  rewrite (elem_of_dom partials), Hpd.
  case_bool_decide; split; try tauto.
  - intros [?|?]; [|by right]. left. by eexists.
  - intros [[? ?]|?]; [done|by right].
Qed.

(** X17: a [get] that asks for partial data never fails and never
    writes: the store, the cache and the calls made are as before, only
    tasks are scheduled and events published. Its keys are exactly the
    requested paths, or those of them the processor of the content type
    can process when one is given. *)
Theorem get_partial_never_writes self paths content_type w :
  ∃ d w', Archive.get self paths content_type true false w = Ok d w'
          ∧ same_store w w'
          ∧ ∀ p, p ∈ dom d ↔ p ∈ paths ∧ supported self content_type p.
Proof.
  unfold Archive.get, Batched.batched.
  destruct (run_batches_frame
              (Archive.get_batch self content_type true false)
              same_store (supported self content_type)
              same_store_refl same_store_trans
              (get_batch_partial self content_type)
              (Batched.chunks 999 paths) ∅ w) as (d & w' & H & HQ & Hdom).
  rewrite chunks_concat in Hdom. exists d, w'. split_and!; [done..|].
  intros p. rewrite Hdom, dom_empty. split; [|by left].
  intros [?|?%elem_of_empty]; done.
Qed.

(** ** A blocking read of a path that is not stored *)

Lemma elem_of_rev {A} (x : A) l : x ∈ rev l ↔ x ∈ l.
Proof. by rewrite !list_elem_of_In, <- in_rev. Qed.

Lemma chunks_go_head {A} n (l : list A) : ∀ room cur,
  cur ≠ [] →
  ∃ b bs, Batched.chunks_go room n cur l = b :: bs
          ∧ (∀ x, x ∈ cur → x ∈ b)
          ∧ (∀ x, x ∈ b → x ∈ cur ∨ x ∈ l).
Proof.
  induction l as [|x l IH]; intros room cur Hcur.
  - cbn [Batched.chunks_go]. destruct cur as [|c cur]; [done|].
    eexists _, _. split; [done|].
    split; intros y; rewrite elem_of_rev; auto.
  - cbn [Batched.chunks_go]. destruct room as [|room].
    + eexists _, _. split; [done|].
      split; intros y; rewrite elem_of_rev; auto.
    + destruct (IH room (x :: cur)) as (b & bs & -> & Hin & Hsub); [done|].
      exists b, bs. split_and!; [done| |].
      * intros y Hy. apply Hin. by right.
      * intros y Hy. destruct (Hsub y Hy) as [[->|?]%elem_of_cons|?].
        -- right. left.
        -- by left.
        -- right. by right.
Qed.

Lemma chunks_head {A} n (p : A) rest :
  ∃ b bs, Batched.chunks (S n) (p :: rest) = b :: bs
          ∧ p ∈ b ∧ ∀ x, x ∈ b → x ∈ p :: rest.
Proof.
  unfold Batched.chunks. cbn [Batched.chunks_go].
  destruct (chunks_go_head (S n) rest n [p]) as (b & bs & -> & Hin & Hsub);
    [done|].
  exists b, bs. split_and!; [done|apply Hin; left|].
  intros x Hx. destruct (Hsub x Hx) as [->%list_elem_of_singleton|?].
  - left.
  - by right.
Qed.

Lemma save_without_path self data w :
  data !! Some "path" = None → Archive.save self data w = Raise KeyError.
Proof. intros H. unfold Archive.save. by rewrite H. Qed.

(** X18: a blocking [get] of full data (neither [partial] nor
    [ignore_missing]) fails with [KeyError] when the first of the paths
    has no row in the store and the processors gather no ['path'] into
    the data of any of the paths: the data of a missing path goes to
    [save] as the processors left it, and [save] reads the path of the
    node from it. *)
Theorem get_blocking_needs_path self p rest w :
  fs (db w) !! p = None →
  (∀ q, q ∈ p :: rest → analysis self false q !! Some "path" = None) →
  Archive.get self (p :: rest) None false false w = Raise KeyError.
Proof.
  intros Hrow Hnopath. unfold Archive.get, Batched.batched.
  destruct (chunks_head 998 p rest) as (b & bs & -> & Hp & Hb).
  cbn [Batched.run_batches]. apply bind_Raise.
  unfold Archive.get_batch.
  rewrite (bool_decide_eq_false_2 (is_Some None)) by (by intros [? ?]).
  cbn [andb fmap option_fmap option_map].
  destruct (found_views b None w) as (data & Hdata & Hdom).
  rewrite (bind_Ok_eq _ _ w _ w (eq_refl : db_fetchiter_join _ _ w = _)).
  rewrite (bind_Ok_eq _ _ _ _ _ Hdata). cbn beta iota.
  set (missing := filter (λ p, data !! p = None) (remove_dups b)).
  assert (p ∈ missing) as Hmiss.
  { unfold missing. apply list_elem_of_filter.
    split; [|by apply elem_of_remove_dups].
    apply not_elem_of_dom. intros Hin.
    apply Hdom, select_meta_paths in Hin as (_ & c & Hc & _). congruence. }
  rewrite bool_decide_eq_false_2
    by (intros Hnil; rewrite Hnil in Hmiss; by apply elem_of_nil in Hmiss).
  destruct (analyze_blocking_spec self missing false w) as (metas & H & Hd).
  rewrite (bind_Ok_eq _ _ _ _ _ H). apply bind_Raise.
  unfold Archive.save_many.
  destruct (map_to_list metas) as [|[q data0] l] eqn:Hl.
  { apply map_to_list_empty_iff in Hl. subst metas.
    specialize (Hd p). rewrite lookup_empty in Hd.
    by rewrite bool_decide_eq_true_2 in Hd. }
  assert (metas !! q = Some data0) as Hq.
  { apply elem_of_map_to_list. rewrite Hl. left. }
  rewrite Hd in Hq. case_bool_decide as Hin; [|done]. simplify_eq.
  cbn [fmap list_fmap snd for_each]. apply bind_Raise, bind_Raise.
  apply save_without_path, Hnopath, Hb.
  unfold missing in Hin. apply list_elem_of_filter in Hin as [_ Hin].
  by apply elem_of_remove_dups.
Qed.

Lemma get_blocking_needs_path_witness :
  Archive.get sample_archive ["b"; "a"] None false false world_with_a
  = Raise KeyError.
Proof.
  apply (get_blocking_needs_path sample_archive "b" ["a"] world_with_a).
  - vm_compute. reflexivity.
  - intros q _. reflexivity.
Defined.

(** ** Removing paths *)

Lemma for_each_keeps {A} (Q : world → world → Prop) (body : A → M unit) xs :
  (∀ w, Q w w) → (∀ w1 w2 w3, Q w1 w2 → Q w2 w3 → Q w1 w3) →
  (∀ x w, ∃ w', body x w = Ok () w' ∧ Q w w') →
  ∀ w, ∃ w', for_each xs body w = Ok () w' ∧ Q w w'.
Proof.
  intros Hrefl Htrans Hbody.
  induction xs as [|x xs IH]; intros w; [by exists w|].
  destruct (Hbody x w) as (w1 & H1 & HQ1).
  destruct (IH w1) as (w' & H & HQ).
  exists w'. simpl. rewrite (bind_Ok_eq _ _ _ _ _ H1). eauto.
Qed.

Lemma elem_of_ids_of paths d i :
  i ∈ Db_delete.ids_of paths d ↔
  ∃ p c, p ∈ paths ∧ fs d !! p = Some c ∧ c_id c = i.
Proof.
  unfold Db_delete.ids_of. rewrite list_elem_of_omap. split.
  - intros (p & Hp & Hi). destruct (fs d !! p) as [c|] eqn:E; [|done].
    simpl in Hi. simplify_eq. eauto.
  - intros (p & c & Hp & Hc & <-). exists p. by rewrite Hc.
Qed.

Lemma remove_batch_spec deprocess_file self paths w :
  hook_keeps_store deprocess_file →
  ∃ w', Archive.remove_batch deprocess_file self paths w = Ok () w'
        ∧ cache w' = cache w
        ∧ fs (db w') = filter (λ kv, kv.1 ∉ paths) (fs (db w))
        ∧ meta (db w')
          = filter (λ kv, kv.1.1.1 ∉ Db_delete.ids_of paths (db w))
                   (meta (db w)).
Proof.
  intros Hhook.
  destruct (for_each_keeps (λ w w', db w' = db w ∧ cache w' = cache w)
              (λ path, for_each (Archive.for_path self path)
                         (λ proc_cls, deprocess_file proc_cls path))
              paths) with (w := w) as (w1 & H1 & Hdb & Hcache).
  - done.
  - intros ??? [? ?] [? ?]. split; congruence.
  - intros path w0.
    apply (for_each_keeps (λ w w', db w' = db w ∧ cache w' = cache w)).
    + done.
    + intros ??? [? ?] [? ?]. split; congruence.
    + intros proc_cls w2. apply Hhook.
  - unfold Archive.remove_batch. rewrite (bind_Ok_eq _ _ _ _ _ H1).
    eexists. split; [reflexivity|]. simpl. by rewrite Hdb, Hcache.
Qed.

Lemma remove_batches_spec deprocess_file self batches : ∀ w,
  hook_keeps_store deprocess_file →
  ∃ w', for_each batches (Archive.remove_batch deprocess_file self) w
        = Ok () w'
        ∧ cache w' = cache w
        ∧ (∀ p c, fs (db w') !! p = Some c ↔
                  fs (db w) !! p = Some c ∧ p ∉ concat batches)
        ∧ (∀ k v, meta (db w') !! k = Some v ↔
                  meta (db w) !! k = Some v
                  ∧ k.1.1 ∉ Db_delete.ids_of (concat batches) (db w)).
Proof.
  intros w Hhook. revert w.
  induction batches as [|b batches IH]; intros w.
  - exists w. split_and!; [done..| |].
    + intros p c. simpl. split; [|by intros [? _]].
      intros ?. split; [done|apply not_elem_of_nil].
    + intros k v. simpl. split; [|by intros [? _]].
      intros ?. split; [done|apply not_elem_of_nil].
  - destruct (remove_batch_spec deprocess_file self b w Hhook)
      as (w1 & H1 & Hcache1 & Hfs1 & Hmeta1).
    destruct (IH w1) as (w' & H & Hcache & Hfs & Hmeta).
    exists w'. cbn [for_each concat]. rewrite (bind_Ok_eq _ _ _ _ _ H1).
    assert (∀ p c, fs (db w1) !! p = Some c ↔
                   fs (db w) !! p = Some c ∧ p ∉ b) as Hfs1'.
    { intros p c. rewrite Hfs1. apply map_lookup_filter_Some. }
    split_and!; [done|congruence| |].
    + intros p c. rewrite Hfs, Hfs1', not_elem_of_app. tauto.
    + intros k v. rewrite Hmeta, Hmeta1, map_lookup_filter_Some. simpl.
      rewrite !elem_of_ids_of.
      setoid_rewrite elem_of_app. setoid_rewrite Hfs1'.
      split.
      * intros [[Hk Hb] Hrest]. split; [done|].
        intros (p & c & [Hp|Hp] & Hc & Hi).
        -- apply Hb. eauto.
        -- destruct (decide (p ∈ b)) as [Hin|Hout].
           ++ apply Hb. eauto.
           ++ apply Hrest. eauto 10.
      * intros [Hk Hno]. split_and!; [done| |].
        -- intros (p & c & Hp & Hc & Hi). apply Hno. eauto 10.
        -- intros (p & c & Hp & [Hc _] & Hi). apply Hno. eauto 10.
Qed.

(** X19: with cleanup hooks that return and leave the store and the
    cache alone, [remove] never fails. It deletes the row of each of the
    paths and the meta entries stored under the ids of these rows, and
    nothing else: every other row and every other meta entry is as
    before, so the ancestors of a removed path keep their rows. The cache
    is left as it is. *)
Theorem remove_deletes deprocess_file self paths w :
  hook_keeps_store deprocess_file →
  ∃ w', Archive.remove deprocess_file self paths w = Ok () w'
        ∧ cache w' = cache w
        ∧ (∀ p c, fs (db w') !! p = Some c ↔
                  fs (db w) !! p = Some c ∧ p ∉ paths)
        ∧ (∀ k v, meta (db w') !! k = Some v ↔
                  meta (db w) !! k = Some v
                  ∧ k.1.1 ∉ Db_delete.ids_of paths (db w)).
Proof.
  intros Hhook. unfold Archive.remove.
  destruct (remove_batches_spec deprocess_file self
              (Batched.chunks 999 paths) w Hhook)
    as (w' & H & Hcache & Hfs & Hmeta).
  rewrite chunks_concat in Hfs, Hmeta. by exists w'.
Qed.

Lemma remove_deletes_witness :
  ∃ w',
    Archive.remove no_cleanup titled_archive ["a/b"] world_with_metadata
    = Ok () w'
    ∧ fs (db w') !! "a/b" = None
    ∧ is_Some (fs (db w') !! "a")
    ∧ meta (db w') !! (3, "en", "title") = None
    ∧ meta (db world_with_metadata) !! (3, "en", "title") = Some "T".
Proof.
  destruct (remove_deletes no_cleanup titled_archive ["a/b"]
              world_with_metadata) as (w' & H & _ & Hfs & Hmeta).
  { intros proc_cls path w. by exists w. }
  exists w'. split_and!.
  - exact H.
  - destruct (fs (db w') !! "a/b") as [c|] eqn:E; [|reflexivity].
    apply Hfs in E as [_ E]. exfalso. apply E. left.
  - eexists. apply Hfs. split; [vm_compute; reflexivity|by_evaluation].
  - destruct (meta (db w') !! (3, "en", "title")) as [v|] eqn:E;
      [|reflexivity].
    apply Hmeta in E as [_ E]. exfalso. apply E. by_evaluation.
  - vm_compute. reflexivity.
Defined.

(** X20: a write that follows a [clear] or a [remove] of what an earlier
    write of the same node created is skipped: the chain is still in
    cache, so the write returns the node of the earlier write and leaves
    the world as the delete left it, without a row for the node. *)
Theorem write_after_delete_is_skipped self w res w1 :
  FSWriter.write self w = Ok res w1 →
  (∀ w2, Archive.clear w1 = Ok () w2 →
         FSWriter.write self w2 = Ok res w2 ∧ fs (db w2) = ∅)
  ∧ (∀ deprocess_file archive paths w2,
       hook_keeps_store deprocess_file →
       FSWriter._path self ∈ paths →
       Archive.remove deprocess_file archive paths w1 = Ok () w2 →
       FSWriter.write self w2 = Ok res w2
       ∧ fs (db w2) !! FSWriter._path self = None).
Proof.
  intros H.
  destruct (write_leaves_cached _ _ _ _ H)
    as (Hall & (e & -> & He & Hct) & Hparent).
  assert (∀ w2, cache w2 = cache w1 →
                FSWriter.write self w2 = Ok (FSWriter.Found e) w2) as Hskip.
  { intros w2 Hcache. apply write_cached_hit.
    - intros a Ha. unfold is_cached. rewrite Hcache. by apply Hall.
    - by rewrite Hcache.
    - done.
    - intros Hty. unfold cached_with. rewrite Hcache. by apply Hparent. }
  split.
  - intros w2 Hclear. unfold Archive.clear in Hclear. unfold_M.
    simplify_eq. split; [by apply Hskip|done].
  - intros deprocess_file archive paths w2 Hhook Hin Hremove.
    unfold Archive.remove in Hremove.
    destruct (remove_batches_spec deprocess_file archive
                (Batched.chunks 999 paths) w1 Hhook)
      as (w2' & H2 & Hcache & Hfs & _).
    rewrite chunks_concat in Hfs.
    rewrite H2 in Hremove. simplify_eq. split; [by apply Hskip|].
    destruct (fs (db w2) !! FSWriter._path self) as [c|] eqn:E; [|done].
    by apply Hfs in E as [_ E].
Qed.

Lemma write_after_delete_is_skipped_witness :
  ∃ res w1 w2,
    FSWriter.write text_file empty_world = Ok res w1
    ∧ Archive.clear w1 = Ok () w2
    ∧ FSWriter.write text_file w2 = Ok res w2
    ∧ fs (db w2) = ∅.
Proof.
  assert (returns (FSWriter.write text_file empty_world) = true) as Hret
    by (vm_compute; reflexivity).
  destruct (FSWriter.write text_file empty_world) as [res w1|e] eqn:H;
    [|discriminate Hret].
  destruct (write_after_delete_is_skipped text_file empty_world res w1 H)
    as [Hclear _].
  exists res, w1. eexists. split; [reflexivity|]. split; [reflexivity|].
  apply Hclear. reflexivity.
Defined.
(** ** The children of a folder *)

Lemma children_spec path d p :
  p ∈ Db_children.children path d ↔
  ∃ cp c, fs d !! path = Some cp ∧ fs d !! p = Some c
          ∧ c_parent_id c = c_id cp.
Proof.
  unfold Db_children.children. destruct (fs d !! path) as [cp|].
  - rewrite list_elem_of_fmap. split.
    + intros ([q c] & -> & Hin). apply list_elem_of_filter in Hin as [Hpid Hin].
      apply elem_of_map_to_list in Hin. simpl in *. eauto.
    + intros (cp' & c & [= <-] & Hc & Hpid). exists (p, c). split; [done|].
      apply list_elem_of_filter. split; [done|].
      by apply elem_of_map_to_list.
  - split; [by intros ?%elem_of_nil|]. by intros (? & ? & ? & _).
Qed.

(** X21: [for_parent] only reads: it never fails and leaves the world as
    it is. Its keys are exactly the paths of the rows whose [parent_id]
    is the [id] of the row of the folder, narrowed to the rows carrying
    the bit of the content type when one is given; there is none when
    the folder has no row. The view of each path shows the columns of
    its row. *)
Theorem for_parent_reads self path content_type w :
  ∃ d, Archive.for_parent self path content_type w = Ok d w
       ∧ (∀ p, p ∈ dom d ↔
               ∃ cp c, fs (db w) !! path = Some cp
                       ∧ fs (db w) !! p = Some c
                       ∧ c_parent_id c = c_id cp
                       ∧ selected content_type c)
       ∧ (∀ p v, d !! p = Some v →
                 ∃ c, fs (db w) !! p = Some c ∧ shows v p c).
Proof.
  unfold Archive.for_parent.
  set (bitmask := (λ ct, ContentTypes.to_bitmask [ct]) <$> content_type).
  destruct (found_views (Db_children.children path (db w)) bitmask w)
    as (data & Hdata & Hdom).
  exists data. split_and!.
  - rewrite (bind_Ok_eq _ _ w _ w
               (eq_refl : db_fetchiter_children _ _ w = _)).
    exact Hdata.
  - intros p.
    unfold Db_children.select_children_in_order_by_path.
    rewrite Hdom, select_meta_paths, children_spec.
    unfold selected, bitmask. split.
    + intros ((cp & c & Hcp & Hc & Hpid) & c' & Hc' & Hsel).
      simplify_eq. exists cp, c. by destruct content_type.
    + intros (cp & c & Hcp & Hc & Hpid & Hsel). split; [eauto|].
      exists c. by destruct content_type.
  - intros p v. exact (found_views_show _ _ _ _ _ _ _ Hdata).
Qed.

Lemma for_parent_reads_witness :
  ∃ d,
    Archive.for_parent sample_archive "a/b" (Some ContentTypes.TEXT)
      (world_after (FSWriter.write text_file) empty_world)
    = Ok d (world_after (FSWriter.write text_file) empty_world)
    ∧ "a/b/c.txt" ∈ dom d ∧ "a/b" ∉ dom d.
Proof.
  destruct (for_parent_reads sample_archive "a/b" (Some ContentTypes.TEXT)
              (world_after (FSWriter.write text_file) empty_world))
    as (d & H & Hdom & _).
  exists d. split_and!; [exact H| |].
  - apply Hdom. eexists _, _.
    split_and!; [vm_compute; reflexivity|vm_compute; reflexivity|
                 reflexivity|reflexivity].
  - intros (cp & c & Hcp & Hc & Hpid & _)%Hdom. clear H Hdom.
    vm_compute in Hcp, Hc. injection Hcp as <-. injection Hc as <-.
    discriminate Hpid.
Defined.

(** ** The entry of a folder *)

Lemma get_one_existing self path partial w :
  ∃ d, Archive.get self [path] None partial true w = Ok d w
       ∧ (∀ c, fs (db w) !! path = Some c →
               ∃ v, d !! path = Some v ∧ shows v path c)
       ∧ (fs (db w) !! path = None → d = ∅).
Proof.
  unfold Archive.get, Batched.batched.
  destruct (run_batches_readonly
              (Archive.get_batch self None partial true) w
              (λ p, supported self None p
                    ∧ ∃ c, fs (db w) !! p = Some c ∧ selected None c)
              (λ p v, ∃ c, fs (db w) !! p = Some c ∧ shows v p c)
              (λ b, get_batch_existing self None partial b w)
              (Batched.chunks 999 [path]) ∅) as (d & H & Hdom & HP).
  rewrite chunks_concat in Hdom. exists d. split_and!; [exact H| |].
  - intros c Hc.
    assert (path ∈ dom d) as [v Hv]%elem_of_dom.
    { apply Hdom. left. split; [left|]. split; [done|]. by exists c. }
    exists v. split; [done|].
    destruct (HP _ _ Hv) as [(c' & Hc' & Hshows)|Hacc];
      [|by rewrite lookup_empty in Hacc].
    by simplify_eq.
  - intros Hnone. apply map_empty. intros p.
    apply not_elem_of_dom. intros Hp. apply Hdom in Hp as [Hp|Hp].
    + destruct Hp as (->%list_elem_of_singleton & _ & c & Hc & _).
      congruence.
    + by rewrite dom_empty in Hp.
Qed.

(** X22: for a folder that has a row in the store, [parent] without
    [force_refresh] only reads: it returns the view of that row, showing
    its columns, and leaves the world as it is; no scan is run. *)
Theorem parent_returns_stored content_types_of self path w c :
  fs (db w) !! path = Some c →
  ∃ v, Archive.parent content_types_of self path false w = Some (Ok v w)
       ∧ shows v path c.
Proof.
  intros Hc. unfold Archive.parent.
  destruct (get_one_existing self path true w) as (d & -> & Hstored & _).
  destruct (Hstored c Hc) as (v & Hv & Hshows).
  rewrite bool_decide_eq_false_2.
  - exists v. unfold Archive.item. by rewrite Hv.
  - intros ->. by rewrite lookup_empty in Hv.
Qed.

Lemma parent_returns_stored_witness :
  ∃ v,
    Archive.parent content_types_or_zero sample_archive "a/b" false
      world_with_parent
    = Some (Ok v world_with_parent)
    ∧ shows v "a/b" (FsCols 3 2 DIRECTORY_TYPE 1).
Proof.
  apply (parent_returns_stored content_types_or_zero sample_archive "a/b"
           world_with_parent).
  vm_compute. reflexivity.
Defined.

(** X23: for a folder that cannot be listed, [_refresh_parent] fails
    with [ValueError], the scan yielding no batch to unpack; so does
    [parent] when it is asked to refresh, or when the folder has no row
    in the store. *)
Theorem refresh_unlistable_raises content_types_of self path w :
  (Archive.list_dir self (scan_target (Some path))).1.1 = false →
  Archive._refresh_parent content_types_of self path w
  = Some (Raise ValueError)
  ∧ Archive.parent content_types_of self path true w
    = Some (Raise ValueError)
  ∧ (fs (db w) !! path = None →
     Archive.parent content_types_of self path false w
     = Some (Raise ValueError)).
Proof.
  intros Hlist.
  assert (∀ w0, Archive._refresh_parent content_types_of self path w0
                = Some (Raise ValueError)) as Hrefresh.
  { intros w0. unfold Archive._refresh_parent, Archive.scan.
    by rewrite _scan_invalid. }
  split_and!; [apply Hrefresh|apply Hrefresh|].
  intros Hnone. unfold Archive.parent.
  destruct (get_one_existing self path true w) as (d & -> & _ & Hempty).
  rewrite (Hempty Hnone), bool_decide_eq_true_2 by done. apply Hrefresh.
Qed.

Lemma refresh_unlistable_raises_witness :
  Archive._refresh_parent content_types_or_zero sample_archive "bad"
    empty_world = Some (Raise ValueError)
  ∧ Archive.parent content_types_or_zero sample_archive "bad" false
      empty_world = Some (Raise ValueError).
Proof.
  destruct (refresh_unlistable_raises content_types_or_zero sample_archive
              "bad" empty_world) as (H1 & _ & H3); [reflexivity|].
  split; [exact H1|]. apply H3. reflexivity.
Defined.
(** ** Saving, stamping and refreshing *)

Lemma save_Ok_inv self data w v w' :
  Archive.save self data w = Ok v w' →
  ∃ path ty ct e w1 cleaned,
    data !! Some "path" = Some (VStr path)
    ∧ data !! Some "type" = Some (VType ty)
    ∧ data !! Some "content_types" = Some (VInt ct)
    ∧ FSWriter.write (FSWriter.init path ty ct) w = Ok (FSWriter.Found e) w1
    ∧ Archive._save_metadata self (Fs.id e)
        (match data !! Some "metadata" with
         | Some (VMetadata m) => m
         | _ => ∅
         end) w1 = Ok cleaned w'
    ∧ v = <[Some "metadata" := VMetadata cleaned]> (Archive.dict_of_entry e).
Proof.
  unfold Archive.save. intros H.
  destruct (data !! Some "path") as [[| path | | |]|]; try done;
    destruct (data !! Some "type") as [[| | ty | |]|]; try done;
    destruct (data !! Some "content_types") as [[ct | | | |]|]; try done.
  apply bind_Ok in H as (saved & w1 & Hwrite & H).
  apply bind_Ok in H as (cleaned & w2 & Hmeta & H).
  destruct saved as [e|]; [|done]. unfold_M. simplify_eq.
  by exists path, ty, ct, e, w1, cleaned.
Qed.

Lemma write_coherent p self w res w' :
  coherent p w → FSWriter.write self w = Ok res w' → coherent p w'.
Proof.
  apply (write_inv (coherent p)).
  - intros. by apply coherent_cache_row.
  - intros. by eapply coherent_create.
  - intros. by eapply coherent_update.
Qed.

Lemma write_row_id_kept p c self w res w' :
  row_id_kept p c w → FSWriter.write self w = Ok res w' → row_id_kept p c w'.
Proof.
  apply (write_inv (row_id_kept p c)).
  - intros w0 q c0 (c' & Hc' & Hid) _. by exists c'.
  - intros. by eapply row_id_kept_create.
  - intros. by eapply row_id_kept_update.
Qed.

(** The row a write leaves for its target, when the cache entry of the
    target was coherent. *)
Lemma write_target_row path ty ct w e w' :
  coherent path w →
  FSWriter.write (FSWriter.init path ty ct) w = Ok (FSWriter.Found e) w' →
  ∃ c, fs (db w') !! path = Some c ∧ e = row_of path c
       ∧ Z.land (c_content_types c) ct = ct.
Proof.
  intros Hco H.
  destruct (write_leaves_cached _ _ _ _ H) as (_ & (e' & He' & He & Hct) & _).
  cbn [FSWriter._path FSWriter._content_types FSWriter.init] in He, Hct.
  injection He' as <-.
  apply (write_coherent path _ _ _ _ Hco H) in He.
  unfold Db.fetchone_by_path in He.
  destruct (fs (db w') !! path) as [c|]; simplify_eq/=. eauto.
Qed.

(** X24: the handler of the entry point event, when the cache entry of
    the folder of the entry point is coherent and the handler returns,
    leaves a row for that folder ([dirname] of the path) whose content
    types contain the content type of the event; and, when ['main'] is a
    valid key, the [meta] table holds under the id of that row, the
    language [NO_LANGUAGE] and the key ['main'] the file name of the
    entry point ([basename] of the path). *)
Theorem entry_point_stamps_folder NO_LANGUAGE self path content_type w u w' :
  coherent (PosixPath.dirname path) w →
  Archive._entry_point_found NO_LANGUAGE self path content_type w = Ok u w' →
  ∃ c, fs (db w') !! PosixPath.dirname path = Some c
       ∧ Z.land (c_content_types c) content_type = content_type
       ∧ ("main" ∈ Archive.keys self None →
          meta (db w') !! (c_id c, NO_LANGUAGE, "main")
          = Some (PosixPath.basename path)).
Proof.
  intros Hco H. unfold Archive._entry_point_found in H.
  apply bind_Ok in H as (v & w2 & Hsave & H). unfold_M. simplify_eq.
  apply save_Ok_inv in Hsave
    as (dir & ty & ct & e & w1 & cleaned & Hdir & Hty & Hct & Hwrite
        & Hmeta & _).
  rewrite lookup_insert_eq in Hdir.
  rewrite !lookup_insert_ne, lookup_insert_eq in Hty by done.
  rewrite !lookup_insert_ne, lookup_singleton_eq in Hct by done.
  rewrite lookup_insert_ne, lookup_insert_eq in Hmeta by done.
  simplify_eq.
  destruct (write_target_row _ _ _ _ _ _ Hco Hwrite) as (c & Hc & -> & Hbits).
  destruct (_save_metadata_spec self (c_id c)
              {[NO_LANGUAGE := {["main" := PosixPath.basename path]}]} w1)
    as (w2 & Hmeta' & (Hfs & _) & Hin & _).
  simpl in Hmeta. rewrite Hmeta' in Hmeta. simplify_eq.
  exists c. split_and!; [by rewrite Hfs|done|].
  intros Hkey. apply Hin. apply holds_strip. split; [|done].
  eexists. split; [apply lookup_singleton_eq|apply lookup_singleton_eq].
Qed.

Lemma entry_point_stamps_folder_witness :
  ∃ u w',
    Archive._entry_point_found "" titled_archive "a/b/index.html" text_bits
      empty_world = Ok u w'
    ∧ ∃ c, fs (db w') !! PosixPath.dirname "a/b/index.html" = Some c
           ∧ Z.land (c_content_types c) text_bits = text_bits.
Proof.
  assert (returns (Archive._entry_point_found "" titled_archive
                     "a/b/index.html" text_bits empty_world) = true)
    as Hret by (vm_compute; reflexivity).
  destruct (Archive._entry_point_found "" titled_archive "a/b/index.html"
              text_bits empty_world) as [u w'|e] eqn:H; [|discriminate Hret].
  exists u, w'. split; [reflexivity|].
  destruct (entry_point_stamps_folder "" titled_archive "a/b/index.html"
              text_bits empty_world u w') as (c & Hc & Hbits & _).
  - intros e He. vm_compute in He. discriminate He.
  - exact H.
  - exists c. split; [exact Hc|exact Hbits].
Defined.

(** X25: [save] and [save_many] keep what the node materializer keeps:
    a cache entry that was coherent with the store stays coherent, and a
    row that was in the store is still there under the same [id]. *)
Theorem save_many_keeps self w :
  (∀ data v w',
     Archive.save self data w = Ok v w' →
     (∀ p, coherent p w → coherent p w')
     ∧ (∀ p c, fs (db w) !! p = Some c → row_id_kept p c w'))
  ∧ (∀ metas u w',
       Archive.save_many self metas w = Ok u w' →
       (∀ p, coherent p w → coherent p w')
       ∧ (∀ p c, fs (db w) !! p = Some c → row_id_kept p c w')).
Proof.
  assert (∀ (I : world → Prop),
            (∀ w0 w1, fs (db w1) = fs (db w0) → cache w1 = cache w0 →
                      I w0 → I w1) →
            (∀ writer w0 res w1,
               I w0 → FSWriter.write writer w0 = Ok res w1 → I w1) →
            ∀ data w0 v w1,
              Archive.save self data w0 = Ok v w1 → I w0 → I w1) as Hsave.
  { intros I Hmeta Hwrite data w0 v w1 H HI.
    apply save_Ok_inv in H
      as (path & ty & ct & e & w2 & cleaned & _ & _ & _ & Hw & Hm & _).
    apply _save_metadata_keeps in Hm as [Hfs Hcache].
    eapply Hmeta; [done..|]. by eapply Hwrite. }
  assert (∀ p w0 w1, fs (db w1) = fs (db w0) → cache w1 = cache w0 →
                     coherent p w0 → coherent p w1) as Hco.
  { intros p w0 w1 Hfs Hcache H e. unfold Db.fetchone_by_path.
    rewrite Hfs, Hcache. apply H. }
  assert (∀ p c w0 w1, fs (db w1) = fs (db w0) → cache w1 = cache w0 →
                       row_id_kept p c w0 → row_id_kept p c w1) as Hrow.
  { intros p c w0 w1 Hfs _ H. unfold row_id_kept. by rewrite Hfs. }
  split.
  - intros data v w' H. split.
    + intros p. apply (Hsave (coherent p)) with (data := data) (v := v);
        [apply Hco|intros; by eapply write_coherent|done].
    + intros p c Hc.
      apply (Hsave (row_id_kept p c)) with (data := data) (v := v) (w0 := w);
        [apply Hrow|intros; by eapply write_row_id_kept|done|by exists c].
  - intros metas u w' H. unfold Archive.save_many in H. split.
    + intros p. eapply (for_each_inv (coherent p)); [|exact H].
      intros data w0 [] w1 Hstep.
      apply bind_Ok in Hstep as (v & w2 & Hs & Hstep). unfold_M.
      simplify_eq.
      apply (Hsave (coherent p)) with (data := data) (v := v);
        [apply Hco|intros; by eapply write_coherent|done].
    + intros p c Hc.
      eapply (for_each_inv (row_id_kept p c)); [|exact H|by exists c].
      intros data w0 [] w1 Hstep.
      apply bind_Ok in Hstep as (v & w2 & Hs & Hstep). unfold_M.
      simplify_eq.
      apply (Hsave (row_id_kept p c)) with (data := data) (v := v);
        [apply Hrow|intros; by eapply write_row_id_kept|done].
Qed.

Lemma save_many_keeps_witness :
  ∃ v w',
    Archive.save titled_archive sample_data world_with_a = Ok v w'
    ∧ coherent "a" w'
    ∧ row_id_kept "a" (FsCols 2 1 FILE_TYPE 1) w'.
Proof.
  assert (returns (Archive.save titled_archive sample_data world_with_a)
          = true) as Hret by (vm_compute; reflexivity).
  destruct (Archive.save titled_archive sample_data world_with_a)
    as [v w'|e] eqn:H; [|discriminate Hret].
  exists v, w'. split; [reflexivity|].
  destruct (proj1 (save_many_keeps titled_archive world_with_a)
              sample_data v w' H) as [Hco Hrow].
  split.
  - apply Hco. intros e He. vm_compute in He. injection He as <-.
    vm_compute. reflexivity.
  - apply Hrow. vm_compute. reflexivity.
Defined.
Lemma reduce_or_spec content_types_of ms : ∀ acc w z w',
  reads_only content_types_of →
  Archive.reduce_or content_types_of ms acc w = Ok z w' →
  w' = w ∧ Z.land z acc = acc.
Proof.
  induction ms as [|m ms IH]; intros acc w z w' Hread H; simpl in H.
  - unfold_M. simplify_eq. split; [done|apply Z.land_diag].
  - apply bind_Ok in H as (x & w1 & Hx & H).
    apply Hread in Hx as ->.
    destruct (IH _ _ _ _ Hread H) as [-> Hland]. split; [done|].
    apply (land_trans _ _ _ Hland).
    rewrite Z.lor_comm. apply land_lor_same.
Qed.

Lemma get_one_partial_stored self path w c :
  fs (db w) !! path = Some c →
  ∃ d v, Archive.get self [path] None true false w = Ok d w
         ∧ d !! path = Some v ∧ shows v path c.
Proof.
  intros Hc.
  destruct (found_views [path] None w) as (data & Hdata & Hdom).
  assert (path ∈ dom data) as [v Hv]%elem_of_dom.
  { apply Hdom, select_meta_paths. split; [left|]. by exists c. }
  assert (Archive.get_batch self None true false [path] w = Ok data w)
    as Hbatch.
  { unfold Archive.get_batch.
    rewrite (bool_decide_eq_false_2 (is_Some None)) by (by intros [? ?]).
    cbn [andb fmap option_fmap option_map].
    rewrite (bind_Ok_eq _ _ w _ w (eq_refl : db_fetchiter_join _ _ w = _)).
    rewrite (bind_Ok_eq _ _ _ _ _ Hdata). cbn beta iota.
    rewrite bool_decide_eq_true_2; [done|].
    apply elem_of_nil_inv. intros p [Hnone Hp]%list_elem_of_filter.
    apply (proj1 (elem_of_remove_dups _ _)) in Hp.
    apply list_elem_of_singleton in Hp as ->. congruence. }
  unfold Archive.get, Batched.batched.
  change (Batched.chunks 999 [path]) with [[path]].
  cbn [Batched.run_batches]. rewrite (bind_Ok_eq _ _ _ _ _ Hbatch).
  exists (data ∪ ∅), v. rewrite (right_id_L ∅ (∪)).
  split_and!; [done..|].
  destruct (found_views_show _ _ _ _ _ _ _ Hdata Hv) as (c' & Hc' & ?).
  by simplify_eq.
Qed.

(** X26: when the attribute read is without effect and the cache entry
    of the folder is coherent, a [_refresh_parent] that returns has
    listed the folder and left a row for it whose content types contain
    the default content type, and what it returns is the view of that
    row; the folder could be listed. *)
Theorem refresh_parent_stores content_types_of self path w v w' :
  reads_only content_types_of →
  coherent path w →
  Archive._refresh_parent content_types_of self path w = Some (Ok v w') →
  (Archive.list_dir self (scan_target (Some path))).1.1 = true
  ∧ ∃ c, fs (db w') !! path = Some c
         ∧ Z.land (c_content_types c) FSWriter.DEFAULT_CONTENT_TYPE
           = FSWriter.DEFAULT_CONTENT_TYPE
         ∧ shows v path c.
Proof.
  intros Hread Hco H. unfold Archive._refresh_parent, Archive.scan in H.
  destruct (Archive.list_dir self (scan_target (Some path)))
    as [[[] dirs] files] eqn:Hlist.
  2:{ rewrite _scan_invalid in H by (cbn [kw_path]; by rewrite Hlist).
      done. }
  split; [done|].
  destruct (_scan_listed self 0
              (ScanKwargs (Some path) true None (Some 0%nat) 0 0) w
              dirs files Hlist) as (metadata & _ & _ & Hscan).
  rewrite Hscan in H. clear Hscan.
  cbn [kw_callback kw_maxdepth kw_depth kw_partial kw_delay] in H.
  rewrite bool_decide_eq_true_2 in H by done.
  injection H as H.
  apply bind_Ok in H as (bitmask & w1 & Hreduce & H).
  apply bind_Ok in H as (saved & w2 & Hsave & H).
  apply bind_Ok in H as (d & w3 & Hget & H).
  apply reduce_or_spec in Hreduce as [-> Hdefault]; [|done].
  apply save_Ok_inv in Hsave
    as (path' & ty & ct & e & w1 & cleaned & Hpath & Hty & Hct & Hwrite
        & Hmeta & _).
  rewrite lookup_insert_eq in Hpath.
  rewrite lookup_insert_ne, lookup_insert_eq in Hty by done.
  rewrite !lookup_insert_ne, lookup_singleton_eq in Hct by done.
  injection Hpath as <-. injection Hty as <-. injection Hct as <-.
  assert (coherent path
            (published_all
               (flat_map (entry_points self) (map rel_path files)) w))
    as Hco1 by exact Hco.
  destruct (write_target_row _ _ _ _ _ _ Hco1 Hwrite)
    as (c & Hc & -> & Hbits).
  apply _save_metadata_keeps in Hmeta as [Hfs _].
  rewrite <- Hfs in Hc.
  destruct (get_one_partial_stored self path w2 c Hc)
    as (d' & v' & Hget' & Hv' & Hshows).
  rewrite Hget' in Hget. simplify_eq.
  unfold Archive.item in H. rewrite Hv' in H. unfold_M. simplify_eq.
  exists c. split_and!; [done| |done].
  by apply (land_trans _ _ _ Hbits).
Qed.

Lemma refresh_parent_stores_witness :
  ∃ v w',
    Archive._refresh_parent content_types_or_zero sample_archive "x"
      empty_world = Some (Ok v w')
    ∧ ∃ c, fs (db w') !! "x" = Some c
           ∧ Z.land (c_content_types c) FSWriter.DEFAULT_CONTENT_TYPE
             = FSWriter.DEFAULT_CONTENT_TYPE
           ∧ shows v "x" c.
Proof.
  assert (match Archive._refresh_parent content_types_or_zero
                  sample_archive "x" empty_world with
          | Some r => returns r
          | None => false
          end = true) as Hret by (vm_compute; reflexivity).
  destruct (Archive._refresh_parent content_types_or_zero sample_archive
              "x" empty_world) as [[v w'|e]|] eqn:H;
    [|discriminate Hret..].
  exists v, w'. split; [reflexivity|].
  refine (proj2 (refresh_parent_stores content_types_or_zero
                   sample_archive "x" empty_world v w' _ _ H)).
  - intros m w z w0 Hz. by injection Hz as _ <-.
  - intros e He. vm_compute in He. discriminate He.
Defined.

(** ** The chain of a relative path *)

Lemma weight_take_lt (xs : list string) : ∀ i j,
  (i < j)%nat → (j ≤ length xs)%nat →
  (weight (take i xs) < weight (take j xs))%nat.
Proof.
  induction xs as [|x xs IH]; intros i j Hij Hj; simpl in Hj; [lia|].
  destruct j as [|j]; [lia|]. destruct i as [|i].
  - unfold weight. simpl. lia.
  - specialize (IH i j). unfold weight in *. simpl. lia.
Qed.

(** X27: the chain of a relative path holds no ancestor twice: when the
    normal form of the path does not start with a separator, the items
    [ancestors_of] yields are pairwise different. *)
Theorem ancestors_of_relative_NoDup p :
  PosixPath.startswith "/" (PosixPath.normpath p) = false →
  NoDup (ancestors_of p).
Proof.
  intros Hrel. unfold ancestors_of.
  set (n := PosixPath.normpath p) in *.
  case_bool_decide as Hroot; [apply NoDup_singleton|].
  case_bool_decide as Hdot; [apply NoDup_singleton|].
  destruct (split_head_relative n) as (x & xs & Hsplit & Hx);
    [apply normpath_not_empty|done|].
  rewrite Hsplit.
  rewrite bool_decide_eq_false_2 by (simpl; congruence).
  set (g := λ i : nat,
         let joined := PosixPath.join (take (S i) (x :: xs)) in
         if bool_decide (joined = "") then PosixPath.sep else joined).
  assert (Hg : ∀ i, g i = PosixPath.join (x :: take i xs)).
  { intros i. unfold g. simpl. rewrite bool_decide_eq_false_2; [done|].
    by apply join_head_not_empty. }
  change (NoDup ("" :: (g <$> seq 0 (length (x :: xs))))).
  apply NoDup_cons. split.
  - intros (i & Hi & _)%list_elem_of_fmap. rewrite Hg in Hi.
    symmetry in Hi. by apply join_head_not_empty in Hi.
  - apply NoDup_fmap_2_strong; [|apply NoDup_seq].
    intros i j Hi%elem_of_seq Hj%elem_of_seq Heq. simpl in Hi, Hj.
    rewrite !Hg in Heq.
    assert (weight (x :: take i xs) = weight (x :: take j xs)) as Hw.
    { rewrite <- !length_join by done. by rewrite Heq. }
    unfold weight in Hw. simpl in Hw.
    destruct (Nat.lt_trichotomy i j) as [Hlt|[->|Hlt]]; [|done|].
    + pose proof (weight_take_lt xs i j Hlt). unfold weight in *. lia.
    + pose proof (weight_take_lt xs j i Hlt). unfold weight in *. lia.
Qed.

Lemma ancestors_of_relative_NoDup_witness :
  NoDup (ancestors_of "a/./b//c.txt").
Proof.
  apply ancestors_of_relative_NoDup. reflexivity.
Defined.

(** ** The chain a write resolves, and what it creates *)

(** X28: [_get_chain] never fails, the removal of a fetched path from
    the missing ones always finding it. It leaves the store as it is and
    keeps the cache coherent with it; every ancestor of the target ends
    up either reported missing or held in cache, the missing paths are
    ancestors of the target, and, when no ancestor occurs twice in the
    chain, none of the missing paths has a row in the store. *)
Theorem _get_chain_returns self w :
  ∃ found missing w',
    FSWriter._get_chain self w = Ok (found, missing) w'
    ∧ db w' = db w
    ∧ (∀ a, a ∈ ancestors_of (FSWriter._path self) →
            a ∈ missing ∨ is_cached a w')
    ∧ (∀ a, a ∈ missing → a ∈ ancestors_of (FSWriter._path self))
    ∧ (∀ p, coherent p w → coherent p w')
    ∧ (NoDup (ancestors_of (FSWriter._path self)) →
       ∀ m, m ∈ missing → fs (db w) !! m = None).
Proof.
  destruct (_get_chain_total self w) as ([found missing] & w' & H).
  pose proof (_get_chain_spec _ _ _ _ _ H)
    as (Hdb & Hchain & Hsub & _ & Hmono).
  exists found, missing, w'. split_and!; [done..| |done| |].
  - intros a Ha. destruct (Hchain a Ha) as [?|[?|[_ ?]]]; auto.
  - intros p Hco. eapply (_get_chain_inv (coherent p)); [|exact Hco|exact H].
    intros. by apply coherent_cache_row.
  - intros Hnd. by eapply _get_chain_missing_fresh.
Qed.

Lemma create_missing_links self ms : ∀ lst w res w',
  NoDup ms →
  FSWriter.create_missing self ms lst w = Ok res w' →
  (∀ m, head ms = Some m →
     ∃ c, fs (db w') !! m = Some c
          ∧ c_parent_id c = FSWriter.node_id lst)
  ∧ (∀ i m m', ms !! i = Some m → ms !! S i = Some m' →
       ∃ c c', fs (db w') !! m = Some c ∧ fs (db w') !! m' = Some c'
               ∧ c_parent_id c' = c_id c).
Proof.
  induction ms as [|m0 ms IH]; intros lst w res w' Hnd H; [done|].
  apply NoDup_cons in Hnd as [Hm0 Hnd]. simpl in H.
  apply bind_Ok in H as (e0 & w1 & H1 & H).
  rewrite _create_Ok in H1. injection H1 as <- <-.
  destruct (IH _ _ _ _ Hnd H) as [Hhead Hpairs].
  pose proof (create_missing_touches _ _ _ _ _ _ H) as (Hfs & _).
  assert (fs (db w') !! m0
          = Some (created_cols m0 (FSWriter.node_id lst)
                    (FSWriter._type self)
                    (FSWriter.created_content_types self m0) (db w)))
    as Hrow0.
  { rewrite Hfs by done. simpl. rewrite fs_replace_fs.
    apply lookup_insert_eq. }
  split.
  - intros m [= <-]. eexists. split; [exact Hrow0|done].
  - intros [|i] m m' Hm Hm'; simpl in Hm, Hm'.
    + injection Hm as <-.
      destruct (Hhead m') as (c' & Hc' & Hpid);
        [by destruct ms; simplify_eq/=|].
      eexists _, c'. split_and!; [exact Hrow0|done|done].
    + by eapply Hpairs.
Qed.

Lemma linked_update m m' w q ct e w' :
  (∃ c c', fs (db w) !! m = Some c ∧ fs (db w) !! m' = Some c'
           ∧ c_parent_id c' = c_id c) →
  FSWriter._update q ct w = Ok e w' →
  ∃ c c', fs (db w') !! m = Some c ∧ fs (db w') !! m' = Some c'
          ∧ c_parent_id c' = c_id c.
Proof.
  intros (c & c' & Hc & Hc' & Hpid) H.
  destruct (row_kept_update m c w q ct e w') as (d & Hd & Hid & _);
    [exists c; by rewrite Z.land_diag|done|].
  destruct (row_kept_update m' c' w q ct e w') as (d' & Hd' & _ & Hpid' & _);
    [exists c'; by rewrite Z.land_diag|done|].
  exists d, d'. split_and!; [done..|congruence].
Qed.

Lemma parent_id_update m pid w q ct e w' :
  (∃ c, fs (db w) !! m = Some c ∧ c_parent_id c = pid) →
  FSWriter._update q ct w = Ok e w' →
  ∃ c, fs (db w') !! m = Some c ∧ c_parent_id c = pid.
Proof.
  intros (c & Hc & Hpid) H.
  destruct (row_kept_update m c w q ct e w') as (d & Hd & _ & Hpid' & _);
    [exists c; by rewrite Z.land_diag|done|].
  exists d. split; [done|congruence].
Qed.

(** X29: a write adds a row exactly for the paths its chain reports
    missing: a path has a row after the write when it had one before or
    is one of the missing ones. When no path occurs twice among the
    missing ones, the write links what it creates: the first missing path
    gets as [parent_id] the [id] of the last entry found (0 when none
    was found), and every later one the [id] of the row of the missing
    path before it. *)
Theorem write_creates_missing self w found ms w1 res w' :
  FSWriter._get_chain self w = Ok (found, ms) w1 →
  FSWriter.write self w = Ok res w' →
  (∀ p, has_row p w' ↔ has_row p w ∨ p ∈ ms)
  ∧ (NoDup ms →
     (∀ m, head ms = Some m →
        ∃ c, fs (db w') !! m = Some c
             ∧ c_parent_id c = match last found with
                               | Some e => Fs.id e
                               | None => 0
                               end)
     ∧ (∀ i m m', ms !! i = Some m → ms !! S i = Some m' →
          ∃ c c', fs (db w') !! m = Some c ∧ fs (db w') !! m' = Some c'
                  ∧ c_parent_id c' = c_id c)).
Proof.
  intros Hchain H. pose proof H as Hwrite. unfold FSWriter.write in H.
  rewrite (bind_Ok_eq _ _ _ _ _ Hchain) in H. cbn beta iota in H.
  apply bind_Ok in H as (l & w2 & H2 & H).
  apply bind_Ok in H as ([] & w3 & H3 & H).
  pose proof (_get_chain_spec _ _ _ _ _ Hchain) as (Hdb & _).
  assert (∀ P : world → Prop,
            (∀ q ct e wa wb,
               P wa → FSWriter._update q ct wa = Ok e wb → P wb) →
            P w2 → P w') as Hupdates.
  { intros P HP HP2. assert (P w3) as HP3.
    { destruct (_ && _).
      - apply bind_Ok in H3 as (e & w3' & H3 & H3'). unfold_M. simplify_eq.
        by eapply HP.
      - unfold_M. by simplify_eq. }
    case_bool_decide.
    - apply bind_Ok in H as (e & w4 & H4 & H). unfold_M. simplify_eq.
      by eapply HP.
    - unfold_M. by simplify_eq. }
  assert (∀ p, has_row p w' → has_row p w2) as Hback.
  { assert (∀ p q ct e wa wb,
              FSWriter._update q ct wa = Ok e wb →
              has_row p wb → has_row p wa) as Hstep.
    { intros p q ct e wa wb Hu. unfold has_row.
      update_cases Hu; [done|..]; simpl; by rewrite lookup_alter_is_Some. }
    intros p Hrow. assert (has_row p w3) as Hrow3.
    { revert Hrow. case_bool_decide.
      - apply bind_Ok in H as (e & w4 & H4 & H). unfold_M. simplify_eq.
        by eapply Hstep.
      - unfold_M. by simplify_eq. }
    revert Hrow3. destruct (_ && _).
    - apply bind_Ok in H3 as (e & w3' & H3 & H3'). unfold_M. simplify_eq.
      by eapply Hstep.
    - unfold_M. by simplify_eq. }
  split.
  - intros p. split.
    + intros Hrow. destruct (decide (p ∈ ms)) as [?|Hout]; [by right|left].
      apply Hback in Hrow as Hrow2.
      apply create_missing_touches in H2 as (Hfs & _).
      unfold has_row in *. by rewrite Hfs, Hdb in Hrow2.
    + intros [Hrow|Hin]; [by eapply write_has_row|].
      apply (Hupdates (has_row p)); [intros; by eapply has_row_update|].
      by apply (create_missing_spec _ _ _ _ _ _ H2).
  - intros Hnd. destruct (create_missing_links _ _ _ _ _ _ Hnd H2)
      as [Hhead Hpairs].
    split.
    + intros m Hm.
      apply (Hupdates (λ w0, ∃ c, fs (db w0) !! m = Some c ∧ _));
        [intros; by eapply parent_id_update|].
      destruct (Hhead m Hm) as (c & Hc & Hpid). exists c. split; [done|].
      rewrite Hpid. by destruct (last found).
    + intros i m m' Hm Hm'.
      apply (Hupdates (λ w0, ∃ c c', fs (db w0) !! m = Some c
                                     ∧ fs (db w0) !! m' = Some c' ∧ _));
        [intros; by eapply linked_update|].
      by eapply Hpairs.
Qed.

Lemma write_creates_missing_witness :
  ∃ found ms w1 res w',
    FSWriter._get_chain text_file world_with_a = Ok (found, ms) w1
    ∧ FSWriter.write text_file world_with_a = Ok res w'
    ∧ ms = ["a/b"; "a/b/c.txt"]
    ∧ ∃ c c', fs (db w') !! "a/b" = Some c
              ∧ fs (db w') !! "a/b/c.txt" = Some c'
              ∧ c_parent_id c' = c_id c.
Proof.
  destruct (FSWriter._get_chain text_file world_with_a)
    as [[found ms] w1|e] eqn:Hchain;
    [|vm_compute in Hchain; discriminate Hchain].
  assert (["a/b"; "a/b/c.txt"] = ms) as Hms.
  { pose proof Hchain as Hc. vm_compute in Hc. by injection Hc as _ ? _. }
  assert (returns (FSWriter.write text_file world_with_a) = true) as Hret
    by (vm_compute; reflexivity).
  destruct (FSWriter.write text_file world_with_a) as [res w'|e] eqn:Hwrite;
    [|discriminate Hret].
  exists found, ms, w1, res, w'.
  split; [reflexivity|]. split; [reflexivity|]. split; [by rewrite Hms|].
  assert (NoDup ms) as Hnd by (rewrite <- Hms; by_evaluation).
  apply (proj2 (proj2 (write_creates_missing text_file world_with_a
                         found ms w1 res w' Hchain Hwrite) Hnd) 0%nat);
    by rewrite <- Hms.
Defined.
Lemma create_missing_rows self ms : ∀ lst w res w' m,
  FSWriter.create_missing self ms lst w = Ok res w' →
  m ∈ ms →
  ∃ c, fs (db w') !! m = Some c
       ∧ c_type c = FSWriter._type self
       ∧ c_content_types c = FSWriter.created_content_types self m.
Proof.
  induction ms as [|m0 ms IH]; intros lst w res w' m H Hm;
    [by apply elem_of_nil in Hm|].
  simpl in H. apply bind_Ok in H as (e0 & w1 & H1 & H).
  destruct (decide (m ∈ ms)) as [Hin|Hout]; [by eapply IH|].
  apply elem_of_cons in Hm as [->|?]; [|done].
  rewrite _create_Ok in H1. injection H1 as <- <-.
  apply create_missing_touches in H as (Hfs & _).
  rewrite Hfs by done. simpl. rewrite fs_replace_fs, lookup_insert_eq.
  by eexists.
Qed.

(** X30: every row a write creates, the rows of the ancestors included,
    gets the type of the target, so that the folders above a file are
    created with the type of a file; and an ancestor other than the
    parent is created with the default content type only. *)
Theorem write_types_created_as_target self w found ms w1 res w' m :
  FSWriter._get_chain self w = Ok (found, ms) w1 →
  FSWriter.write self w = Ok res w' →
  m ∈ ms →
  ∃ c, fs (db w') !! m = Some c
       ∧ c_type c = FSWriter._type self
       ∧ (m ≠ FSWriter._path self → m ≠ FSWriter._parent_path self →
          c_content_types c = FSWriter.DEFAULT_CONTENT_TYPE).
Proof.
  intros Hchain H Hm. unfold FSWriter.write in H.
  rewrite (bind_Ok_eq _ _ _ _ _ Hchain) in H. cbn beta iota in H.
  apply bind_Ok in H as (l & w2 & H2 & H).
  apply bind_Ok in H as ([] & w3 & H3 & H).
  destruct (create_missing_rows _ _ _ _ _ _ _ H2 Hm) as (c & Hc & Hty & Hct).
  set (P := λ w0 : world,
         ∃ c, fs (db w0) !! m = Some c
              ∧ c_type c = FSWriter._type self
              ∧ (m ≠ FSWriter._path self → m ≠ FSWriter._parent_path self →
                 c_content_types c = FSWriter.DEFAULT_CONTENT_TYPE)).
  assert (∀ q ct e wa wb,
            q = FSWriter._path self ∨ q = FSWriter._parent_path self →
            P wa → FSWriter._update q ct wa = Ok e wb → P wb) as Hstep.
  { intros q ct e wa wb Hq (c0 & Hc0 & Hty0 & Hct0) Hu.
    destruct (decide (m = q)) as [->|Hne].
    - destruct (row_kept_update q c0 wa q ct e wb) as (d & Hd & _ & _ & Ht & _);
        [exists c0; by rewrite Z.land_diag|done|].
      exists d. split_and!; [done|congruence|].
      intros ??. by destruct Hq.
    - apply _update_touches in Hu as (Hfs & _).
      exists c0. rewrite Hfs; [done|].
      by intros ->%list_elem_of_singleton. }
  assert (P w2) as HP2.
  { exists c. split_and!; [done..|]. intros Hpath Hparent.
    rewrite Hct. unfold FSWriter.created_content_types.
    rewrite (bool_decide_eq_false_2 (m = FSWriter._path self)) by done.
    by rewrite (bool_decide_eq_false_2 (m = FSWriter._parent_path self)). }
  assert (P w3) as HP3.
  { destruct (_ && _).
    - apply bind_Ok in H3 as (e & w3' & H3 & H3'). unfold_M. simplify_eq.
      eapply Hstep; [by right|done..].
    - unfold_M. by simplify_eq. }
  case_bool_decide.
  - apply bind_Ok in H as (e & w4 & H4 & H). unfold_M. simplify_eq.
    eapply Hstep; [by left|done..].
  - unfold_M. by simplify_eq.
Qed.

Lemma write_types_created_as_target_witness :
  ∃ found ms w1 res w',
    FSWriter._get_chain text_file empty_world = Ok (found, ms) w1
    ∧ FSWriter.write text_file empty_world = Ok res w'
    ∧ "a" ∈ ms
    ∧ ∃ c, fs (db w') !! "a" = Some c ∧ c_type c = FILE_TYPE.
Proof.
  destruct (FSWriter._get_chain text_file empty_world)
    as [[found ms] w1|e] eqn:Hchain;
    [|vm_compute in Hchain; discriminate Hchain].
  assert ([""; "a"; "a/b"; "a/b/c.txt"] = ms) as Hms.
  { pose proof Hchain as Hc. vm_compute in Hc. by injection Hc as _ ? _. }
  assert (returns (FSWriter.write text_file empty_world) = true) as Hret
    by (vm_compute; reflexivity).
  destruct (FSWriter.write text_file empty_world) as [res w'|e] eqn:Hwrite;
    [|discriminate Hret].
  assert ("a" ∈ ms) as Hin by (rewrite <- Hms; by_evaluation).
  exists found, ms, w1, res, w'.
  split; [reflexivity|]. split; [reflexivity|]. split; [exact Hin|].
  destruct (write_types_created_as_target text_file empty_world found ms w1
              res w' "a" Hchain Hwrite Hin) as (c & Hc & Hty & _).
  exists c. split; [exact Hc|exact Hty].
Defined.

(** ** Writing again after a [clear] *)

(** C1: [clear] empties the store and leaves the cache as it is. In the
    state a write followed by [clear] reaches, the state in which
    [clear_and_reload] saves every node again, the same write finds its
    whole chain in cache: it returns the node of the first write, changes
    nothing, and leaves the store without a row for any ancestor; and so
    does a [save] of the same node. *)
Theorem write_after_clear_creates_no_ancestor path ty ct w res w1 :
  FSWriter.write (FSWriter.init path ty ct) w = Ok res w1 →
  ∃ w2,
    Archive.clear w1 = Ok () w2
    ∧ FSWriter.write (FSWriter.init path ty ct) w2 = Ok res w2
    ∧ (∀ a, a ∈ ancestors_of path → ¬ has_row a w2)
    ∧ (∀ self data v w3,
         data !! Some "path" = Some (VStr path) →
         data !! Some "type" = Some (VType ty) →
         data !! Some "content_types" = Some (VInt ct) →
         Archive.save self data w2 = Ok v w3 →
         ∀ a, a ∈ ancestors_of path → ¬ has_row a w3).
Proof.
  intros H.
  destruct (write_leaves_cached _ _ _ _ H)
    as (Hall & (e & -> & He & Hct) & Hparent).
  destruct (Archive.clear w1) as [[] w2|x] eqn:Hclear;
    [|unfold Archive.clear in Hclear; unfold_M; discriminate].
  assert (cache w2 = cache w1 ∧ fs (db w2) = ∅) as [Hcache Hfs].
  { unfold Archive.clear in Hclear. unfold_M. by simplify_eq. }
  assert (FSWriter.write (FSWriter.init path ty ct) w2
          = Ok (FSWriter.Found e) w2) as Hskip.
  { apply write_cached_hit.
    - intros a Ha. unfold is_cached. rewrite Hcache. by apply Hall.
    - by rewrite Hcache.
    - done.
    - intros Hty. unfold cached_with. rewrite Hcache. by apply Hparent. }
  exists w2. split_and!; [done|done| |].
  - intros a _ [c Hc]. rewrite Hfs in Hc. by rewrite lookup_empty in Hc.
  - intros self data v w3 Hpath Hty Hcts Hsave a _ [c Hc].
    apply save_writes in Hsave
      as (path' & ty' & ct' & saved & w1' & Hp & Ht & Hc' & Hwrite & Hfs').
    rewrite Hpath in Hp. rewrite Hty in Ht. rewrite Hcts in Hc'.
    injection Hp as <-. injection Ht as <-. injection Hc' as <-.
    rewrite Hskip in Hwrite. injection Hwrite as _ <-.
    rewrite Hfs', Hfs in Hc. by rewrite lookup_empty in Hc.
Qed.

Lemma write_after_clear_creates_no_ancestor_witness :
  ∃ res w1 w2,
    FSWriter.write (FSWriter.init "a/b/c.txt" FILE_TYPE text_bits)
      empty_world = Ok res w1
    ∧ has_row "a/b" w1
    ∧ Archive.clear w1 = Ok () w2
    ∧ FSWriter.write (FSWriter.init "a/b/c.txt" FILE_TYPE text_bits) w2
      = Ok res w2
    ∧ "a/b" ∈ ancestors_of "a/b/c.txt"
    ∧ ¬ has_row "a/b" w2 ∧ ¬ has_row "" w2.
Proof.
  assert (returns (FSWriter.write
                     (FSWriter.init "a/b/c.txt" FILE_TYPE text_bits)
                     empty_world) = true) as Hret
    by (vm_compute; reflexivity).
  assert ("a/b" ∈ ancestors_of "a/b/c.txt") as Hab by by_evaluation.
  assert ("" ∈ ancestors_of "a/b/c.txt") as Hroot by by_evaluation.
  assert (has_row "a/b"
            (world_after (FSWriter.write
                     (FSWriter.init "a/b/c.txt" FILE_TYPE text_bits))
                     empty_world)) as Hrow by by_evaluation.
  unfold world_after in Hrow.
  destruct (FSWriter.write (FSWriter.init "a/b/c.txt" FILE_TYPE text_bits)
              empty_world) as [res w1|e] eqn:H; [|discriminate Hret].
  destruct (write_after_clear_creates_no_ancestor
              "a/b/c.txt" FILE_TYPE text_bits empty_world res w1 H)
    as (w2 & Hclear & Hwrite & Hnone & _).
  exists res, w1, w2.
  split; [reflexivity|]. split; [exact Hrow|]. split; [exact Hclear|].
  split; [exact Hwrite|]. split; [exact Hab|].
  split; [exact (Hnone "a/b" Hab)|exact (Hnone "" Hroot)].
Defined.

(** C4: in the state a write of a file followed by [clear] reaches, the
    state in which [clear_and_reload] saves every node again, the cache
    entry of the direct parent already holds the bits of the file: the
    same write skips the update of the parent, and so does a [save] of
    the same node, and the store is left with no row of the parent whose
    content types contain the bits, as it has no row of the parent at
    all. *)
Theorem write_after_clear_leaves_parent_bare path ct w res w1 :
  FSWriter.write (FSWriter.init path FILE_TYPE ct) w = Ok res w1 →
  ∃ w2,
    Archive.clear w1 = Ok () w2
    ∧ cached_with (PosixPath.dirname path) ct w2
    ∧ FSWriter.write (FSWriter.init path FILE_TYPE ct) w2 = Ok res w2
    ∧ ¬ has_row (PosixPath.dirname path) w2
    ∧ ¬ row_contains (PosixPath.dirname path) ct w2
    ∧ (∀ self data v w3,
         data !! Some "path" = Some (VStr path) →
         data !! Some "type" = Some (VType FILE_TYPE) →
         data !! Some "content_types" = Some (VInt ct) →
         Archive.save self data w2 = Ok v w3 →
         ¬ row_contains (PosixPath.dirname path) ct w3).
Proof.
  intros H.
  destruct (write_leaves_cached _ _ _ _ H)
    as (Hall & (e & -> & He & Hct) & Hparent).
  cbn [FSWriter._type FSWriter.init FSWriter._parent_path
       FSWriter._content_types FSWriter._path] in *.
  specialize (Hparent eq_refl).
  destruct (Archive.clear w1) as [[] w2|x] eqn:Hclear;
    [|unfold Archive.clear in Hclear; unfold_M; discriminate].
  assert (cache w2 = cache w1 ∧ fs (db w2) = ∅) as [Hcache Hfs].
  { unfold Archive.clear in Hclear. unfold_M. by simplify_eq. }
  assert (cached_with (PosixPath.dirname path) ct w2) as Hparent2.
  { unfold cached_with. by rewrite Hcache. }
  assert (FSWriter.write (FSWriter.init path FILE_TYPE ct) w2
          = Ok (FSWriter.Found e) w2) as Hskip.
  { apply write_cached_hit.
    - intros a Ha. unfold is_cached. rewrite Hcache. by apply Hall.
    - by rewrite Hcache.
    - done.
    - done. }
  exists w2. split_and!; [done|done|done| | |].
  - intros [c Hc]. rewrite Hfs in Hc. by rewrite lookup_empty in Hc.
  - intros (c & Hc & _). rewrite Hfs in Hc. by rewrite lookup_empty in Hc.
  - intros self data v w3 Hpath Hty Hcts Hsave (c & Hc & _).
    apply save_writes in Hsave
      as (path' & ty' & ct' & saved & w1' & Hp & Ht & Hc' & Hwrite & Hfs').
    rewrite Hpath in Hp. rewrite Hty in Ht. rewrite Hcts in Hc'.
    injection Hp as <-. injection Ht as <-. injection Hc' as <-.
    rewrite Hskip in Hwrite. injection Hwrite as _ <-.
    rewrite Hfs', Hfs in Hc. by rewrite lookup_empty in Hc.
Qed.

Lemma write_after_clear_leaves_parent_bare_witness :
  ∃ res w1 w2,
    FSWriter.write (FSWriter.init "a/b/c.txt" FILE_TYPE text_bits)
      empty_world = Ok res w1
    ∧ row_contains "a/b" text_bits w1
    ∧ Archive.clear w1 = Ok () w2
    ∧ FSWriter.write (FSWriter.init "a/b/c.txt" FILE_TYPE text_bits) w2
      = Ok res w2
    ∧ ¬ row_contains (PosixPath.dirname "a/b/c.txt") text_bits w2.
Proof.
  assert (returns (FSWriter.write
                     (FSWriter.init "a/b/c.txt" FILE_TYPE text_bits)
                     empty_world) = true) as Hret
    by (vm_compute; reflexivity).
  assert (row_contains "a/b" text_bits
            (world_after (FSWriter.write
                     (FSWriter.init "a/b/c.txt" FILE_TYPE text_bits))
                     empty_world)) as Hrow.
  { eexists. split; vm_compute; reflexivity. }
  unfold world_after in Hrow.
  destruct (FSWriter.write (FSWriter.init "a/b/c.txt" FILE_TYPE text_bits)
              empty_world) as [res w1|e] eqn:H; [|discriminate Hret].
  destruct (write_after_clear_leaves_parent_bare
              "a/b/c.txt" text_bits empty_world res w1 H)
    as (w2 & Hclear & _ & Hwrite & _ & Hnone & _).
  exists res, w1, w2.
  split; [reflexivity|]. split; [exact Hrow|]. split; [exact Hclear|].
  split; [exact Hwrite|exact Hnone].
Defined.

(** ** The record a write returns, and where it comes from *)

Lemma or_content_types_twice bits e :
  Fs.or_content_types bits (Fs.or_content_types bits e)
  = Fs.or_content_types bits e.
Proof.
  unfold Fs.or_content_types. simpl. f_equal.
  by rewrite <- Z.lor_assoc, Z.lor_diag.
Qed.

Lemma or_content_types_within bits e :
  Z.land (Fs.content_types e) bits = bits →
  Fs.or_content_types bits e = e.
Proof.
  intros H. destruct e as [i pid p ty cts]. unfold Fs.or_content_types.
  simpl in *. f_equal. apply Z.bits_inj'. intros n Hn.
  apply (f_equal (λ z, Z.testbit z n)) in H.
  rewrite Z.land_spec in H. rewrite Z.lor_spec.
  destruct (Z.testbit cts n), (Z.testbit bits n); done.
Qed.

Lemma cache_from_cache_row p bits w0 w q c :
  cache_from p bits w0 w → fs (db w) !! q = Some c →
  cache_from p bits w0
    (set_cache (<[FSWriter._key q := row_of q c]> (cache w)) w).
Proof.
  intros HJ Hq e. simpl. destruct (decide (q = p)) as [->|Hne].
  - rewrite lookup_insert_eq. intros [= <-]. left. simpl. eauto.
  - rewrite lookup_insert_ne by (by apply _key_ne). apply HJ.
Qed.

Lemma cache_from_create p bits w0 w q pid ty ct e w' :
  cache_from p bits w0 w → FSWriter._create q pid ty ct w = Ok e w' →
  cache_from p bits w0 w'.
Proof.
  intros HJ H. rewrite _create_Ok in H. simplify_eq. intros e.
  unfold stored_or_cached. simpl. rewrite fs_replace_fs.
  destruct (decide (q = p)) as [->|Hne].
  - rewrite !lookup_insert_eq. intros [= <-]. left. eauto.
  - rewrite !lookup_insert_ne by (done || by apply _key_ne). apply HJ.
Qed.

Lemma cache_from_update p bits w0 w q e w' :
  cache_from p bits w0 w → FSWriter._update q bits w = Ok e w' →
  cache_from p bits w0 w'.
Proof.
  intros HJ H. unfold cache_from, stored_or_cached in *.
  destruct (decide (q = p)) as [->|Hne].
  - update_cases H; [done|..]; simpl; intros e';
      rewrite lookup_insert_eq, lookup_alter_eq; intros [= <-].
    + destruct (HJ _ H) as [(c & Hc & ->)|(e0 & He0 & [->| ->])].
      * left. rewrite Hc. simpl. eauto.
      * right. eauto.
      * right. exists e0. split; [done|]. right.
        apply or_content_types_twice.
    + left. rewrite H0. simpl. eauto.
  - update_cases H; [done|..]; simpl; intros e';
      rewrite lookup_insert_ne, lookup_alter_ne
        by (done || by apply _key_ne); apply HJ.
Qed.

Lemma write_cache_from path ty ct w res w' :
  FSWriter.write (FSWriter.init path ty ct) w = Ok res w' →
  cache_from path ct w w'.
Proof.
  intros H. unfold FSWriter.write in H.
  apply bind_Ok in H as ([found ms] & w1 & H1 & H).
  apply bind_Ok in H as (l & w2 & H2 & H).
  apply bind_Ok in H as ([] & w3 & H3 & H).
  cbn [FSWriter._type FSWriter.init FSWriter._parent_path
       FSWriter._content_types FSWriter._path] in *.
  assert (cache_from path ct w w) as HJ0.
  { intros e He. right. eauto. }
  assert (cache_from path ct w w1) as HJ1.
  { eapply (_get_chain_inv (cache_from path ct w)); [|exact HJ0|exact H1].
    intros. by apply cache_from_cache_row. }
  assert (cache_from path ct w w2) as HJ2.
  { eapply (create_missing_inv (cache_from path ct w)); [|exact HJ1|exact H2].
    intros. by eapply cache_from_create. }
  assert (cache_from path ct w w3) as HJ3.
  { destruct (_ && _).
    - apply bind_Ok in H3 as (e3 & w3' & H3 & H3'). unfold_M.
      simplify_eq. by eapply cache_from_update.
    - unfold_M. by simplify_eq. }
  case_bool_decide.
  - apply bind_Ok in H as (e & w4 & H4 & H). unfold_M. simplify_eq.
    by eapply cache_from_update.
  - unfold_M. by simplify_eq.
Qed.

(** C10: [write] returns the record of the target path itself, never
    that of an ancestor nor the default root. The record [e] it returns
    has the path given to the constructor, is the one the cache holds for
    that path after the write, and has the content types asked for. It is
    the row the store holds for the path after the write (the row just
    created, or the row that was there, read by this write or cached
    before), or else the record that was in cache for the path before the
    write, with the content types added to it; it is the stored row
    whenever the record in cache before the write, if there was one, was
    the stored row, which covers a target that is new and one that is
    only in the store. A row of the target that was there before keeps
    its [id]. And [write] does return, whether the target is created by
    this write (it is in its own ancestor chain), was in cache or was
    only in the store, provided the parent of a file can be updated: it
    is in the chain, in cache or in the store. Cache entries are entries
    of the path they are keyed by. *)
Theorem write_returns_target path ty ct w :
  cache_keyed path w →
  (∀ res w',
     FSWriter.write (FSWriter.init path ty ct) w = Ok res w' →
     ∃ e, res = FSWriter.Found e
          ∧ Fs.path e = path
          ∧ cache w' !! FSWriter._key path = Some e
          ∧ Z.land (Fs.content_types e) ct = ct
          ∧ ((∃ c, fs (db w') !! path = Some c ∧ e = row_of path c)
             ∨ (∃ e0, cache w !! FSWriter._key path = Some e0
                      ∧ e = Fs.or_content_types ct e0))
          ∧ (coherent path w →
             ∃ c, fs (db w') !! path = Some c ∧ e = row_of path c)
          ∧ (∀ c0, fs (db w) !! path = Some c0 →
                   ∃ c, fs (db w') !! path = Some c ∧ c_id c = c_id c0))
  ∧ (path ∈ ancestors_of path ∨ is_cached path w ∨ has_row path w →
     (ty = FILE_TYPE →
      PosixPath.dirname path ∈ ancestors_of path
      ∨ is_cached (PosixPath.dirname path) w
      ∨ has_row (PosixPath.dirname path) w) →
     ∃ res w', FSWriter.write (FSWriter.init path ty ct) w = Ok res w').
Proof.
  intros Hkeyed. split; [|exact (proj2 (write_returns_path path ty ct w Hkeyed))].
  intros res w' H.
  destruct (write_leaves_cached _ _ _ _ H) as (_ & (e & -> & He & Hct) & _).
  cbn [FSWriter._path FSWriter._content_types FSWriter.init] in He, Hct.
  exists e. split; [done|].
  split.
  { destruct (proj1 (write_returns_path path ty ct w Hkeyed) _ _ H)
      as (e' & [= <-] & Hp). exact Hp. }
  split; [done|]. split; [done|]. split_and!.
  - destruct (write_cache_from _ _ _ _ _ _ H e He)
      as [Hrow|(e0 & He0 & [->| ->])].
    + by left.
    + right. exists e0. split; [done|].
      symmetry. by apply or_content_types_within.
    + right. eauto.
  - intros Hco.
    destruct (write_target_row _ _ _ _ _ _ Hco H) as (c & Hc & -> & _).
    eauto.
  - intros c0 Hc0.
    apply (write_row_id_kept path c0 _ _ _ _ (ltac:(by exists c0)) H).
Qed.

Lemma write_returns_target_witness :
  (∃ e w' c,
     FSWriter.write (FSWriter.init "a/b/c.txt" FILE_TYPE text_bits)
       empty_world = Ok (FSWriter.Found e) w'
     ∧ Fs.path e = "a/b/c.txt"
     ∧ cache w' !! FSWriter._key "a/b/c.txt" = Some e
     ∧ fs (db w') !! "a/b/c.txt" = Some c ∧ e = row_of "a/b/c.txt" c)
  ∧ (∃ e w',
       FSWriter.write text_file cleared_world = Ok (FSWriter.Found e) w'
       ∧ Fs.path e = "a/b/c.txt"
       ∧ cache w' !! FSWriter._key "a/b/c.txt" = Some e)
  ∧ (∃ e w' c,
       FSWriter.write text_file expired_world = Ok (FSWriter.Found e) w'
       ∧ Fs.path e = "a/b/c.txt"
       ∧ cache w' !! FSWriter._key "a/b/c.txt" = Some e
       ∧ fs (db w') !! "a/b/c.txt" = Some c ∧ e = row_of "a/b/c.txt" c).
Proof.
  split_and!.
  - destruct (write_returns_target "a/b/c.txt" FILE_TYPE text_bits
                empty_world) as [Hpath Hreturns].
    { intros e He. vm_compute in He. discriminate. }
    destruct Hreturns as (res & w' & H).
    { left. by_evaluation. }
    { intros _. left. by_evaluation. }
    destruct (Hpath _ _ H) as (e & -> & He & Hc & _ & _ & Hrow & _).
    destruct Hrow as (c & Hc' & Hec).
    { intros e0 He0. vm_compute in He0. discriminate. }
    exists e, w', c. split; [exact H|]. split; [exact He|].
    split; [exact Hc|]. split; [exact Hc'|exact Hec].
  - destruct (write_returns_target "a/b/c.txt" FILE_TYPE text_bits
                cleared_world) as [Hpath Hreturns].
    { intros e He. vm_compute in He. by injection He as <-. }
    destruct Hreturns as (res & w' & H).
    { right; left. by_evaluation. }
    { intros _. right; left. by_evaluation. }
    destruct (Hpath _ _ H) as (e & -> & He & Hc & _).
    exists e, w'. split; [exact H|]. split; [exact He|exact Hc].
  - destruct (write_returns_target "a/b/c.txt" FILE_TYPE text_bits
                expired_world) as [Hpath Hreturns].
    { intros e He. vm_compute in He. discriminate. }
    destruct Hreturns as (res & w' & H).
    { right; right. by_evaluation. }
    { intros _. right; right. by_evaluation. }
    destruct (Hpath _ _ H) as (e & -> & He & Hc & _ & _ & Hrow & _).
    destruct Hrow as (c & Hc' & Hec).
    { intros e0 He0. vm_compute in He0. discriminate. }
    exists e, w', c. split; [exact H|]. split; [exact He|].
    split; [exact Hc|]. split; [exact Hc'|exact Hec].
Defined.

(** ** The keys of [get] *)

(** The keys of what a batch of [get] without [ignore_missing] returns,
    in either mode of analysis: the paths of the batch that the content
    type supports, the stored ones with their views and the others with
    the result of their analysis. *)
Lemma get_batch_keys self content_type partial paths w d w' :
  Archive.get_batch self content_type partial false paths w = Ok d w' →
  ∀ p, p ∈ dom d ↔ p ∈ paths ∧ supported self content_type p.
Proof.
  unfold Archive.get_batch.
  pose proof (keep_supported_spec self content_type paths) as Hsup.
  set (paths' := match content_type with
                 | Some ct => Archive._keep_supported self paths ct
                 | None => paths
                 end) in *.
  destruct (_ && _) eqn:Hempty.
  { apply andb_prop in Hempty as [_ Hnil%bool_decide_eq_true].
    intros H p. unfold_M. simplify_eq.
    rewrite dom_empty_L, <- Hsup, Hnil.
    split; [by intros ?%elem_of_empty|by intros ?%elem_of_nil]. }
  set (bitmask := (λ ct, ContentTypes.to_bitmask [ct]) <$> content_type).
  destruct (found_views paths' bitmask w) as (data & Hdata & Hdom).
  rewrite (bind_Ok_eq _ _ w _ w (eq_refl : db_fetchiter_join _ _ w = _)).
  rewrite (bind_Ok_eq _ _ _ _ _ Hdata). cbn beta iota.
  set (missing := filter (λ p, data !! p = None) (remove_dups paths')).
  assert (Hkeys : ∀ p, p ∈ missing ∨ p ∈ dom data ↔ p ∈ paths').
  { intros p. unfold missing.
    rewrite list_elem_of_filter, elem_of_remove_dups. split.
    - intros [[_ ?]|Hp]; [done|].
      by apply Hdom, select_meta_paths in Hp as [Hp _].
    - intros Hp. destruct (data !! p) as [v|] eqn:Hv; [right|by left].
      apply elem_of_dom. by rewrite Hv. }
  clear Hempty. case_bool_decide as Hmissing.
  { intros H p. unfold_M. simplify_eq.
    rewrite <- Hsup, <- Hkeys, Hmissing.
    split; [by right|]. by intros [?%elem_of_nil|?]. }
  assert (∀ metas : gmap string pydict,
            dom metas = list_to_set missing →
            ∀ p, p ∈ dom (metas ∪ data)
                 ↔ p ∈ paths ∧ supported self content_type p) as Hunion.
  { intros metas Hm p.
    rewrite <- Hsup, <- Hkeys, dom_union, elem_of_union, Hm,
      elem_of_list_to_set. done. }
  destruct partial.
  - destruct (analyze_scheduled self missing false SaveCallback w)
      as (d0 & w0 & H0).
    destruct (analyze_blocking self missing true w0) as (d1 & w1 & H1 & Hd1).
    rewrite !(bind_Ok_eq _ _ _ _ _ H0), !(bind_Ok_eq _ _ _ _ _ H1).
    intros H. unfold_M. simplify_eq. by apply Hunion.
  - destruct (analyze_blocking self missing false w) as (d1 & w1 & H1 & Hd1).
    rewrite !(bind_Ok_eq _ _ _ _ _ H1). intros H.
    apply bind_Ok in H as ([] & w2 & _ & H). unfold_M. simplify_eq.
    by apply Hunion.
Qed.

Section returned.
Context (f : list string → M (gmap string pydict)) (D : string → Prop).
Hypothesis f_keys : ∀ b w d w',
  f b w = Ok d w' → ∀ p, p ∈ dom d ↔ p ∈ b ∧ D p.

Lemma run_batches_keys batches : ∀ acc w d w',
  Batched.run_batches f batches acc w = Ok d w' →
  ∀ p, p ∈ dom d ↔ (p ∈ concat batches ∧ D p) ∨ p ∈ dom acc.
Proof.
  induction batches as [|b batches IH]; intros acc w d w' H p; simpl in H.
  - unfold_M. simplify_eq. simpl. split; [by right|].
    intros [[Hp _]|?]; [by apply elem_of_nil in Hp|done].
  - apply bind_Ok in H as (r & w1 & Hr & H).
    rewrite (IH _ _ _ _ H), dom_union, elem_of_union, (f_keys _ _ _ _ Hr).
    simpl. rewrite elem_of_app. tauto.
Qed.

Lemma batched_keys n arg w d w' :
  Batched.batched n f arg w = Ok d w' →
  ∀ p, p ∈ dom d ↔ p ∈ arg ∧ D p.
Proof.
  intros H p. rewrite (run_batches_keys _ _ _ _ _ H), chunks_concat.
  rewrite dom_empty. split; [|by left].
  intros [?|?%elem_of_empty]; done.
Qed.
End returned.

(** C6, as amended: [get(paths, ignore_missing=True)] never fails and
    returns, for any content type and in any world, a mapping whose keys
    are among the requested paths: exactly those of them that are stored
    (and, with a content type, that the type supports and whose row has
    its bit), a subset that need not be strict, as it is all of the
    requested paths when no content type is given and all of them are
    stored. Whenever [get(paths, ignore_missing=False)] returns, the keys
    of the mapping are exactly the requested paths that the content type
    supports, which are all of the requested paths when no content type
    is given; and it always returns when [partial] is set. *)
Theorem get_keys self paths w :
  (∀ content_type partial,
     ∃ d, Archive.get self paths content_type partial true w = Ok d w
          ∧ dom d ⊆ list_to_set paths
          ∧ (∀ p, p ∈ dom d ↔
                  p ∈ paths ∧ supported self content_type p
                  ∧ ∃ c, fs (db w) !! p = Some c ∧ selected content_type c)
          ∧ (content_type = None → (∀ p, p ∈ paths → has_row p w) →
             dom d = list_to_set paths))
  ∧ (∀ content_type partial d w',
       Archive.get self paths content_type partial false w = Ok d w' →
       (∀ p, p ∈ dom d ↔ p ∈ paths ∧ supported self content_type p)
       ∧ (content_type = None → dom d = list_to_set paths))
  ∧ (∀ content_type,
       ∃ d w', Archive.get self paths content_type true false w = Ok d w'
               ∧ (∀ p, p ∈ dom d ↔ p ∈ paths ∧ supported self content_type p)
               ∧ (content_type = None → dom d = list_to_set paths)).
Proof.
  assert (Hall : ∀ content_type partial d w',
            Archive.get self paths content_type partial false w = Ok d w' →
            (∀ p, p ∈ dom d ↔ p ∈ paths ∧ supported self content_type p)
            ∧ (content_type = None → dom d = list_to_set paths)).
  { intros content_type partial d w' H.
    assert (∀ p, p ∈ dom d ↔ p ∈ paths ∧ supported self content_type p)
      as Hkeys.
    { eapply (batched_keys _ (supported self content_type)); [|exact H].
      intros b w0 d0 w0'. apply get_batch_keys. }
    split; [done|]. intros ->. apply set_eq. intros p.
    rewrite Hkeys, elem_of_list_to_set. simpl. tauto. }
  split_and!.
  - intros content_type partial. unfold Archive.get, Batched.batched.
    destruct (run_batches_readonly
                (Archive.get_batch self content_type partial true) w
                (λ p, supported self content_type p
                      ∧ ∃ c, fs (db w) !! p = Some c
                             ∧ selected content_type c)
                (λ p v, ∃ c, fs (db w) !! p = Some c ∧ shows v p c)
                (λ b, get_batch_existing self content_type partial b w)
                (Batched.chunks 999 paths) ∅) as (d & H & Hdom & _).
    rewrite chunks_concat in Hdom.
    assert (∀ p, p ∈ dom d ↔
                 p ∈ paths ∧ supported self content_type p
                 ∧ ∃ c, fs (db w) !! p = Some c ∧ selected content_type c)
      as Hkeys.
    { intros p. rewrite Hdom, dom_empty. split; [|by left].
      intros [?|?%elem_of_empty]; done. }
    exists d. split_and!; [done| |done|].
    + intros p Hp. apply elem_of_list_to_set. by apply Hkeys in Hp as [? _].
    + intros -> Hstored. apply set_eq. intros p.
      rewrite Hkeys, elem_of_list_to_set. simpl. split; [tauto|].
      intros Hp. destruct (Hstored p Hp) as [c Hc]. eauto.
  - exact Hall.
  - intros content_type. unfold Archive.get, Batched.batched.
    assert (∀ b w0,
              ∃ d0 w0',
                Archive.get_batch self content_type true false b w0
                = Ok d0 w0'
                ∧ True
                ∧ ∀ p, p ∈ dom d0 ↔ p ∈ b ∧ supported self content_type p)
      as Hbatch.
    { intros b w0.
      destruct (get_batch_partial self content_type b w0)
        as (d0 & w0' & H0 & _ & Hd0). eauto. }
    destruct (run_batches_frame
                (Archive.get_batch self content_type true false)
                (λ _ _, True) (supported self content_type)
                (λ _, I) (λ _ _ _ _ _, I) Hbatch
                (Batched.chunks 999 paths) ∅ w) as (d & w' & H & _ & _).
    exists d, w'. split; [done|]. by eapply Hall.
Qed.

Lemma get_keys_witness :
  (∃ d,
     Archive.get sample_archive ["a"] None true true world_with_a
     = Ok d world_with_a
     ∧ dom d = list_to_set ["a"])
  ∧ (∃ d w',
       Archive.get sample_archive ["a"; "b"] None true false world_with_a
       = Ok d w'
       ∧ dom d = list_to_set ["a"; "b"])
  ∧ (∃ d w',
       Archive.get sample_archive ["a"; "b"] (Some ContentTypes.TEXT) true
         false world_with_a = Ok d w'
       ∧ ("a" ∉ dom d) ∧ ("b" ∉ dom d)).
Proof.
  split_and!.
  - destruct (get_keys sample_archive ["a"] world_with_a) as (Hfound & _).
    destruct (Hfound None true) as (d & Hget & _ & _ & Hall).
    exists d. split; [exact Hget|]. apply Hall; [reflexivity|].
    intros p Hp. apply list_elem_of_singleton in Hp. subst p. by_evaluation.
  - destruct (get_keys sample_archive ["a"; "b"] world_with_a)
      as (_ & _ & Hreturns).
    destruct (Hreturns None) as (d & w' & Hget & _ & Hall).
    exists d, w'. split; [exact Hget|]. exact (Hall eq_refl).
  - destruct (get_keys sample_archive ["a"; "b"] world_with_a)
      as (_ & _ & Hreturns).
    destruct (Hreturns (Some ContentTypes.TEXT))
      as (d & w' & Hget & Hkeys & _).
    exists d, w'. split; [exact Hget|].
    split; intros [_ Hs]%Hkeys; vm_compute in Hs; discriminate.
Defined.

(** ** Saving a node with its metadata *)

(** X10: a [save] that returns has written the node described by the
    data with the node materializer and then stored the metadata under
    the id of the node this returned. What it returns is that node with,
    under ['metadata'], the metadata of the data stripped of the keys
    that are not valid: an entry is in the stripped metadata exactly when
    it is in the metadata of the data and its key is valid. Every such
    entry is in the [meta] table under the id of the node, every other
    row of the [meta] table is as the write left it, and so are the [fs]
    table and the cache. *)
Theorem save_stores self data w v w' :
  Archive.save self data w = Ok v w' →
  let cleaned :=
    (λ section, Archive._strip self section None) <$> metadata_of data in
  ∃ path ty ct e w1,
    data !! Some "path" = Some (VStr path)
    ∧ data !! Some "type" = Some (VType ty)
    ∧ data !! Some "content_types" = Some (VInt ct)
    ∧ FSWriter.write (FSWriter.init path ty ct) w = Ok (FSWriter.Found e) w1
    ∧ v = <[Some "metadata" := VMetadata cleaned]> (Archive.dict_of_entry e)
    ∧ same_but_meta w1 w'
    ∧ (∀ language key value,
         holds cleaned language key value ↔
         holds (metadata_of data) language key value
         ∧ key ∈ Archive.keys self None)
    ∧ (∀ language key value,
         holds (metadata_of data) language key value →
         key ∈ Archive.keys self None →
         meta (db w') !! (Fs.id e, language, key) = Some value)
    ∧ (∀ i language key,
         i ≠ Fs.id e
         ∨ (∀ value, ¬ (holds (metadata_of data) language key value
                        ∧ key ∈ Archive.keys self None)) →
         meta (db w') !! (i, language, key)
         = meta (db w1) !! (i, language, key)).
Proof.
  intros H cleaned.
  apply save_Ok_inv in H
    as (path & ty & ct & e & w1 & cleaned' & Hpath & Hty & Hct & Hwrite
        & Hmeta & ->).
  fold (metadata_of data) in Hmeta.
  destruct (_save_metadata_spec self (Fs.id e) (metadata_of data) w1)
    as (w2 & Hmeta' & Hsame & Hin & Hout).
  rewrite Hmeta' in Hmeta. injection Hmeta as <- <-.
  exists path, ty, ct, e, w1. split_and!; [done..| | |].
  - intros language key value. apply holds_strip.
  - intros language key value Hheld Hkey. apply Hin.
    apply holds_strip. done.
  - intros i language key Hother. apply Hout.
    destruct Hother as [?|Hnone]; [by left|right].
    intros value Hheld. apply (Hnone value). by apply holds_strip.
Qed.

Lemma save_stores_witness :
  ∃ v w' e,
    Archive.save titled_archive sample_data empty_world = Ok v w'
    ∧ v = <[Some "metadata" := VMetadata {[ "en" := {[ "title" := "T" ]} ]}]>
            (Archive.dict_of_entry e)
    ∧ meta (db w') !! (Fs.id e, "en", "title") = Some "T"
    ∧ meta (db w') !! (Fs.id e, "en", "bogus") = None.
Proof.
  assert (returns (Archive.save titled_archive sample_data empty_world)
          = true) as Hret by (vm_compute; reflexivity).
  destruct (Archive.save titled_archive sample_data empty_world)
    as [v w'|x] eqn:H; [|discriminate Hret].
  destruct (save_stores titled_archive sample_data empty_world v w' H)
    as (path & ty & ct & e & w1 & Hp & Ht & Hc & Hw & Hv & _ & _ & Hin
        & Hout).
  exists v, w', e. split; [reflexivity|].
  assert ((λ section, Archive._strip titled_archive section None)
            <$> metadata_of sample_data
          = {[ "en" := {[ "title" := "T" ]} ]}) as Hclean
    by (vm_compute; reflexivity).
  rewrite Hclean in Hv. split; [exact Hv|].
  split.
  - apply Hin; [|by_evaluation].
    eexists. split; vm_compute; reflexivity.
  - rewrite Hout.
    + assert (sample_data !! Some "path" = Some (VStr "a/b")) as Hp'
        by (vm_compute; reflexivity).
      assert (sample_data !! Some "type" = Some (VType DIRECTORY_TYPE))
        as Ht' by (vm_compute; reflexivity).
      assert (sample_data !! Some "content_types" = Some (VInt 1)) as Hc'
        by (vm_compute; reflexivity).
      rewrite Hp' in Hp. rewrite Ht' in Ht. rewrite Hc' in Hc.
      injection Hp as <-. injection Ht as <-. injection Hc as <-.
      assert (meta (db (world_after
                (FSWriter.write (FSWriter.init "a/b" DIRECTORY_TYPE 1))
                empty_world)) !! (Fs.id e, "en", "bogus") = None) as Hnone.
      { assert (meta (db (world_after
                  (FSWriter.write (FSWriter.init "a/b" DIRECTORY_TYPE 1))
                  empty_world)) = ∅) as -> by (vm_compute; reflexivity).
        apply lookup_empty. }
      unfold world_after in Hnone. rewrite Hw in Hnone. exact Hnone.
    + right. intros value [_ Hkey]. revert Hkey. by_evaluation.
Defined.
